(** * V2V-OSM: propagation-condition geometry over street graphs

    A shallow embedding of [osm_pathloss.py] and [vehicles.py].

    Conventions of the embedding.
    - Python floats are read as real numbers ([R]); comparisons are the
      decidable order of [R]; [np.pi] is [PI].
    - A raised exception is a value [Raise e]; stateful code threads its
      state explicitly and keeps the state reached when it raises.
    - Calls into shapely, networkx and numpy that the repository does not
      define are either given their real-number meaning on the shapes the
      code builds (two-point segments) or taken as section variables. *)

From Stdlib Require Import Reals Lra Lia ZArith.
From stdpp Require Import base option list gmap strings.

Local Open Scope R_scope.

(** * Part I: the embedding *)

(** ** Python outcomes *)

Inductive exn : Type :=
  | ValueError
  | IndexError
  | KeyError
  | NotImplementedError
  | NetworkXNoPath
  | Dangling.  (* a reference outside the store; Python has none *)

Inductive result (A : Type) : Type :=
  | Ok (a : A)
  | Raise (e : exn).
Arguments Ok {A} a.
Arguments Raise {A} e.

Definition raises {A} (r : result A) : Prop := exists e, r = Raise e.

Global Instance result_ret : MRet result := fun A a => Ok a.
Global Instance result_bind : MBind result := fun A B f r =>
  match r with
  | Ok a => f a
  | Raise e => Raise e
  end.

Definition of_option {A} (e : exn) (o : option A) : result A :=
  match o with Some a => Ok a | None => Raise e end.

(** State and exceptions: a computation over a mutable state [S] returns
    its outcome and the state it reached. *)
Definition M (S A : Type) : Type := S -> result A * S.

Global Instance M_ret S : MRet (M S) := fun A a s => (Ok a, s).
Global Instance M_bind S : MBind (M S) := fun A B f m s =>
  match m s with
  | (Ok a, s') => f a s'
  | (Raise e, s') => (Raise e, s')
  end.

Definition get {S} : M S S := fun s => (Ok s, s).
Definition modify {S} (f : S -> S) : M S unit := fun s => (Ok tt, f s).
Definition lift {S A} (r : result A) : M S A := fun s => (r, s).

Definition Rltb (a b : R) : bool := if Rlt_dec a b then true else false.
Definition Rgtb (a b : R) : bool := if Rgt_dec a b then true else false.

(** ** numpy *)

(** [x % m] on floats: floored modulo, the result has the sign of [m]. *)
Definition np_mod (x m : R) : R := x - m * IZR (Int_part (x / m)).

(** [np.zeros(n)] for a Python int [n]: a negative dimension raises. *)
Definition np_zeros (n : Z) : result (list R) :=
  if Z.ltb n 0 then Raise ValueError else Ok (replicate (Z.to_nat n) 0).

(** Builtin [sum] over an array, starting from [0]. *)
Definition py_sum (l : list R) : R := fold_left Rplus l 0.

(** [np.argmax]: index of the first maximal entry; an empty array raises. *)
Fixpoint argmax_from (best_i : nat) (best : R) (i : nat) (l : list R) : nat :=
  match l with
  | [] => best_i
  | v :: l' =>
      if Rgtb v best then argmax_from i v (S i) l'
      else argmax_from best_i best (S i) l'
  end.

Definition np_argmax (l : list R) : result nat :=
  match l with
  | [] => Raise ValueError
  | v :: l' => Ok (argmax_from 0 v 1 l')
  end.

(** [arr[mask]] for a boolean mask. *)
Fixpoint np_mask_select {A} (mask : list bool) (arr : list A) : list A :=
  match mask, arr with
  | b :: mask', a :: arr' =>
      if b then a :: np_mask_select mask' arr' else np_mask_select mask' arr'
  | _, _ => []
  end.

(** [np.arctan2(y, x)]: the angle of the vector [(x, y)], in [(-PI, PI]]. *)
Definition np_arctan2 (y x : R) : R :=
  if Rlt_dec 0 x then atan (y / x)
  else if Rlt_dec x 0 then
    (if Rle_dec 0 y then atan (y / x) + PI else atan (y / x) - PI)
  else if Rlt_dec 0 y then PI / 2
  else if Rlt_dec y 0 then - (PI / 2)
  else 0.

(** ** shapely, on the shapes the code builds *)

Abbreviation Point := (R * R)%type (only parsing).

(** The coordinate sequence of a [LineString]. *)
Abbreviation LineString := (list Point) (only parsing).

(** What [line_intersects_points] asks of its [line] argument. *)
Class Line (L : Type) : Type := {
  line_length : L -> R;
  line_project : L -> Point -> R;
  line_distance : L -> Point -> R
}.

(** [geom.LineString([a, b])]: a straight segment. *)
Record Segment : Type := mkSegment { seg_from : Point; seg_to : Point }.

Definition euclid (p q : Point) : R :=
  sqrt ((p.1 - q.1) * (p.1 - q.1) + (p.2 - q.2) * (p.2 - q.2)).

Definition seg_length (s : Segment) : R := euclid (seg_from s) (seg_to s).

(** Position in [[0, 1]] of the point of the segment nearest to [p]. *)
Definition seg_param (s : Segment) (p : Point) : R :=
  let a := seg_from s in
  let b := seg_to s in
  let dx := b.1 - a.1 in
  let dy := b.2 - a.2 in
  let d2 := dx * dx + dy * dy in
  if Req_dec_T d2 0 then 0
  else Rmax 0 (Rmin 1 (((p.1 - a.1) * dx + (p.2 - a.2) * dy) / d2)).

Definition seg_at (s : Segment) (t : R) : Point :=
  let a := seg_from s in
  let b := seg_to s in
  (a.1 + t * (b.1 - a.1), a.2 + t * (b.2 - a.2)).

(** [line.project(p)]: distance along the line of the nearest point. *)
Definition seg_project (s : Segment) (p : Point) : R :=
  seg_param s p * seg_length s.

(** [line.distance(p)]. *)
Definition seg_distance (s : Segment) (p : Point) : R :=
  euclid p (seg_at s (seg_param s p)).

Global Instance Segment_Line : Line Segment := {
  line_length := seg_length;
  line_project := seg_project;
  line_distance := seg_distance
}.

(** ** Visibility classifier: vehicle-body obstruction *)

(** [line_intersects_points]; the loop stops at the first hit. *)
Fixpoint line_intersects_points `{Line L} (line : L) (points : list Point)
    (margin : R) : bool :=
  match points with
  | [] => false
  | point :: points' =>
      let proj := line_project line point in
      let point_in_roi := Rgtb proj 0 && Rltb proj (line_length line) in
      let distance_small := Rltb (line_distance line point) margin in
      if point_in_roi && distance_small then true
      else line_intersects_points line points' margin
  end.

(** Default of the [margin] parameter in both signatures. *)
Definition margin_default : R := 1.

(** The margin [main_test] passes explicitly. *)
Definition margin_main_test : R := 2.

(** [veh_cons_are_olos]: slot [index] of [is_olos] is written once, from
    the segment to vehicle [index] and all the entries of [point_vehs]
    but that one. *)
Definition veh_cons_are_olos (point_own : Point) (point_vehs : list Point)
    (margin : R) : list bool :=
  imap (fun index point =>
          let line := mkSegment point_own point in
          let indices_other :=
            <[index := false]> (replicate (length point_vehs) true) in
          line_intersects_points line
            (np_mask_select indices_other point_vehs) margin)
       point_vehs.

(** ** Vehicle placement: splitting a street at a point *)

Section SplitLine.
(** The street geometry, the splitter and shapely's operations on them. *)
Context {Geom Poly : Type}.
Variable distance : Geom -> Point -> R.
Variable buffer : Point -> R -> Poly.
(** [ops.split]: the pieces, in order along the line. *)
Variable split : Geom -> Poly -> list Geom.

Definition split_line_at_point (line : Geom) (point : Point)
    : result (Geom * Geom) :=
  if Rgtb (distance line point) 1e-8 then Raise ValueError
  else
    let circle := buffer point 1e-8 in
    let line_split := split line circle in
    line_before ← of_option IndexError (line_split !! 0%nat);
    line_after ← of_option IndexError (line_split !! 2%nat);
    Ok (line_before, line_after).
End SplitLine.

(** shapely on a straight street: the splitter [point.buffer(r)] is read
    as the disk of radius [r] (shapely approximates it by a polygon), and
    [ops.split] cuts the segment where it crosses the disk's boundary
    strictly between its two ends. *)
Definition Disk : Type := Point * R.

Definition disk_buffer (p : Point) (r : R) : Disk := (p, r).

Fixpoint cut_from (s : Segment) (start : Point) (cuts : list R)
    : list Segment :=
  match cuts with
  | [] => [mkSegment start (seg_to s)]
  | t :: cuts' => mkSegment start (seg_at s t) :: cut_from s (seg_at s t) cuts'
  end.

Definition seg_split_disk (s : Segment) (d : Disk) : list Segment :=
  let a := seg_from s in
  let b := seg_to s in
  let dx := b.1 - a.1 in
  let dy := b.2 - a.2 in
  let fx := a.1 - d.1.1 in
  let fy := a.2 - d.1.2 in
  let qa := dx * dx + dy * dy in
  let qb := 2 * (fx * dx + fy * dy) in
  let qc := fx * fx + fy * fy - d.2 * d.2 in
  let disc := qb * qb - 4 * qa * qc in
  if Req_dec_T qa 0 then [s]
  else if Rlt_dec disc 0 then [s]
  else
    let t1 := (- qb - sqrt disc) / (2 * qa) in
    let t2 := (- qb + sqrt disc) / (2 * qa) in
    let inside t := Rltb 0 t && Rltb t 1 in
    cut_from s a
      ((if inside t1 then [t1] else []) ++
       (if inside t2 && Rltb t1 t2 then [t2] else [])).

(** ** Orthogonality analyzer: turn angles along a route *)

(** What [ops.linemerge] returns: one line when the pieces chain up, a
    multi-part geometry otherwise. *)
Inductive Geometry : Type :=
  | GLineString (coords : LineString)
  | GMultiLineString (parts : list LineString).

(** [line.coords] and [line.xy] exist for a single line only. *)
Definition geom_coords (g : Geometry) : result LineString :=
  match g with
  | GLineString coords => Ok coords
  | GMultiLineString _ => Raise NotImplementedError
  end.

(** [arr[i] = v]; out of range raises. *)
Definition array_set {A} (arr : list A) (i : nat) (v : A) : result (list A) :=
  if decide (i < length arr)%nat then Ok (<[i := v]> arr) else Raise IndexError.

(** [wrap_to_pi]: [(angle + np.pi) % (2*np.pi) - np.pi]. *)
Definition wrap_to_pi (angle : R) : R := np_mod (angle + PI) (2 * PI) - PI.

(** The loop of [angles_along_line] over [enumerate(coords[1:])]. *)
Fixpoint angles_loop (coords : LineString) (index : nat) (rest : list Point)
    (angle_temp_prev : R) (angles : list R) : result (list R) :=
  match rest with
  | [] => Ok angles
  | coord :: rest' =>
      coord_prev ← of_option IndexError (coords !! index);
      let angle_temp :=
        np_arctan2 (coord.1 - coord_prev.1) (coord.2 - coord_prev.2) in
      angles' ←
        (if decide (index = 0%nat) then Ok angles
         else if Rlt_dec (angle_temp - angle_temp_prev) PI
         then array_set angles (index - 1) (angle_temp - angle_temp_prev + PI)
         else array_set angles (index - 1) (angle_temp - angle_temp_prev - PI));
      angles_loop coords (S index) rest' angle_temp angles'
  end.

Definition angles_along_line (line : Geometry) : result (list R) :=
  coords ← geom_coords line;
  angles ← np_zeros (Z.of_nat (length coords) - 2);
  angles_loop coords 0 (drop 1 coords) 0 angles.

(** [np.pi - np.abs(wrap_to_pi(angles))], entry by entry. *)
Definition wrap_contributions (angles : list R) : list R :=
  (fun a => PI - Rabs (wrap_to_pi a)) <$> angles.

(** Default of [max_angle]. *)
Definition max_angle_default : R := PI.

(** One iteration of [check_if_cons_orthogonal] from the merged route on:
    the flag written to [is_orthogonal[index]] and the row written to
    [coords_max_angle[index, :]]. *)
Definition cons_orthogonal_route (route : Geometry) (max_angle : R)
    : result (bool * Point) :=
  angles ← angles_along_line route;
  let angles_wrapped := wrap_contributions angles in
  let sum_angles := py_sum angles_wrapped in
  let is_orthogonal := if Rlt_dec sum_angles max_angle then true else false in
  index_angle ← np_argmax angles_wrapped;
  route_coords ← geom_coords route;
  coords_max ← of_option IndexError (route_coords !! (index_angle + 1)%nat);
  Ok (is_orthogonal, coords_max).

(** ** Reference reading of the turn angles *)

(** The entry [angles_along_line] computes at the vertex [q] between
    [p] and [r]. *)
Definition turn_angle (p q r : Point) : R :=
  let before := np_arctan2 (q.1 - p.1) (q.2 - p.2) in
  let after := np_arctan2 (r.1 - q.1) (r.2 - q.2) in
  if Rlt_dec (after - before) PI then after - before + PI
  else after - before - PI.

(** One entry per interior vertex of the route. *)
Fixpoint turn_angles (coords : LineString) : list R :=
  match coords with
  | p :: coords' =>
      match coords' with
      | q :: r :: _ => turn_angle p q r :: turn_angles coords'
      | _ => []
      end
  | [] => []
  end.

(** The entries the loop writes from position [index - 1] on, given the
    previous direction and the previous vertex. *)
Fixpoint turn_from (angle_prev : R) (p : Point) (rest : list Point) : list R :=
  match rest with
  | [] => []
  | c :: rest' =>
      let angle := np_arctan2 (c.1 - p.1) (c.2 - p.2) in
      (if Rlt_dec (angle - angle_prev) PI then angle - angle_prev + PI
       else angle - angle_prev - PI) :: turn_from angle c rest'
  end.

(** The turn-angle sum of a route. *)
Definition turn_sum (coords : LineString) : R :=
  py_sum (wrap_contributions (turn_angles coords)).

(** ** networkx [MultiGraph] *)

(** Intersection nodes are OSM ids, vehicle nodes are the strings
    ['v0'], ['v1'], ... *)
Abbreviation Node := (Z + string)%type (only parsing).

(** The node attributes the code reads. *)
Record NodeAttr : Type := mkNodeAttr {
  attr_x : option R;
  attr_y : option R
}.

(** The edge attributes the code reads and writes. *)
Record EdgeAttr : Type := mkEdgeAttr {
  edge_length : R;
  edge_geometry : option LineString
}.

(** [G.graph], [G.node] (in iteration order) and [G.adj]: the key
    dictionary of the parallel edges between [u] and [v], whose keys
    [0, 1, ...] are the positions in the list, is stored under [(u, v)]
    and under [(v, u)]. *)
Record MultiGraph : Type := mkMultiGraph {
  graph_node_veh : option Node;
  node : list (Node * NodeAttr);
  adj : gmap (Node * Node) (list EdgeAttr)
}.

Fixpoint assoc {A} (u : Node) (l : list (Node * A)) : option A :=
  match l with
  | [] => None
  | (k, a) :: l' => if decide (k = u) then Some a else assoc u l'
  end.

(** [G.nodes()]. *)
Definition nodes (g : MultiGraph) : list Node := (node g).*1.

(** [(G.node[u]['x'], G.node[u]['y'])]. *)
Definition node_coords (g : MultiGraph) (u : Node) : result Point :=
  attr ← of_option KeyError (assoc u (node g));
  x ← of_option KeyError (attr_x attr);
  y ← of_option KeyError (attr_y attr);
  Ok (x, y).

(** [G.has_edge(u, v)]. *)
Definition has_edge (g : MultiGraph) (u v : Node) : bool :=
  bool_decide (is_Some (adj g !! (u, v))).

(** [G.edge[u][v].values()]. *)
Definition edge_values (g : MultiGraph) (u v : Node)
    : result (list EdgeAttr) :=
  of_option KeyError (adj g !! (u, v)).

Definition add_node_if_absent (u : Node) (l : list (Node * NodeAttr))
    : list (Node * NodeAttr) :=
  match assoc u l with
  | Some _ => l
  | None => l ++ [(u, mkNodeAttr None None)]
  end.

(** [G.add_edge(u, v, attr_dict=data)]: a new parallel edge under the
    next key; missing end nodes are created without attributes. *)
Definition add_edge (u v : Node) (data : EdgeAttr) (g : MultiGraph)
    : MultiGraph :=
  let keydict :=
    match adj g !! (u, v) with
    | Some keydict => keydict ++ [data]
    | None => [data]
    end in
  {| graph_node_veh := graph_node_veh g;
     node := add_node_if_absent v (add_node_if_absent u (node g));
     adj := <[(u, v) := keydict]> (<[(v, u) := keydict]> (adj g)) |}.

(** Every node carries coordinates. *)
Definition has_coords (g : MultiGraph) : Prop :=
  forall u, u ∈ nodes g -> exists c, node_coords g u = Ok c.

(** A well-formed street graph: node keys are distinct, every node has
    coordinates, and the two directions of an undirected edge share one
    key dictionary. *)
Record wf_graph (g : MultiGraph) : Prop := mk_wf_graph {
  wf_nodup : NoDup (nodes g);
  wf_coords : has_coords g;
  wf_sym : forall a b, adj g !! (a, b) = adj g !! (b, a)
}.

(** ** Visibility graph builder *)

Section Builder.
(** Building footprints and [line.intersects(geometry)]. *)
Context {Polygon : Type}.
Variable intersects : LineString -> Polygon -> bool.

(** [line_intersects_buildings]; the loop stops at the first hit. *)
Fixpoint line_intersects_buildings (line : LineString)
    (buildings : list Polygon) : bool :=
  match buildings with
  | [] => false
  | geometry :: buildings' =>
      if intersects line geometry then true
      else line_intersects_buildings line buildings'
  end.

(** [veh_cons_are_nlos]: slot [index] of [is_nlos] is written once, from
    the segment to vehicle [index]. *)
Definition veh_cons_are_nlos (point_own : Point) (point_vehs : list Point)
    (buildings : list Polygon) : list bool :=
  (fun point =>
     let line := [point_own; point] in
     line_intersects_buildings line buildings) <$> point_vehs.

Variable buildings : list Polygon.
Variable max_distance : R.

(** The inner loop of [add_edges_if_los], over [graph.nodes()[index+1:]];
    the graph is the mutable state. *)
Fixpoint add_edges_inner (node_u : Node) (coords_u : Point) (vs : list Node)
    : M MultiGraph unit :=
  match vs with
  | [] => mret tt
  | node_v :: vs' =>
      graph ← get;
      if has_edge graph node_u node_v then add_edges_inner node_u coords_u vs'
      else
        coords_v ← lift (node_coords graph node_v);
        let distance := euclid coords_u coords_v in
        if Rgtb distance max_distance then add_edges_inner node_u coords_u vs'
        else
          let line := [coords_u; coords_v] in
          if line_intersects_buildings line buildings
          then add_edges_inner node_u coords_u vs'
          else
            let edge_attr := mkEdgeAttr distance (Some line) in
            _ ← modify (add_edge node_u node_v edge_attr);
            add_edges_inner node_u coords_u vs'
  end.

(** The outer loop, over [enumerate(graph.nodes())]. *)
Fixpoint add_edges_outer (index : nat) (us : list Node) : M MultiGraph unit :=
  match us with
  | [] => mret tt
  | node_u :: us' =>
      graph ← get;
      coords_u ← lift (node_coords graph node_u);
      _ ← add_edges_inner node_u coords_u (drop (S index) (nodes graph));
      add_edges_outer (S index) us'
  end.

Definition add_edges_if_los : M MultiGraph unit :=
  graph ← get;
  add_edges_outer 0 (nodes graph).

(** Reference reading of the double loop: the pairs [(u, v)] with [u]
    before [v] in [graph.nodes()], in the order the loops reach them. *)
Fixpoint pairs (l : list Node) : list (Node * Node) :=
  match l with
  | [] => []
  | u :: l' => (pair u <$> l') ++ pairs l'
  end.

(** The edge the builder adds between two nodes not yet adjacent, if
    any: both nodes are within [max_distance] and the straight line
    between them meets no building. *)
Definition los_edge (g : MultiGraph) (u v : Node) : option EdgeAttr :=
  match node_coords g u, node_coords g v with
  | Ok coords_u, Ok coords_v =>
      if Rgtb (euclid coords_u coords_v) max_distance then None
      else if line_intersects_buildings [coords_u; coords_v] buildings
      then None
      else Some (mkEdgeAttr (euclid coords_u coords_v)
                   (Some [coords_u; coords_v]))
  | _, _ => None
  end.

(** What the loop body does to the graph at one pair. *)
Definition visit (g : MultiGraph) (p : Node * Node) : MultiGraph :=
  if has_edge g p.1 p.2 then g
  else match los_edge g p.1 p.2 with
       | Some edge_attr => add_edge p.1 p.2 edge_attr g
       | None => g
       end.

(** The key dictionary between [u] and [v] once the pair has been
    visited. *)
Definition visited_adj (g : MultiGraph) (u v : Node)
    : option (list EdgeAttr) :=
  match adj g !! (u, v) with
  | Some keydict => Some keydict
  | None =>
      match los_edge g u v with
      | Some edge_attr => Some [edge_attr]
      | None => None
      end
  end.
End Builder.

(** Default of [max_distance]. *)
Definition max_distance_default : R := 50.

(** ** Graph objects and references *)

(** Graphs are objects: the store holds them, a variable holds a
    location. *)
Abbreviation loc := nat (only parsing).
Abbreviation store := (list MultiGraph) (only parsing).

Definition load (l : loc) : M store MultiGraph :=
  fun s => (of_option Dangling (s !! l), s).

(** A new object, at a location not in use. *)
Definition alloc (g : MultiGraph) : M store loc :=
  fun s => (Ok (length s), s ++ [g]).

(** Run a computation that mutates a graph on the object at [l]. *)
Definition at_ref {A} (l : loc) (m : M MultiGraph A) : M store A :=
  fun s =>
    match s !! l with
    | None => (Raise Dangling, s)
    | Some g => let '(r, g') := m g in (r, <[l := g']> s)
    end.

(** [add_edges_if_los(graph, buildings, max_distance)] on a graph object:
    the object at [graph] is updated in place. *)
Definition add_edges_if_los_at {Polygon : Type}
    (intersects : LineString -> Polygon -> bool) (buildings : list Polygon)
    (max_distance : R) (graph : loc) : M store unit :=
  at_ref graph (add_edges_if_los intersects buildings max_distance).

(** ** Orthogonality analyzer *)

(** First minimum of [min(values, key=lambda x: x['length'])]. *)
Fixpoint min_by_length (best : EdgeAttr) (l : list EdgeAttr) : EdgeAttr :=
  match l with
  | [] => best
  | data :: l' =>
      if Rlt_dec (edge_length data) (edge_length best)
      then min_by_length data l' else min_by_length best l'
  end.

Section Analyzer.
(** networkx and shapely operations on values: the graph [nx.compose]
    builds, the node list [nx.shortest_path] returns (or its exception),
    and [ops.linemerge]. *)
Variable nx_compose : MultiGraph -> MultiGraph -> MultiGraph.
Variable nx_shortest_path : MultiGraph -> Node -> Node -> result (list Node).
Variable linemerge : list LineString -> Geometry.

(** [nx.compose(G, H)] returns a new graph object and leaves [G] and [H]
    as they are. (networkx lets the new graph share attribute
    dictionaries with [G] and [H]; the analyzer writes to none.) *)
Definition compose (G H : loc) : M store loc :=
  g ← load G;
  h ← load H;
  alloc (nx_compose g h).

(** The loop of [line_route_between_nodes] over [edge_nodes]. *)
Fixpoint route_lines (graph : MultiGraph) (edge_nodes : list (Node * Node))
    : result (list LineString) :=
  match edge_nodes with
  | [] => Ok []
  | (u_node, v_node) :: edge_nodes' =>
      values ← edge_values graph u_node v_node;
      data ← match values with
              | [] => Raise ValueError
              | d :: values' => Ok (min_by_length d values')
              end;
      geometry ← of_option KeyError (edge_geometry data);
      lines ← route_lines graph edge_nodes';
      Ok (geometry :: lines)
  end.

(** [zip(route[:-1], route[1:])]. *)
Definition edge_nodes_of (route : list Node) : list (Node * Node) :=
  zip (take (length route - 1) route) (drop 1 route).

Definition line_route_between_nodes (node_from node_to : Node)
    (graph : MultiGraph) : result Geometry :=
  route ← nx_shortest_path graph node_from node_to;
  lines ← route_lines graph (edge_nodes_of route);
  Ok (linemerge lines).

(** The merged shortest route of one pair, from the values of the three
    graphs: the vehicle graph [g] composed with the composition of the
    own vehicle graph and the street graph. *)
Definition pair_route (node_own : Node) (g_own g_streets g : MultiGraph)
    : result Geometry :=
  node_v ← of_option KeyError (graph_node_veh g);
  line_route_between_nodes node_own node_v
    (nx_compose g (nx_compose g_own g_streets)).

(** The row of one pair, from the values of the vehicle graph [g] and of
    the graph [local] it is composed with. *)
Definition pair_row (node_own : Node) (local : MultiGraph) (max_angle : R)
    (g : MultiGraph) : result (bool * Point) :=
  node_v ← of_option KeyError (graph_node_veh g);
  route ← line_route_between_nodes node_own node_v (nx_compose g local);
  cons_orthogonal_route route max_angle.

(** The loop of [check_if_cons_orthogonal] over
    [enumerate(graphs_veh_other)]. *)
Fixpoint cons_orthogonal_loop (node_own : Node) (streets_wave_local : loc)
    (max_angle : R) (index : nat) (graphs : list loc)
    (is_orthogonal : list bool) (coords_max_angle : list Point)
    : M store (list bool * list Point) :=
  match graphs with
  | [] => mret (is_orthogonal, coords_max_angle)
  | graph :: graphs' =>
      g ← load graph;
      node_v ← lift (of_option KeyError (graph_node_veh g));
      streets_wave_local_iter ← compose graph streets_wave_local;
      working ← load streets_wave_local_iter;
      route ← lift (line_route_between_nodes node_own node_v working);
      row ← lift (cons_orthogonal_route route max_angle);
      is_orthogonal' ← lift (array_set is_orthogonal index row.1);
      coords_max_angle' ← lift (array_set coords_max_angle index row.2);
      cons_orthogonal_loop node_own streets_wave_local max_angle (S index)
        graphs' is_orthogonal' coords_max_angle'
  end.

Definition check_if_cons_orthogonal (streets_wave graph_veh_own : loc)
    (graphs_veh_other : list loc) (max_angle : R)
    : M store (list bool * list Point) :=
  g_own ← load graph_veh_own;
  node_own ← lift (of_option KeyError (graph_node_veh g_own));
  streets_wave_local ← compose graph_veh_own streets_wave;
  let count_veh_other := length graphs_veh_other in
  cons_orthogonal_loop node_own streets_wave_local max_angle 0
    graphs_veh_other (replicate count_veh_other false)
    (replicate count_veh_other (0, 0)).
End Analyzer.

(** ** A small scene

    Two intersections joined by one street, a vehicle graph at each, and
    simple stand-ins for the library operations, enough for routes along
    a single street: composition by union, the direct edge as shortest
    path, and the merge of a single line. *)

Definition compose_union (g h : MultiGraph) : MultiGraph :=
  {| graph_node_veh :=
       match graph_node_veh h with
       | Some n => Some n
       | None => graph_node_veh g
       end;
     node := node h ++ node g;
     adj := adj h ∪ adj g |}.

Definition direct_path (g : MultiGraph) (u v : Node) : result (list Node) :=
  if has_edge g u v then Ok [u; v] else Raise NetworkXNoPath.

Definition merge_single (lines : list LineString) : Geometry :=
  match lines with
  | [line] => GLineString line
  | _ => GMultiLineString lines
  end.

Definition scene_streets (len : R) (geometry : LineString) : MultiGraph :=
  {| graph_node_veh := None;
     node := [(inl 1%Z, mkNodeAttr (Some 0) (Some 0));
              (inl 2%Z, mkNodeAttr (Some 3) (Some 4))];
     adj := {[ (inl 1%Z, inl 2%Z) := [mkEdgeAttr len (Some geometry)];
               (inl 2%Z, inl 1%Z) := [mkEdgeAttr len (Some geometry)] ]} |}.

Definition scene_vehicle (at_node : Node) : MultiGraph :=
  {| graph_node_veh := Some at_node;
     node := [(at_node, mkNodeAttr None None)];
     adj := ∅ |}.

(** The store: the street graph at 0, the own vehicle graph at 1, the
    other vehicle graph at 2. *)
Definition scene (len : R) (geometry : LineString) : list MultiGraph :=
  [scene_streets len geometry;
   scene_vehicle (inl 1%Z); scene_vehicle (inl 2%Z)].

(** The street as one straight line, and as a line with a corner. *)
Definition scene_straight : list MultiGraph := scene 5 [(0, 0); (3, 4)].
Definition scene_bent : list MultiGraph := scene 7 [(0, 0); (3, 0); (3, 4)].

(** Three intersections at (0, 0), (30, 0) and (30, 40), with streets
    between the first two and the last two, and no buildings. *)
Definition scene_corner : MultiGraph :=
  {| graph_node_veh := None;
     node := [(inl 1%Z, mkNodeAttr (Some 0) (Some 0));
              (inl 2%Z, mkNodeAttr (Some 30) (Some 0));
              (inl 3%Z, mkNodeAttr (Some 30) (Some 40))];
     adj := <[(inl 1%Z, inl 2%Z) := [mkEdgeAttr 30 (Some [(0, 0); (30, 0)])]]>
           (<[(inl 2%Z, inl 1%Z) := [mkEdgeAttr 30 (Some [(0, 0); (30, 0)])]]>
           (<[(inl 2%Z, inl 3%Z) := [mkEdgeAttr 40 (Some [(30, 0); (30, 40)])]]>
           (<[(inl 3%Z, inl 2%Z) := [mkEdgeAttr 40 (Some [(30, 0); (30, 40)])]]>
            ∅))) |}.

Definition no_buildings : list unit := [].

Definition never_intersects (line : LineString) (geometry : unit) : bool :=
  false.

(** ** The street network as loaded: a directed multigraph *)

(** [streets.node] and [streets.edges(data=True)], the edges in iteration
    order, each with its own attribute dictionary. *)
Record MultiDiGraph : Type := mkMultiDiGraph {
  di_node : list (Node * NodeAttr);
  di_edges : list (Node * Node * EdgeAttr)
}.

(** [(streets.node[u]['x'], streets.node[u]['y'])]. *)
Definition di_node_coords (streets : MultiDiGraph) (u : Node)
    : result Point :=
  attr ← of_option KeyError (assoc u (di_node streets));
  x ← of_option KeyError (attr_x attr);
  y ← of_option KeyError (attr_y attr);
  Ok (x, y).

(** The loop of [add_geometry]: [index] counts the edges passed, the
    attribute dictionary of an edge without geometry is updated in
    place. *)
Fixpoint add_geometry_loop (index : nat)
    (edges : list (Node * Node * EdgeAttr)) : M MultiDiGraph unit :=
  match edges with
  | [] => mret tt
  | (u_node, v_node, data) :: edges' =>
      match edge_geometry data with
      | Some _ => add_geometry_loop (S index) edges'
      | None =>
          streets ← get;
          coords_1 ← lift (di_node_coords streets u_node);
          coords_2 ← lift (di_node_coords streets v_node);
          let data' :=
            mkEdgeAttr (edge_length data) (Some [coords_1; coords_2]) in
          _ ← modify (fun streets =>
                 mkMultiDiGraph (di_node streets)
                   (<[index := (u_node, v_node, data')]> (di_edges streets)));
          add_geometry_loop (S index) edges'
      end
  end.

Definition add_geometry : M MultiDiGraph unit :=
  streets ← get;
  add_geometry_loop 0 (di_edges streets).

(** Reference reading of [add_geometry] at one edge: an edge without
    geometry gets the straight line between its end nodes. *)
Definition with_geometry (streets : MultiDiGraph)
    (street : Node * Node * EdgeAttr) : result (Node * Node * EdgeAttr) :=
  match edge_geometry street.2 with
  | Some _ => Ok street
  | None =>
      coords_1 ← di_node_coords streets street.1.1;
      coords_2 ← di_node_coords streets street.1.2;
      Ok (street.1,
          mkEdgeAttr (edge_length street.2) (Some [coords_1; coords_2]))
  end.

(** [check_geometry]; the loop stops at the first edge without
    geometry. *)
Fixpoint check_geometry_loop (edges : list (Node * Node * EdgeAttr)) : bool :=
  match edges with
  | [] => true
  | (_, _, data) :: edges' =>
      match edge_geometry data with
      | None => false
      | Some _ => check_geometry_loop edges'
      end
  end.

Definition check_geometry (streets : MultiDiGraph) : bool :=
  check_geometry_loop (di_edges streets).

(** The edges without geometry have end nodes with coordinates. *)
Definition can_add_geometry (streets : MultiDiGraph) : Prop :=
  forall u v data,
    (u, v, data) ∈ di_edges streets -> edge_geometry data = None ->
    (exists c, di_node_coords streets u = Ok c) /\
    (exists c, di_node_coords streets v = Ok c).

(** [get_street_lengths]. *)
Definition get_street_lengths (streets : MultiDiGraph) : list R :=
  (fun street => edge_length street.2) <$> di_edges streets.

(** [probs] of [choose_random_streets]: [lengths / sum(lengths)]. *)
Definition choose_random_streets_probs (lengths : list R) : list R :=
  let total_length := py_sum lengths in
  (fun l => l / total_length) <$> lengths.

(** Two streets out of the first intersection of the small scene, one
    with its geometry and one without. *)
Definition scene_loaded : MultiDiGraph :=
  {| di_node := [(inl 1%Z, mkNodeAttr (Some 0) (Some 0));
                 (inl 2%Z, mkNodeAttr (Some 3) (Some 4))];
     di_edges :=
       [(inl 1%Z, inl 2%Z, mkEdgeAttr 7 (Some [(0, 0); (3, 0); (3, 4)]));
        (inl 2%Z, inl 1%Z, mkEdgeAttr 5 None)] |}.

(** ** [Vehicles] *)

(** A numpy array of integer indices; a negative index counts from the
    end. *)
Definition np_position (n : nat) (i : Z) : option nat :=
  if decide (0 <= i < Z.of_nat n)%Z then Some (Z.to_nat i)
  else if decide (- Z.of_nat n <= i < 0)%Z then Some (Z.to_nat (i + Z.of_nat n))
  else None.

(** The right-hand side of an indexed assignment. *)
Inductive np_values : Type :=
  | Scalar (v : R)
  | Array (vs : list R).

(** Broadcast to [k] entries: a scalar or a one-entry array is repeated,
    an array of [k] entries is taken as it is. *)
Definition np_broadcast (k : nat) (values : np_values) : result (list R) :=
  match values with
  | Scalar v => Ok (replicate k v)
  | Array [v] => Ok (replicate k v)
  | Array vs => if decide (length vs = k) then Ok vs else Raise ValueError
  end.

(** The shapes numpy broadcasts to [k] entries. *)
Definition broadcastable (k : nat) (values : np_values) : Prop :=
  match values with
  | Scalar _ => True
  | Array vs => length vs = k \/ length vs = 1%nat
  end.

Fixpoint np_positions (n : nat) (idx : list Z) : result (list nat) :=
  match idx with
  | [] => Ok []
  | i :: idx' =>
      p ← of_option IndexError (np_position n i);
      ps ← np_positions n idx';
      Ok (p :: ps)
  end.

(** Writes in index order: of two writes to one position the later
    stays. *)
Fixpoint np_put (arr : list R) (ps : list nat) (vs : list R) : list R :=
  match ps, vs with
  | p :: ps', v :: vs' => np_put (<[p := v]> arr) ps' vs'
  | _, _ => arr
  end.

(** [arr[idx] = values]: the values are broadcast to the shape of the
    index first, then the indices are checked, all of them before any
    write. *)
Definition np_setitem (arr : list R) (idx : list Z) (values : np_values)
    : result (list R) :=
  vs ← np_broadcast (length idx) values;
  ps ← np_positions (length arr) idx;
  Ok (np_put arr ps vs).

Record Vehicles : Type := mkVehicles {
  count : nat;
  points : list Point;
  coordinates : list R * list R;
  graphs : option (list loc);
  pathlosses : list R;
  distances : list R;
  nlos : list bool;
  idxs : gmap string (list Z)
}.

(** [Vehicles.add_key]. *)
Definition add_key (key : string) (value : list Z) : M Vehicles unit :=
  modify (fun self =>
    {| count := count self; points := points self;
       coordinates := coordinates self; graphs := graphs self;
       pathlosses := pathlosses self; distances := distances self;
       nlos := nlos self; idxs := <[key := value]> (idxs self) |}).

(** [Vehicles.set_pathlosses]. *)
Definition set_pathlosses (key : string) (values : np_values)
    : M Vehicles unit :=
  self ← get;
  idx ← lift (of_option KeyError (idxs self !! key));
  pathlosses' ← lift (np_setitem (pathlosses self) idx values);
  modify (fun self =>
    {| count := count self; points := points self;
       coordinates := coordinates self; graphs := graphs self;
       pathlosses := pathlosses'; distances := distances self;
       nlos := nlos self; idxs := idxs self |}).

(** Three vehicles with one key, addressing the second and (counting
    from the end) the last relation. *)
Definition scene_vehicles : Vehicles :=
  {| count := 3;
     points := [(0, 0); (1, 0); (2, 0)];
     coordinates := ([0; 1; 2], [0; 0; 0]);
     graphs := None;
     pathlosses := [0; 0; 0];
     distances := [1; 2; 3];
     nlos := [false; true; true];
     idxs := {[ "nlos" := [1; -1]%Z ]} |}.

(** [arr[ps]] at positions already resolved. *)
Fixpoint np_take {A} (arr : list A) (ps : list nat) : result (list A) :=
  match ps with
  | [] => Ok []
  | p :: ps' =>
      a ← of_option IndexError (arr !! p);
      rest ← np_take arr ps';
      Ok (a :: rest)
  end.

(** [arr[idx]] for an array of integer indices. *)
Definition np_getitem {A} (arr : list A) (idx : list Z) : result (list A) :=
  ps ← np_positions (length arr) idx;
  np_take arr ps.

(** [Vehicles.get_pathlosses]; [None] is the default [key=None]. *)
Definition get_pathlosses (key : option string) (self : Vehicles)
    : result (list R) :=
  match key with
  | None => Ok (pathlosses self)
  | Some key =>
      idx ← of_option KeyError (idxs self !! key);
      np_getitem (pathlosses self) idx
  end.

(** ** Bounding boxes: [find_center_veh] and [sumo.min_max_coords] *)

(** [np.amin] and [np.amax]: an empty array raises. *)
Definition np_amin (l : list R) : result R :=
  match l with
  | [] => Raise ValueError
  | v :: l' => Ok (fold_left Rmin l' v)
  end.

Definition np_amax (l : list R) : result R :=
  match l with
  | [] => Raise ValueError
  | v :: l' => Ok (fold_left Rmax l' v)
  end.

(** [np.argmin]: index of the first minimal entry; an empty array
    raises. *)
Fixpoint argmin_from (best_i : nat) (best : R) (i : nat) (l : list R) : nat :=
  match l with
  | [] => best_i
  | v :: l' =>
      if Rltb v best then argmin_from i v (S i) l'
      else argmin_from best_i best (S i) l'
  end.

Definition np_argmin (l : list R) : result nat :=
  match l with
  | [] => Raise ValueError
  | v :: l' => Ok (argmin_from 0 v 1 l')
  end.

(** [extract_point_array]. *)
Definition extract_point_array (points : list Point) : list R * list R :=
  ((fun point => point.1) <$> points, (fun point => point.2) <$> points).

(** [np.vstack((coords_x, coords_y)).T]: the rows must be equally
    long. *)
Definition np_vstack_T (coords_x coords_y : list R) : result (list Point) :=
  if decide (length coords_x = length coords_y)
  then Ok (zip coords_x coords_y)
  else Raise ValueError.

(** [find_center_veh]. *)
Definition find_center_veh (coords_x coords_y : list R) : result nat :=
  min_x ← np_amin coords_x;
  max_x ← np_amax coords_x;
  min_y ← np_amin coords_y;
  max_y ← np_amax coords_y;
  let mean_x := (min_x + max_x) / 2 in
  let mean_y := (min_y + max_y) / 2 in
  let coords_center := (mean_x, mean_y) in
  coords_veh ← np_vstack_T coords_x coords_y;
  let distances_center := euclid coords_center <$> coords_veh in
  np_argmin distances_center.

(** One row of a SUMO trace: a vehicle at a time step. *)
Record TraceRow : Type := mkTraceRow {
  trace_time : R;
  trace_id : N;
  trace_x : R;
  trace_y : R
}.

(** The loop of [min_max_coords]; a time step without vehicles is
    skipped. *)
Fixpoint min_max_coords_loop (traces : list (list TraceRow))
    (x_min x_max y_min y_max : R) : result (R * R * R * R) :=
  match traces with
  | [] => Ok (x_min, x_max, y_min, y_max)
  | trace :: traces' =>
      if decide (length trace = 0%nat)
      then min_max_coords_loop traces' x_min x_max y_min y_max
      else
        x_min_iter ← np_amin (trace_x <$> trace);
        x_max_iter ← np_amax (trace_x <$> trace);
        y_min_iter ← np_amin (trace_y <$> trace);
        y_max_iter ← np_amax (trace_y <$> trace);
        let x_min := if Rltb x_min_iter x_min then x_min_iter else x_min in
        let x_max := if Rgtb x_max_iter x_max then x_max_iter else x_max in
        let y_min := if Rltb y_min_iter y_min then y_min_iter else y_min in
        let y_max := if Rgtb y_max_iter y_max then y_max_iter else y_max in
        min_max_coords_loop traces' x_min x_max y_min y_max
  end.

(** [sumo.min_max_coords]: the bounds start at the first vehicle of the
    first time step. *)
Definition min_max_coords (traces : list (list TraceRow))
    : result (R * R * R * R) :=
  trace_0 ← of_option IndexError (traces !! 0%nat);
  first ← of_option IndexError (trace_0 !! 0%nat);
  min_max_coords_loop traces
    (trace_x first) (trace_x first) (trace_y first) (trace_y first).

(** The bounds reached by the loop of [min_max_coords]: each is the
    bound it started from or a coordinate of a vehicle passed. *)
Record bounds_of (coords : list R) (lo0 hi0 lo hi : R) : Prop := {
  bounds_lo_start : lo <= lo0;
  bounds_hi_start : hi0 <= hi;
  bounds_lo_all : forall x, x ∈ coords -> lo <= x;
  bounds_hi_all : forall x, x ∈ coords -> x <= hi;
  bounds_lo_met : lo = lo0 \/ lo ∈ coords;
  bounds_hi_met : hi = hi0 \/ hi ∈ coords
}.

(** Two time steps, the second without vehicles. *)
Definition scene_traces : list (list TraceRow) :=
  [[mkTraceRow 0 0 1 5; mkTraceRow 0 1 4 2]; []].

(** * Part II: properties *)

Lemma np_mod_range (x m : R) : 0 < m -> 0 <= np_mod x m < m.
Proof.
  intros Hm. unfold np_mod.
  destruct (base_Int_part (x / m)) as [Hlo Hhi].
  assert (Hx : x = m * (x / m)) by (field; lra).
  set (q := IZR (Int_part (x / m))) in *.
  split.
  - assert (m * q <= m * (x / m)) by (apply Rmult_le_compat_l; lra). lra.
  - assert (m * (x / m) < m * (q + 1)) by (apply Rmult_lt_compat_l; lra). lra.
Qed.

Lemma Rltb_true (a b : R) : Rltb a b = true <-> a < b.
Proof. unfold Rltb. destruct (Rlt_dec a b); split; (done || lra). Qed.

Lemma Rgtb_true (a b : R) : Rgtb a b = true <-> a > b.
Proof. unfold Rgtb. destruct (Rgt_dec a b); split; (done || lra). Qed.

Lemma Rltb_false (a b : R) : Rltb a b = false <-> ~ a < b.
Proof. unfold Rltb. destruct (Rlt_dec a b); split; (done || lra). Qed.

Lemma Rgtb_false (a b : R) : Rgtb a b = false <-> ~ a > b.
Proof. unfold Rgtb. destruct (Rgt_dec a b); split; (done || lra). Qed.

(** ** Angle wrapping *)

(** C8 (as amended): the wrapped angle lies in [[-PI, PI)] and differs
    from the argument by an integer multiple of [2 * PI]. *)
Theorem wrap_to_pi_range_period (a : R) :
  (- PI <= wrap_to_pi a < PI) /\
  exists k : Z, wrap_to_pi a = a + IZR k * (2 * PI).
Proof.
  assert (HPI := PI_RGT_0).
  split.
  - unfold wrap_to_pi. destruct (np_mod_range (a + PI) (2 * PI)); lra.
  - exists (- Int_part ((a + PI) / (2 * PI)))%Z.
    unfold wrap_to_pi, np_mod. rewrite opp_IZR. lra.
Qed.

(** C8 (as stated) fails at [a = PI]: the result is [- PI], which is
    outside [(-PI, PI]]. *)
Lemma wrap_to_pi_at_pi_not_in_half_open :
  wrap_to_pi PI = - PI /\
  ~ ((- PI < wrap_to_pi PI <= PI) /\
     exists k : Z, wrap_to_pi PI = PI + IZR k * (2 * PI)).
Proof.
  assert (HPI := PI_RGT_0).
  assert (E : wrap_to_pi PI = - PI).
  { unfold wrap_to_pi, np_mod.
    replace ((PI + PI) / (2 * PI)) with 1 by (field; lra).
    replace (Int_part 1) with 1%Z; [lra |].
    apply Int_part_spec. lra. }
  split; [exact E |]. rewrite E. lra.
Qed.

(** ** Vehicle-body obstruction *)

Lemma line_intersects_points_true `{Line L} (line : L) (points : list Point)
    (margin : R) :
  line_intersects_points line points margin = true <->
  exists q, q ∈ points /\
    0 < line_project line q < line_length line /\
    line_distance line q < margin.
Proof.
  induction points as [|p ps IH]; simpl.
  - split; [done |]. intros (q & Hq & _). by apply elem_of_nil in Hq.
  - destruct (Rgtb _ 0 && Rltb _ _ && Rltb _ margin) eqn:E.
    + split; [intros _ | done].
      apply andb_true_iff in E as [E E3]. apply andb_true_iff in E as [E1 E2].
      apply Rgtb_true in E1. apply Rltb_true in E2, E3.
      exists p. split; [left | lra].
    + rewrite IH. split.
      * intros (q & Hq & Hc). exists q. split; [by right | done].
      * intros (q & Hq & Hc1 & Hc2). apply elem_of_cons in Hq as [-> | Hq].
        -- exfalso.
           assert (Rgtb (line_project line p) 0 = true) as E1
             by (apply Rgtb_true; lra).
           assert (Rltb (line_project line p) (line_length line) = true) as E2
             by (apply Rltb_true; lra).
           assert (Rltb (line_distance line p) margin = true) as E3
             by (by apply Rltb_true).
           rewrite E1, E2, E3 in E. done.
        -- by exists q.
Qed.

Lemma np_mask_select_all {A} (l : list A) :
  np_mask_select (replicate (length l) true) l = l.
Proof. induction l as [|a l IH]; simpl; [done | by rewrite IH]. Qed.

Lemma np_mask_select_but_one {A} (l : list A) (i : nat) (q : A) :
  q ∈ np_mask_select (<[i := false]> (replicate (length l) true)) l <->
  exists j, j <> i /\ l !! j = Some q.
Proof.
  revert i. induction l as [|a l IH]; intros i; simpl.
  - split; [intros Hq; by apply elem_of_nil in Hq | by intros (j & _ & ?)].
  - destruct i as [|i]; simpl.
    + rewrite np_mask_select_all. rewrite list_elem_of_lookup. split.
      * intros [j Hj]. exists (S j). done.
      * intros ([|j] & Hne & Hj); [done | by exists j].
    + rewrite elem_of_cons, IH. split.
      * intros [-> | (j & Hne & Hj)]; [by exists 0%nat | exists (S j)].
        split; [lia | done].
      * intros ([|j] & Hne & Hj); simpl in Hj.
        -- left. congruence.
        -- right. exists j. split; [lia | done].
Qed.

(** C3 (as amended): for any margin, slot [index] of the result is [True]
    exactly when some entry of [point_vehs] other than entry [index]
    projects strictly inside the segment from [point_own] to vehicle
    [index] and lies closer to it than the margin; the default of the
    margin is 1. *)
Theorem veh_cons_are_olos_iff (point_own : Point) (point_vehs : list Point)
    (margin : R) (index : nat) :
  margin_default = 1 /\
  (veh_cons_are_olos point_own point_vehs margin !! index = Some true <->
   exists point j other,
     point_vehs !! index = Some point /\
     j <> index /\ point_vehs !! j = Some other /\
     0 < line_project (mkSegment point_own point) other
       < line_length (mkSegment point_own point) /\
     line_distance (mkSegment point_own point) other < margin).
Proof.
  split; [done |]. unfold veh_cons_are_olos. rewrite list_lookup_imap.
  destruct (point_vehs !! index) as [point|] eqn:Hp; simpl.
  - split.
    + intros Ht. injection Ht as Ht.
      apply line_intersects_points_true in Ht as (q & Hq & Hc1 & Hc2).
      apply np_mask_select_but_one in Hq as (j & Hne & Hj).
      by exists point, j, q.
    + intros (point' & j & q & [= <-] & Hne & Hj & Hc1 & Hc2).
      f_equal. apply line_intersects_points_true.
      exists q. split; [| done]. apply np_mask_select_but_one. by exists j.
  - split; [done | by intros (? & ? & ? & ? & _)].
Qed.

Lemma euclid_sq (p q : Point) (d : R) :
  0 <= d ->
  (p.1 - q.1) * (p.1 - q.1) + (p.2 - q.2) * (p.2 - q.2) = d * d ->
  euclid p q = d.
Proof. intros Hd E. unfold euclid. rewrite E. by apply sqrt_square. Qed.

Lemma seg_param_inside (s : Segment) (p : Point) (t : R) :
  0 <= t <= 1 ->
  (seg_to s).1 - (seg_from s).1 <> 0 \/ (seg_to s).2 - (seg_from s).2 <> 0 ->
  (p.1 - (seg_from s).1) * ((seg_to s).1 - (seg_from s).1) +
  (p.2 - (seg_from s).2) * ((seg_to s).2 - (seg_from s).2) =
  t * (((seg_to s).1 - (seg_from s).1) * ((seg_to s).1 - (seg_from s).1) +
       ((seg_to s).2 - (seg_from s).2) * ((seg_to s).2 - (seg_from s).2)) ->
  seg_param s p = t.
Proof.
  intros Ht Hnz E. unfold seg_param. cbv zeta.
  set (dx := (seg_to s).1 - (seg_from s).1) in *.
  set (dy := (seg_to s).2 - (seg_from s).2) in *.
  assert (Hd2 : 0 < dx * dx + dy * dy) by (destruct Hnz; nra).
  destruct (Req_dec_T (dx * dx + dy * dy) 0) as [E0|_]; [lra |].
  rewrite E. replace (t * (dx * dx + dy * dy) / (dx * dx + dy * dy)) with t
    by (field; lra).
  rewrite Rmin_right by lra. rewrite Rmax_right by lra. done.
Qed.

(** C3 (as stated) fails for the default margin: a vehicle at (5, 1.5),
    strictly inside the segment from (0, 0) to (10, 0) and closer to it
    than 2, does not make the pair OLOS, since the default margin is 1. *)
Lemma veh_cons_are_olos_default_margin_is_not_two :
  ~ (veh_cons_are_olos (0, 0) [(10, 0); (5, 3 / 2)] margin_default !! 0%nat
       = Some true <->
     exists point j other,
       [(10, 0); (5, 3 / 2)] !! 0%nat = Some point /\
       j <> 0%nat /\ [(10, 0); (5, 3 / 2)] !! j = Some other /\
       0 < line_project (mkSegment (0, 0) point) other
         < line_length (mkSegment (0, 0) point) /\
       line_distance (mkSegment (0, 0) point) other < 2).
Proof.
  assert (Hpar : seg_param (mkSegment (0, 0) (10, 0)) (5, 3 / 2) = 1 / 2).
  { apply seg_param_inside; simpl; lra. }
  assert (Hlen : seg_length (mkSegment (0, 0) (10, 0)) = 10).
  { apply euclid_sq; simpl; lra. }
  assert (Hdist : seg_distance (mkSegment (0, 0) (10, 0)) (5, 3 / 2) = 3 / 2).
  { unfold seg_distance. rewrite Hpar. apply euclid_sq; simpl; lra. }
  intros [_ Hback].
  assert (Hcode : veh_cons_are_olos (0, 0) [(10, 0); (5, 3 / 2)]
                    margin_default !! 0%nat = Some false).
  { unfold veh_cons_are_olos, margin_default; simpl.
    unfold seg_project. rewrite Hpar, Hlen, Hdist.
    replace (Rltb (3 / 2) 1) with false
      by (symmetry; apply Rltb_false; lra).
    by rewrite andb_false_r. }
  rewrite Hcode in Hback. enough (Some false = Some true) by done.
  apply Hback. exists (10, 0), 1%nat, (5, 3 / 2).
  repeat split; try done; simpl; unfold seg_project;
    rewrite ?Hpar, ?Hlen, ?Hdist; lra.
Qed.

(** With the margin [main_test] passes, the same pair is OLOS. *)
Example veh_cons_are_olos_main_test_margin :
  veh_cons_are_olos (0, 0) [(10, 0); (5, 3 / 2)] margin_main_test !! 0%nat
  = Some true.
Proof.
  assert (Hpar : seg_param (mkSegment (0, 0) (10, 0)) (5, 3 / 2) = 1 / 2).
  { apply seg_param_inside; simpl; lra. }
  assert (Hlen : seg_length (mkSegment (0, 0) (10, 0)) = 10).
  { apply euclid_sq; simpl; lra. }
  assert (Hdist : seg_distance (mkSegment (0, 0) (10, 0)) (5, 3 / 2) = 3 / 2).
  { unfold seg_distance. rewrite Hpar. apply euclid_sq; simpl; lra. }
  unfold veh_cons_are_olos, margin_main_test; simpl.
  unfold seg_project. rewrite Hpar, Hlen, Hdist.
  replace (Rgtb (1 / 2 * 10) 0) with true by (symmetry; apply Rgtb_true; lra).
  replace (Rltb (1 / 2 * 10) 10) with true by (symmetry; apply Rltb_true; lra).
  replace (Rltb (3 / 2) 2) with true by (symmetry; apply Rltb_true; lra).
  reflexivity.
Qed.

(** ** Splitting a street at a point *)

Section SplitLineFacts.
Context {Geom Poly : Type}.
Variable distance : Geom -> Point -> R.
Variable buffer : Point -> R -> Poly.
Variable split : Geom -> Poly -> list Geom.

(** The guard raises [ValueError] exactly beyond the tolerance. *)
Lemma split_line_at_point_value_error (line : Geom) (point : Point) :
  split_line_at_point distance buffer split line point = Raise ValueError <->
  distance line point > 1e-8.
Proof.
  unfold split_line_at_point.
  destruct (Rgtb (distance line point) 1e-8) eqn:E.
  - apply Rgtb_true in E. done.
  - apply Rgtb_false in E. split; [| done].
    destruct (split _ _ !! 0%nat), (split _ _ !! 2%nat); simpl; done.
Qed.

(** The call raises exactly when the point is beyond the tolerance or the
    split has fewer than three pieces; otherwise it returns pieces 0
    and 2. *)
Lemma split_line_at_point_raises_iff (line : Geom) (point : Point) :
  raises (split_line_at_point distance buffer split line point) <->
  distance line point > 1e-8 \/
  (length (split line (buffer point 1e-8)) < 3)%nat.
Proof.
  unfold split_line_at_point, raises.
  destruct (Rgtb (distance line point) 1e-8) eqn:E.
  - apply Rgtb_true in E. split; [by left | by exists ValueError].
  - apply Rgtb_false in E.
    destruct (split line (buffer point 1e-8)) as [|l0 [|l1 [|l2 ls]]]; simpl.
    + split; [right; lia | by exists IndexError].
    + split; [right; lia | by exists IndexError].
    + split; [right; lia | by exists IndexError].
    + split; [by intros [e ?] | intros [? | ?]; [done | lia]].
Qed.

Lemma split_line_at_point_ok (line : Geom) (point : Point)
    (before after : Geom) :
  split_line_at_point distance buffer split line point = Ok (before, after) <->
  ~ distance line point > 1e-8 /\
  split line (buffer point 1e-8) !! 0%nat = Some before /\
  split line (buffer point 1e-8) !! 2%nat = Some after.
Proof.
  unfold split_line_at_point.
  destruct (Rgtb (distance line point) 1e-8) eqn:E.
  - apply Rgtb_true in E. split; [done | by intros [? _]].
  - apply Rgtb_false in E.
    destruct (split _ _ !! 0%nat) as [b|], (split _ _ !! 2%nat) as [a|];
      simpl; split; try done; try (by intros (_ & ? & ?)).
    + intros [= -> ->]. done.
    + intros (_ & [= ->] & [= ->]). done.
Qed.
End SplitLineFacts.

(** The street from (0, 0) to (1, 0) and a disk centred on its line: the
    boundary meets the line at [c - r] and [c + r]. *)
Lemma seg_split_disk_unit (c r : R) :
  0 < r ->
  seg_split_disk (mkSegment (0, 0) (1, 0)) (disk_buffer (c, 0) r) =
  cut_from (mkSegment (0, 0) (1, 0)) (0, 0)
    ((if Rltb 0 (c - r) && Rltb (c - r) 1 then [c - r] else []) ++
     (if Rltb 0 (c + r) && Rltb (c + r) 1 && Rltb (c - r) (c + r)
      then [c + r] else [])).
Proof.
  intros Hr.
  unfold seg_split_disk, disk_buffer. cbv zeta. simpl fst. simpl snd.
  simpl seg_from. simpl seg_to. simpl fst. simpl snd.
  set (disc := _ - 4 * _ * _).
  assert (Hdisc : disc = (2 * r) * (2 * r)) by (unfold disc; lra).
  rewrite Hdisc. rewrite sqrt_square by lra.
  destruct (Req_dec_T _ 0) as [E|_]; [lra |].
  destruct (Rlt_dec _ 0) as [E|_]; [nra |].
  replace ((- (2 * ((0 - c) * (1 - 0) + (0 - 0) * (0 - 0))) - 2 * r)
           / (2 * ((1 - 0) * (1 - 0) + (0 - 0) * (0 - 0))))
    with (c - r) by lra.
  replace ((- (2 * ((0 - c) * (1 - 0) + (0 - 0) * (0 - 0))) + 2 * r)
           / (2 * ((1 - 0) * (1 - 0) + (0 - 0) * (0 - 0))))
    with (c + r) by lra.
  reflexivity.
Qed.

Lemma seg_distance_unit (c : R) :
  0 <= c <= 1 -> seg_distance (mkSegment (0, 0) (1, 0)) (c, 0) = 0.
Proof.
  intros Hc.
  assert (Hpar : seg_param (mkSegment (0, 0) (1, 0)) (c, 0) = c).
  { apply seg_param_inside; simpl; lra. }
  unfold seg_distance. rewrite Hpar. apply euclid_sq; simpl; lra.
Qed.

Ltac decide_Rb :=
  repeat match goal with
  | |- context [Rltb ?a ?b] =>
      first
        [ replace (Rltb a b) with true by (symmetry; apply Rltb_true; lra)
        | replace (Rltb a b) with false by (symmetry; apply Rltb_false; lra) ]
  | |- context [Rgtb ?a ?b] =>
      first
        [ replace (Rgtb a b) with true by (symmetry; apply Rgtb_true; lra)
        | replace (Rgtb a b) with false by (symmetry; apply Rgtb_false; lra) ]
  end.

(** Away from the ends the split has three pieces and the call returns
    the outer two: the street less the part inside the disk. *)
Lemma split_line_at_point_inside (c : R) :
  1e-8 < c < 1 - 1e-8 ->
  split_line_at_point seg_distance disk_buffer seg_split_disk
    (mkSegment (0, 0) (1, 0)) (c, 0) =
  Ok (mkSegment (0, 0) (seg_at (mkSegment (0, 0) (1, 0)) (c - 1e-8)),
      mkSegment (seg_at (mkSegment (0, 0) (1, 0)) (c + 1e-8)) (1, 0)).
Proof.
  intros Hc. unfold split_line_at_point. rewrite seg_distance_unit by lra.
  rewrite seg_split_disk_unit by lra. decide_Rb. reflexivity.
Qed.

(** Within the tolerance of the start the disk cuts the street once. *)
Lemma split_line_at_point_near_start (c : R) :
  0 <= c <= 1e-8 ->
  split_line_at_point seg_distance disk_buffer seg_split_disk
    (mkSegment (0, 0) (1, 0)) (c, 0) = Raise IndexError.
Proof.
  intros Hc. unfold split_line_at_point. rewrite seg_distance_unit by lra.
  rewrite seg_split_disk_unit by lra. decide_Rb. reflexivity.
Qed.

(** C4 at a failing input: the start of the street from (0, 0) to (1, 0)
    is on the street (distance 0), the disk around it cuts the street
    once, and picking piece 2 of the two pieces raises [IndexError]. *)
Theorem split_line_at_point_at_start_raises :
  seg_distance (mkSegment (0, 0) (1, 0)) (0, 0) = 0 /\
  split_line_at_point seg_distance disk_buffer seg_split_disk
    (mkSegment (0, 0) (1, 0)) (0, 0) = Raise IndexError.
Proof.
  assert (Hdist := seg_distance_unit 0). split; [apply Hdist; lra |].
  unfold split_line_at_point. rewrite Hdist by lra.
  rewrite seg_split_disk_unit by lra. decide_Rb. reflexivity.
Qed.

(** C5 at a failing input: at the end (1, 0) of the same street, a point
    of the street, the split raises, so there are no two parts to merge
    back into the street. *)
Theorem split_line_at_point_at_end_raises :
  seg_distance (mkSegment (0, 0) (1, 0)) (1, 0) = 0 /\
  split_line_at_point seg_distance disk_buffer seg_split_disk
    (mkSegment (0, 0) (1, 0)) (1, 0) = Raise IndexError.
Proof.
  assert (Hdist := seg_distance_unit 1). split; [apply Hdist; lra |].
  unfold split_line_at_point. rewrite Hdist by lra.
  rewrite seg_split_disk_unit by lra. decide_Rb. reflexivity.
Qed.

(** ** Turn angles along a route *)

Lemma turn_from_turn_angles (p q : Point) (rest : list Point) :
  turn_from (np_arctan2 (q.1 - p.1) (q.2 - p.2)) q rest =
  turn_angles (p :: q :: rest).
Proof.
  revert p q. induction rest as [|r rest IH]; intros p q; [done |].
  simpl. f_equal. apply IH.
Qed.

Lemma turn_angles_length (coords : LineString) :
  length (turn_angles coords) = (length coords - 2)%nat.
Proof.
  induction coords as [|p [|q [|r rest]] IH]; try done.
  change (turn_angles (p :: q :: r :: rest))
    with (turn_angle p q r :: turn_angles (q :: r :: rest)).
  simpl length in *. lia.
Qed.

Lemma angles_loop_spec (coords : LineString) (rest : list Point) :
  forall (index : nat) (p : Point) (angle_prev : R) (angles : list R),
    (0 < index)%nat ->
    drop index coords = p :: rest ->
    (index - 1 + length rest <= length angles)%nat ->
    angles_loop coords index rest angle_prev angles =
    Ok (take (index - 1) angles ++ turn_from angle_prev p rest ++
        drop (index - 1 + length rest) angles).
Proof.
  induction rest as [|c rest IH]; intros index p angle_prev angles Hi Hd Hl.
  - simpl. rewrite Nat.add_0_r. by rewrite take_drop.
  - simpl angles_loop.
    assert (Hp : coords !! index = Some p).
    { pose proof (lookup_drop coords index 0) as H.
      rewrite Hd, Nat.add_0_r in H. done. }
    rewrite Hp. simpl.
    destruct (decide (index = 0%nat)) as [->|_]; [lia |].
    simpl in Hl.
    assert (Hd' : drop (S index) coords = c :: rest).
    { replace (S index) with (index + 1)%nat by lia.
      rewrite <- drop_drop, Hd. done. }
    set (angle := np_arctan2 (c.1 - p.1) (c.2 - p.2)).
    set (v := if Rlt_dec (angle - angle_prev) PI
              then angle - angle_prev + PI else angle - angle_prev - PI).
    assert (Hset : (if Rlt_dec (angle - angle_prev) PI
                    then array_set angles (index - 1) (angle - angle_prev + PI)
                    else array_set angles (index - 1) (angle - angle_prev - PI))
                   = Ok (<[(index - 1)%nat := v]> angles)).
    { unfold v, array_set.
      destruct (Rlt_dec _ PI); (destruct (decide _); [done | lia]). }
    rewrite Hset. simpl.
    rewrite (IH (S index) c angle (<[(index - 1)%nat := v]> angles));
      [| lia | done | rewrite length_insert; lia].
    f_equal. simpl turn_from. fold angle. fold v.
    replace (S index - 1)%nat with (S (index - 1)) by lia.
    rewrite (take_S_r _ _ v)
      by (apply list_lookup_insert_eq; lia).
    rewrite take_insert_ge by lia.
    rewrite <- app_assoc. simpl. do 2 f_equal.
    rewrite drop_insert_lt by lia.
    by rewrite Nat.add_succ_r.
Qed.

Lemma np_zeros_ok (n : nat) :
  (2 <= n)%nat -> np_zeros (Z.of_nat n - 2) = Ok (replicate (n - 2) 0).
Proof.
  intros Hn. unfold np_zeros.
  destruct (Z.ltb_spec (Z.of_nat n - 2) 0) as [H|_]; [lia |].
  do 2 f_equal. lia.
Qed.

Lemma np_zeros_negative (n : nat) :
  (n < 2)%nat -> np_zeros (Z.of_nat n - 2) = Raise ValueError.
Proof.
  intros Hn. unfold np_zeros.
  destruct (Z.ltb_spec (Z.of_nat n - 2) 0) as [_|H]; [done | lia].
Qed.

Lemma angles_loop_first (p q : Point) (rest : list Point) (a0 : R)
    (angles : list R) :
  angles_loop (p :: q :: rest) 0 (q :: rest) a0 angles =
  angles_loop (p :: q :: rest) 1 rest
    (np_arctan2 (q.1 - p.1) (q.2 - p.2)) angles.
Proof. reflexivity. Qed.

Lemma angles_along_line_spec (coords : LineString) :
  (2 <= length coords)%nat ->
  angles_along_line (GLineString coords) = Ok (turn_angles coords).
Proof.
  intros Hlen. unfold angles_along_line.
  change (geom_coords (GLineString coords)) with (Ok coords).
  change (Ok coords ≫= ?f) with (f coords). cbv beta.
  rewrite np_zeros_ok by done.
  change (Ok ?a ≫= ?f) with (f a). cbv beta.
  destruct coords as [|p [|q rest]]; simpl in Hlen; try lia.
  change (drop 1 (p :: q :: rest)) with (q :: rest).
  rewrite angles_loop_first.
  rewrite (angles_loop_spec _ rest 1 q); [| lia | done |].
  - change (1 - 1)%nat with 0%nat. rewrite take_0. simpl app.
    rewrite drop_ge by (rewrite length_replicate; simpl; lia).
    rewrite app_nil_r. f_equal. apply turn_from_turn_angles.
  - rewrite length_replicate. simpl. lia.
Qed.

Lemma angles_along_line_short (coords : LineString) :
  (length coords < 2)%nat ->
  angles_along_line (GLineString coords) = Raise ValueError.
Proof.
  intros Hlen. unfold angles_along_line.
  change (geom_coords (GLineString coords)) with (Ok coords).
  change (Ok coords ≫= ?f) with (f coords). cbv beta.
  by rewrite np_zeros_negative.
Qed.

Lemma argmax_from_lt (l : list R) :
  forall (best_i : nat) (best : R) (i : nat),
    (best_i < i)%nat -> (argmax_from best_i best i l < i + length l)%nat.
Proof.
  induction l as [|v l IH]; intros best_i best i Hi; simpl; [lia |].
  destruct (Rgtb v best).
  - specialize (IH i v (S i)). lia.
  - specialize (IH best_i best (S i)). lia.
Qed.

Lemma np_argmax_ok (l : list R) :
  l <> [] -> exists i, np_argmax l = Ok i /\ (i < length l)%nat.
Proof.
  destruct l as [|v l]; [done |]. intros _. eexists. split; [done |].
  pose proof (argmax_from_lt l 0 v 1). simpl. lia.
Qed.

(** ** One pair of the orthogonality analyzer *)

Lemma cons_orthogonal_route_ok (coords : LineString) (max_angle : R) :
  (3 <= length coords)%nat ->
  exists relay,
    relay ∈ coords /\
    cons_orthogonal_route (GLineString coords) max_angle =
    Ok (if Rlt_dec (turn_sum coords) max_angle then true else false, relay).
Proof.
  intros Hlen. unfold cons_orthogonal_route.
  rewrite angles_along_line_spec by lia.
  change (Ok ?a ≫= ?f) with (f a). cbv beta zeta.
  destruct (np_argmax_ok (wrap_contributions (turn_angles coords)))
    as (i & Hi & Hlt).
  { intros E. apply (f_equal length) in E.
    unfold wrap_contributions in E.
    rewrite length_fmap, turn_angles_length in E. simpl in E. lia. }
  rewrite Hi. change (Ok ?a ≫= ?f) with (f a). cbv beta.
  change (geom_coords (GLineString coords)) with (Ok coords).
  change (Ok ?a ≫= ?f) with (f a). cbv beta.
  unfold wrap_contributions in Hlt.
  rewrite length_fmap, turn_angles_length in Hlt.
  destruct (lookup_lt_is_Some_2 coords (i + 1)) as [relay Hrelay]; [lia |].
  rewrite Hrelay. exists relay. split; [| done].
  apply list_elem_of_lookup. by exists (i + 1)%nat.
Qed.

Lemma cons_orthogonal_route_short (coords : LineString) (max_angle : R) :
  (length coords < 3)%nat ->
  cons_orthogonal_route (GLineString coords) max_angle = Raise ValueError.
Proof.
  intros Hlen. unfold cons_orthogonal_route.
  destruct (decide (length coords < 2)%nat) as [Hlt|Hge].
  - by rewrite angles_along_line_short.
  - rewrite angles_along_line_spec by lia.
    change (Ok ?a ≫= ?f) with (f a). cbv beta zeta.
    assert (E : turn_angles coords = []).
    { apply length_zero_iff_nil. rewrite turn_angles_length. lia. }
    rewrite E. done.
Qed.

(** A route of two vertices has no turn angle: the sum is 0 and the test
    against any positive maximum succeeds. *)
Lemma turn_sum_short (coords : LineString) :
  (length coords < 3)%nat -> turn_sum coords = 0.
Proof.
  intros Hlen. unfold turn_sum.
  assert (E : turn_angles coords = []).
  { apply length_zero_iff_nil. rewrite turn_angles_length. lia. }
  rewrite E. done.
Qed.

(** A row is produced for single lines of at least three vertices only,
    and its flag is the comparison of the sum of the contributions with
    [max_angle]. *)
Lemma cons_orthogonal_route_inv (route : Geometry) (max_angle : R)
    (row : bool * Point) :
  cons_orthogonal_route route max_angle = Ok row ->
  exists coords,
    route = GLineString coords /\ (3 <= length coords)%nat /\
    row.1 =
    if Rlt_dec
         (py_sum ((fun angle => PI - Rabs (wrap_to_pi angle))
                    <$> turn_angles coords)) max_angle
    then true else false.
Proof.
  destruct route as [coords|parts]; [| done].
  intros Hrow. exists coords. split; [done |].
  destruct (decide (3 <= length coords)%nat) as [Hlen|Hlen].
  - split; [done |].
    destruct (cons_orthogonal_route_ok coords max_angle Hlen)
      as (relay & _ & Hok).
    rewrite Hok in Hrow. injection Hrow as <-. reflexivity.
  - rewrite cons_orthogonal_route_short in Hrow by lia. done.
Qed.

(** ** The analyzer over the store *)

Lemma M_bind_unfold {S A B} (m : M S A) (f : A -> M S B) (s : S) :
  (m ≫= f) s =
  match m s with
  | (Ok a, s') => f a s'
  | (Raise e, s') => (Raise e, s')
  end.
Proof. reflexivity. Qed.

Lemma load_run (l : loc) (s : store) :
  load l s = (of_option Dangling (s !! l), s).
Proof. reflexivity. Qed.

Lemma lift_run {S A} (r : result A) (s : S) : lift r s = (r, s).
Proof. reflexivity. Qed.

Section AnalyzerFacts.
Variable nx_compose : MultiGraph -> MultiGraph -> MultiGraph.
Variable nx_shortest_path : MultiGraph -> Node -> Node -> result (list Node).
Variable linemerge : list LineString -> Geometry.

Local Abbreviation compose' := (compose nx_compose).
Local Abbreviation cons_orthogonal_loop' :=
  (cons_orthogonal_loop nx_compose nx_shortest_path linemerge).
Local Abbreviation check_if_cons_orthogonal' :=
  (check_if_cons_orthogonal nx_compose nx_shortest_path linemerge).
Local Abbreviation line_route_between_nodes' :=
  (line_route_between_nodes nx_shortest_path linemerge).
Local Abbreviation pair_row' :=
  (pair_row nx_compose nx_shortest_path linemerge).

Lemma compose_run (G H : loc) (s : store) :
  compose' G H s =
  match s !! G, s !! H with
  | Some g, Some h => (Ok (length s), s ++ [nx_compose g h])
  | _, _ => (Raise Dangling, s)
  end.
Proof.
  unfold compose. rewrite M_bind_unfold, load_run.
  destruct (s !! G) as [g|]; simpl; [| done].
  rewrite M_bind_unfold, load_run.
  destruct (s !! H) as [h|]; simpl; done.
Qed.

(** One iteration: it raises what the pair's row raises, or goes on with
    the row written and one more graph in the store. *)
Lemma cons_orthogonal_loop_step (node_own : Node) (sl : loc) (max_angle : R)
    (index : nat) (graph : loc) (graphs : list loc) (is_orthogonal : list bool)
    (coords_max_angle : list Point) (s : store) (g local : MultiGraph) :
  s !! graph = Some g -> s !! sl = Some local ->
  (index < length is_orthogonal)%nat ->
  (index < length coords_max_angle)%nat ->
  match pair_row' node_own local max_angle g with
  | Ok row =>
      cons_orthogonal_loop' node_own sl max_angle index (graph :: graphs)
        is_orthogonal coords_max_angle s =
      cons_orthogonal_loop' node_own sl max_angle (S index) graphs
        (<[index := row.1]> is_orthogonal)
        (<[index := row.2]> coords_max_angle) (s ++ [nx_compose g local])
  | Raise e =>
      exists ext,
        cons_orthogonal_loop' node_own sl max_angle index (graph :: graphs)
          is_orthogonal coords_max_angle s = (Raise e, s ++ ext)
  end.
Proof.
  intros Hg Hl Hio Hcma. unfold pair_row. simpl.
  rewrite M_bind_unfold, load_run, Hg. simpl of_option. cbv iota beta.
  rewrite M_bind_unfold, lift_run.
  destruct (graph_node_veh g) as [node_v|]; simpl of_option;
    [| exists []; by rewrite app_nil_r].
  change (Ok node_v ≫= ?f) with (f node_v). cbv iota beta.
  rewrite M_bind_unfold, compose_run, Hg, Hl.
  cbv iota beta.
  rewrite M_bind_unfold, load_run.
  rewrite lookup_app_r by lia. rewrite Nat.sub_diag. simpl of_option.
  cbv iota beta. rewrite M_bind_unfold, lift_run.
  destruct (line_route_between_nodes' node_own node_v (nx_compose g local))
    as [route|e]; [| by eexists].
  change (Ok route ≫= ?f) with (f route). cbv iota beta.
  rewrite M_bind_unfold, lift_run.
  destruct (cons_orthogonal_route route max_angle) as [row|e]; [| by eexists].
  cbv iota beta. rewrite M_bind_unfold, lift_run. unfold array_set at 1.
  destruct (decide (index < length is_orthogonal)%nat); [| lia].
  cbv iota beta. rewrite M_bind_unfold, lift_run. unfold array_set at 1.
  destruct (decide (index < length coords_max_angle)%nat); [| lia].
  reflexivity.
Qed.

(** The store only grows: whatever the outcome, the graphs that were
    there are there, unchanged. *)
Lemma cons_orthogonal_loop_grows (node_own : Node) (sl : loc) (max_angle : R)
    (graphs : list loc) :
  forall (index : nat) (is_orthogonal : list bool)
    (coords_max_angle : list Point) (s : store),
    (index + length graphs <= length is_orthogonal)%nat ->
    (index + length graphs <= length coords_max_angle)%nat ->
    exists ext,
      (cons_orthogonal_loop' node_own sl max_angle index graphs
         is_orthogonal coords_max_angle s).2 = s ++ ext.
Proof.
  induction graphs as [|graph graphs IH]; intros index io cma s Hio Hcma.
  - exists []. by rewrite app_nil_r.
  - destruct (s !! graph) as [g|] eqn:Hg.
    + destruct (s !! sl) as [local|] eqn:Hl.
      * simpl in Hio, Hcma.
        pose proof (cons_orthogonal_loop_step node_own sl max_angle index
                      graph graphs io cma s g local Hg Hl
                      ltac:(lia) ltac:(lia)) as Hstep.
        destruct (pair_row' node_own local max_angle g) as [row|e].
        -- rewrite Hstep.
           destruct (IH (S index) (<[index := row.1]> io)
                       (<[index := row.2]> cma)
                       (s ++ [nx_compose g local])) as [ext Hext].
           { rewrite length_insert. lia. }
           { rewrite length_insert. lia. }
           exists ([nx_compose g local] ++ ext).
           by rewrite Hext, app_assoc.
        -- destruct Hstep as [ext ->]. by exists ext.
      * exists []. rewrite app_nil_r.
        simpl.
        rewrite M_bind_unfold, load_run, Hg. simpl of_option.
        cbv iota beta. rewrite M_bind_unfold, lift_run.
        destruct (graph_node_veh g) as [node_v|]; simpl of_option; [| done].
        change (Ok node_v ≫= ?f) with (f node_v). cbv iota beta.
        rewrite M_bind_unfold, compose_run, Hg, Hl.
        done.
    + exists []. rewrite app_nil_r.
      simpl.
      by rewrite M_bind_unfold, load_run, Hg.
Qed.

(** A pair whose row raises makes the loop raise. *)
Lemma cons_orthogonal_loop_raises (node_own : Node) (sl : loc) (max_angle : R)
    (local : MultiGraph) (graphs : list loc) :
  forall (index : nat) (is_orthogonal : list bool)
    (coords_max_angle : list Point) (s : store) (i : nat) (ref : loc)
    (g : MultiGraph),
    (index + length graphs <= length is_orthogonal)%nat ->
    (index + length graphs <= length coords_max_angle)%nat ->
    s !! sl = Some local ->
    graphs !! i = Some ref -> s !! ref = Some g ->
    raises (pair_row' node_own local max_angle g) ->
    raises (cons_orthogonal_loop' node_own sl max_angle index graphs
              is_orthogonal coords_max_angle s).1.
Proof.
  induction graphs as [|graph graphs IH];
    intros index io cma s i ref g Hio Hcma Hl Hi Hg Hrow; [done |].
  simpl in Hio, Hcma.
  destruct (s !! graph) as [g0|] eqn:Hg0.
  - pose proof (cons_orthogonal_loop_step node_own sl max_angle index
                  graph graphs io cma s g0 local Hg0 Hl
                  ltac:(lia) ltac:(lia)) as Hstep.
    destruct (pair_row' node_own local max_angle g0) as [row|e] eqn:Hrow0.
    + destruct i as [|i]; simpl in Hi.
      * injection Hi as ->. rewrite Hg in Hg0. injection Hg0 as ->.
        rewrite Hrow0 in Hrow. by destruct Hrow.
      * rewrite Hstep. apply (IH _ _ _ _ i ref g); try done.
        -- rewrite length_insert. lia.
        -- rewrite length_insert. lia.
        -- by apply lookup_app_l_Some.
        -- by apply lookup_app_l_Some.
    + destruct Hstep as [ext ->]. by exists e.
  - exists Dangling.
    simpl.
    by rewrite M_bind_unfold, load_run, Hg0.
Qed.

(** When every pair has a row, the loop returns and slot [index + i] of
    [is_orthogonal] holds the flag of pair [i]. *)
Lemma cons_orthogonal_loop_ok (node_own : Node) (sl : loc) (max_angle : R)
    (local : MultiGraph) (graphs : list loc) :
  forall (index : nat) (is_orthogonal : list bool)
    (coords_max_angle : list Point) (s : store),
    (index + length graphs <= length is_orthogonal)%nat ->
    (index + length graphs <= length coords_max_angle)%nat ->
    s !! sl = Some local ->
    (forall i ref, graphs !! i = Some ref ->
       exists g row, s !! ref = Some g /\
                     pair_row' node_own local max_angle g = Ok row) ->
    exists is_orthogonal' coords_max_angle' s',
      cons_orthogonal_loop' node_own sl max_angle index graphs
        is_orthogonal coords_max_angle s =
      (Ok (is_orthogonal', coords_max_angle'), s') /\
      length is_orthogonal' = length is_orthogonal /\
      (forall j, (j < index)%nat -> is_orthogonal' !! j = is_orthogonal !! j) /\
      (forall i ref g row,
         graphs !! i = Some ref -> s !! ref = Some g ->
         pair_row' node_own local max_angle g = Ok row ->
         (index + i < length is_orthogonal)%nat ->
         is_orthogonal' !! (index + i)%nat = Some row.1).
Proof.
  induction graphs as [|graph graphs IH];
    intros index io cma s Hio Hcma Hl Hall.
  - exists io, cma, s. repeat split; done.
  - simpl in Hio, Hcma.
    destruct (Hall 0%nat graph eq_refl) as (g & row & Hg & Hrow).
    pose proof (cons_orthogonal_loop_step node_own sl max_angle index
                  graph graphs io cma s g local Hg Hl
                  ltac:(lia) ltac:(lia)) as Hstep.
    rewrite Hrow in Hstep.
    destruct (IH (S index) (<[index := row.1]> io) (<[index := row.2]> cma)
                (s ++ [nx_compose g local]))
      as (io' & cma' & s' & Hrun & Hlen & Hlow & Hset).
    { rewrite length_insert. lia. }
    { rewrite length_insert. lia. }
    { by apply lookup_app_l_Some. }
    { intros i ref Hi. destruct (Hall (S i) ref Hi) as (g' & row' & Hg' & Hr').
      exists g', row'. split; [by apply lookup_app_l_Some | done]. }
    exists io', cma', s'. split; [by rewrite Hstep |].
    split; [by rewrite Hlen, length_insert |]. split.
    + intros j Hj. rewrite Hlow by lia. apply list_lookup_insert_ne. lia.
    + intros i ref g' row' Hi Hg' Hrow' Hbound. destruct i as [|i].
      * simpl in Hi. injection Hi as <-. rewrite Hg in Hg'.
        injection Hg' as <-. rewrite Hrow in Hrow'. injection Hrow' as <-.
        rewrite Nat.add_0_r. rewrite Hlow by lia.
        apply list_lookup_insert_eq. lia.
      * replace (index + S i)%nat with (S index + i)%nat by lia.
        apply (Hset i ref g' row'); try done.
        -- by apply lookup_app_l_Some.
        -- rewrite length_insert. lia.
Qed.

(** A loop that returns has produced a row for every pair, and the flag
    it returns for a pair is the flag of that row. *)
Lemma cons_orthogonal_loop_inv (node_own : Node) (sl : loc) (max_angle : R)
    (local : MultiGraph) (graphs : list loc) :
  forall (index : nat) (is_orthogonal : list bool)
    (coords_max_angle : list Point) (s : store) io cma s',
    (index + length graphs <= length is_orthogonal)%nat ->
    (index + length graphs <= length coords_max_angle)%nat ->
    s !! sl = Some local ->
    cons_orthogonal_loop' node_own sl max_angle index graphs
      is_orthogonal coords_max_angle s = (Ok (io, cma), s') ->
    (forall j, (j < index)%nat -> io !! j = is_orthogonal !! j) /\
    (forall i ref g,
       graphs !! i = Some ref -> s !! ref = Some g ->
       exists row,
         pair_row' node_own local max_angle g = Ok row /\
         io !! (index + i)%nat = Some row.1).
Proof.
  induction graphs as [|graph graphs IH];
    intros index io0 cma0 s io cma s' Hio Hcma Hsl Hrun.
  - injection Hrun as <- <- <-. split; [done |]. intros i ref g Hi. done.
  - simpl in Hio, Hcma.
    destruct (s !! graph) as [g0|] eqn:Hg0.
    2: { exfalso. simpl in Hrun.
         by rewrite M_bind_unfold, load_run, Hg0 in Hrun. }
    pose proof (cons_orthogonal_loop_step node_own sl max_angle index graph
                  graphs io0 cma0 s g0 local Hg0 Hsl ltac:(lia) ltac:(lia))
      as Hstep.
    destruct (pair_row' node_own local max_angle g0) as [row0|e] eqn:Hrow0.
    2: { destruct Hstep as [ext Hstep]. rewrite Hstep in Hrun. done. }
    rewrite Hstep in Hrun.
    apply IH in Hrun as [Hkeep Hrows].
    2: { rewrite length_insert. lia. }
    2: { rewrite length_insert. lia. }
    2: { by apply lookup_app_l_Some. }
    split.
    + intros j Hj. rewrite Hkeep by lia.
      apply list_lookup_insert_ne. lia.
    + intros i ref g Hi Hg. destruct i as [|i].
      * injection Hi as <-. rewrite Hg0 in Hg. injection Hg as <-.
        exists row0. split; [done |].
        rewrite Nat.add_0_r, Hkeep by lia.
        apply list_lookup_insert_eq. lia.
      * simpl in Hi.
        destruct (Hrows i ref g Hi (lookup_app_l_Some _ _ _ _ Hg))
          as (row & Hrow & Hflag).
        exists row. split; [done |].
        by replace (index + S i)%nat with (S index + i)%nat by lia.
Qed.

Lemma check_if_cons_orthogonal_run (streets_wave graph_veh_own : loc)
    (graphs_veh_other : list loc) (max_angle : R) (s : store)
    (g_own g_streets : MultiGraph) (node_own : Node) :
  s !! graph_veh_own = Some g_own -> s !! streets_wave = Some g_streets ->
  graph_node_veh g_own = Some node_own ->
  check_if_cons_orthogonal' streets_wave graph_veh_own graphs_veh_other
    max_angle s =
  cons_orthogonal_loop' node_own (length s) max_angle 0 graphs_veh_other
    (replicate (length graphs_veh_other) false)
    (replicate (length graphs_veh_other) (0, 0))
    (s ++ [nx_compose g_own g_streets]).
Proof.
  intros Hown Hst Hnode.
  unfold check_if_cons_orthogonal.
  rewrite M_bind_unfold, load_run, Hown. simpl of_option. cbv iota beta.
  rewrite M_bind_unfold, lift_run, Hnode. simpl of_option. cbv iota beta.
  rewrite M_bind_unfold, compose_run, Hown, Hst.
  reflexivity.
Qed.

Lemma pair_row_route (node_own : Node) (g_own g_streets g : MultiGraph)
    (max_angle : R) :
  pair_row' node_own (nx_compose g_own g_streets) max_angle g =
  (pair_route nx_compose nx_shortest_path linemerge node_own g_own g_streets g
     ≫= fun route => cons_orthogonal_route route max_angle).
Proof.
  unfold pair_row, pair_route. by destruct (graph_node_veh g).
Qed.

(** C1 at its failing inputs: a pair whose merged shortest route has
    fewer than three vertices has turn-angle sum 0, yet the call raises
    (at the latest when it looks for the largest entry of the empty array
    of turn contributions) and returns no classification. *)
Theorem check_if_cons_orthogonal_short_route_raises
    (streets_wave graph_veh_own : loc) (graphs_veh_other : list loc)
    (max_angle : R) (s : store) (g_own g_streets : MultiGraph)
    (node_own : Node) (i : nat) (ref : loc) (g : MultiGraph)
    (coords : LineString) :
  s !! graph_veh_own = Some g_own -> s !! streets_wave = Some g_streets ->
  graph_node_veh g_own = Some node_own ->
  graphs_veh_other !! i = Some ref -> s !! ref = Some g ->
  pair_route nx_compose nx_shortest_path linemerge node_own g_own g_streets g
    = Ok (GLineString coords) ->
  (length coords < 3)%nat ->
  turn_sum coords = 0 /\
  raises (check_if_cons_orthogonal' streets_wave graph_veh_own
            graphs_veh_other max_angle s).1.
Proof.
  intros Hown Hst Hnode Hi Hg Hroute Hlen.
  split; [by apply turn_sum_short |].
  rewrite (check_if_cons_orthogonal_run _ _ _ _ _ _ _ _ Hown Hst Hnode).
  apply (cons_orthogonal_loop_raises node_own (length s) max_angle
           (nx_compose g_own g_streets) graphs_veh_other _ _ _ _ i ref g).
  - by rewrite length_replicate.
  - by rewrite length_replicate.
  - rewrite lookup_app_r by lia. by rewrite Nat.sub_diag.
  - done.
  - by apply lookup_app_l_Some.
  - rewrite pair_row_route, Hroute.
    change (Ok ?a ≫= ?f) with (f a). cbv beta.
    rewrite cons_orthogonal_route_short by done. by exists ValueError.
Qed.

(** C2: a flag the call returns is [True] exactly when the sum, over
    the interior vertices of the pair's shortest route, of [PI] minus
    the magnitude of the wrapped turn angle is strictly below
    [max_angle], whose default is [PI], and [False] otherwise; and the
    call returns when every route has at least three vertices. On a
    route of fewer than three vertices that sum is 0, below every
    positive maximum, yet the call raises and classifies no pair. *)
Theorem check_if_cons_orthogonal_flag_iff_or_raises
    (streets_wave graph_veh_own : loc) (graphs_veh_other : list loc)
    (max_angle : R) (s : store) (g_own g_streets : MultiGraph)
    (node_own : Node) (i : nat) (ref : loc) (g : MultiGraph)
    (coords : LineString) :
  s !! graph_veh_own = Some g_own -> s !! streets_wave = Some g_streets ->
  graph_node_veh g_own = Some node_own ->
  graphs_veh_other !! i = Some ref -> s !! ref = Some g ->
  pair_route nx_compose nx_shortest_path linemerge node_own g_own g_streets g
    = Ok (GLineString coords) ->
  let sum_angles :=
    py_sum ((fun angle => PI - Rabs (wrap_to_pi angle))
              <$> turn_angles coords) in
  max_angle_default = PI /\
  (forall is_orthogonal coords_max_angle s',
     check_if_cons_orthogonal nx_compose nx_shortest_path linemerge
       streets_wave graph_veh_own graphs_veh_other max_angle s
       = (Ok (is_orthogonal, coords_max_angle), s') ->
     (is_orthogonal !! i = Some true <-> sum_angles < max_angle) /\
     (is_orthogonal !! i = Some false <-> ~ sum_angles < max_angle)) /\
  ((forall j ref', graphs_veh_other !! j = Some ref' ->
      exists g' coords',
        s !! ref' = Some g' /\
        pair_route nx_compose nx_shortest_path linemerge node_own g_own
          g_streets g' = Ok (GLineString coords') /\
        (3 <= length coords')%nat) ->
   exists is_orthogonal coords_max_angle s',
     check_if_cons_orthogonal nx_compose nx_shortest_path linemerge
       streets_wave graph_veh_own graphs_veh_other max_angle s
       = (Ok (is_orthogonal, coords_max_angle), s')) /\
  ((length coords < 3)%nat ->
   sum_angles = 0 /\
   raises (check_if_cons_orthogonal nx_compose nx_shortest_path linemerge
             streets_wave graph_veh_own graphs_veh_other max_angle s).1).
Proof.
  intros Hown Hst Hnode Hi Hg Hroute sum_angles.
  split; [done |].
  rewrite (check_if_cons_orthogonal_run _ _ _ _ _ _ _ _ Hown Hst Hnode).
  assert (Hlocal : (s ++ [nx_compose g_own g_streets]) !! length s =
                   Some (nx_compose g_own g_streets)).
  { rewrite lookup_app_r by lia. by rewrite Nat.sub_diag. }
  split; [| split].
  - intros io cma s' Hrun.
    apply (cons_orthogonal_loop_inv node_own (length s) max_angle
             (nx_compose g_own g_streets)) in Hrun as [_ Hrows];
      [| by rewrite length_replicate | by rewrite length_replicate | done].
    destruct (Hrows i ref g Hi (lookup_app_l_Some _ _ _ _ Hg))
      as (row & Hrow & Hflag).
    rewrite pair_row_route, Hroute in Hrow.
    change (Ok ?a ≫= ?f) with (f a) in Hrow. cbv beta in Hrow.
    apply cons_orthogonal_route_inv in Hrow as (coords' & E & _ & Hrow).
    injection E as <-. simpl in Hflag. rewrite Hflag, Hrow.
    fold sum_angles. destruct (Rlt_dec sum_angles max_angle);
      split; split; (done || (intros; congruence)).
  - intros Hall.
    destruct (cons_orthogonal_loop_ok node_own (length s) max_angle
                (nx_compose g_own g_streets) graphs_veh_other 0
                (replicate (length graphs_veh_other) false)
                (replicate (length graphs_veh_other) (0, 0))
                (s ++ [nx_compose g_own g_streets]))
      as (io & cma & s' & Hrun & _).
    { by rewrite length_replicate. }
    { by rewrite length_replicate. }
    { done. }
    { intros j ref' Hj.
      destruct (Hall j ref' Hj) as (g' & coords' & Hg' & Hr & Hl).
      destruct (cons_orthogonal_route_ok coords' max_angle Hl)
        as (relay & _ & Hrow).
      exists g'. eexists. split; [by apply lookup_app_l_Some |].
      rewrite pair_row_route, Hr. exact Hrow. }
    by exists io, cma, s'.
  - intros Hlen. split; [by apply turn_sum_short |].
    apply (cons_orthogonal_loop_raises node_own (length s) max_angle
             (nx_compose g_own g_streets) graphs_veh_other _ _ _ _ i ref g).
    + by rewrite length_replicate.
    + by rewrite length_replicate.
    + done.
    + done.
    + by apply lookup_app_l_Some.
    + rewrite pair_row_route, Hroute.
      change (Ok ?a ≫= ?f) with (f a). cbv beta.
      rewrite cons_orthogonal_route_short by done. by exists ValueError.
Qed.

(** C9: whatever the call does, returning or raising, every graph of the
    store it started from, the shared street graph among them, is in the
    store it leaves, at the same place and with the same nodes, edges and
    attributes. *)
Theorem check_if_cons_orthogonal_keeps_graphs
    (streets_wave graph_veh_own : loc) (graphs_veh_other : list loc)
    (max_angle : R) (s : store) (l : loc) (g : MultiGraph) :
  s !! l = Some g ->
  (check_if_cons_orthogonal' streets_wave graph_veh_own graphs_veh_other
     max_angle s).2 !! l = Some g.
Proof.
  intros Hl.
  enough (exists ext,
    (check_if_cons_orthogonal' streets_wave graph_veh_own graphs_veh_other
       max_angle s).2 = s ++ ext) as [ext ->]
    by (by apply lookup_app_l_Some).
  unfold check_if_cons_orthogonal.
  rewrite M_bind_unfold, load_run.
  destruct (s !! graph_veh_own) as [g_own|] eqn:Hown; simpl of_option;
    cbv iota beta; [| exists []; by rewrite app_nil_r].
  rewrite M_bind_unfold, lift_run.
  destruct (graph_node_veh g_own) as [node_own|]; simpl of_option;
    cbv iota beta; [| exists []; by rewrite app_nil_r].
  rewrite M_bind_unfold, compose_run, Hown.
  destruct (s !! streets_wave) as [g_streets|]; cbv iota beta;
    [| exists []; by rewrite app_nil_r].
  destruct (cons_orthogonal_loop_grows node_own (length s) max_angle
              graphs_veh_other 0
              (replicate (length graphs_veh_other) false)
              (replicate (length graphs_veh_other) (0, 0))
              (s ++ [nx_compose g_own g_streets])) as [ext Hext].
  { by rewrite length_replicate. }
  { by rewrite length_replicate. }
  exists ([nx_compose g_own g_streets] ++ ext). by rewrite Hext, app_assoc.
Qed.
End AnalyzerFacts.

Lemma scene_pair_route (len : R) (geometry : LineString) :
  pair_route compose_union direct_path merge_single (inl 1%Z)
    (scene_vehicle (inl 1%Z)) (scene_streets len geometry)
    (scene_vehicle (inl 2%Z)) = Ok (GLineString geometry).
Proof. reflexivity. Qed.

Lemma check_if_cons_orthogonal_short_route_raises_witness :
  turn_sum [(0, 0); (3, 4)] = 0 /\
  raises (check_if_cons_orthogonal compose_union direct_path merge_single
            0%nat 1%nat [2%nat] PI scene_straight).1.
Proof.
  apply (check_if_cons_orthogonal_short_route_raises compose_union
           direct_path merge_single 0%nat 1%nat [2%nat] PI
           scene_straight (scene_vehicle (inl 1%Z))
           (scene_streets 5 [(0, 0); (3, 4)]) (inl 1%Z) 0%nat 2%nat
           (scene_vehicle (inl 2%Z)) [(0, 0); (3, 4)]).
  - reflexivity.
  - reflexivity.
  - reflexivity.
  - reflexivity.
  - reflexivity.
  - reflexivity.
  - simpl. lia.
Defined.

Lemma check_if_cons_orthogonal_flag_iff_or_raises_witness :
  (let sum_angles :=
     py_sum ((fun angle => PI - Rabs (wrap_to_pi angle))
               <$> turn_angles [(0, 0); (3, 0); (3, 4)]) in
   max_angle_default = PI /\
   (forall is_orthogonal coords_max_angle s',
      check_if_cons_orthogonal compose_union direct_path merge_single
        0%nat 1%nat [2%nat] PI scene_bent
        = (Ok (is_orthogonal, coords_max_angle), s') ->
      (is_orthogonal !! 0%nat = Some true <-> sum_angles < PI) /\
      (is_orthogonal !! 0%nat = Some false <-> ~ sum_angles < PI)) /\
   ((forall j ref', [2%nat] !! j = Some ref' ->
       exists g' coords',
         scene_bent !! ref' = Some g' /\
         pair_route compose_union direct_path merge_single (inl 1%Z)
           (scene_vehicle (inl 1%Z))
           (scene_streets 7 [(0, 0); (3, 0); (3, 4)]) g'
           = Ok (GLineString coords') /\
         (3 <= length coords')%nat) ->
    exists is_orthogonal coords_max_angle s',
      check_if_cons_orthogonal compose_union direct_path merge_single
        0%nat 1%nat [2%nat] PI scene_bent
        = (Ok (is_orthogonal, coords_max_angle), s')) /\
   ((length [(0, 0); (3, 0); (3, 4)] < 3)%nat ->
    sum_angles = 0 /\
    raises (check_if_cons_orthogonal compose_union direct_path merge_single
              0%nat 1%nat [2%nat] PI scene_bent).1)) /\
  (let sum_angles :=
     py_sum ((fun angle => PI - Rabs (wrap_to_pi angle))
               <$> turn_angles [(0, 0); (3, 4)]) in
   max_angle_default = PI /\
   (forall is_orthogonal coords_max_angle s',
      check_if_cons_orthogonal compose_union direct_path merge_single
        0%nat 1%nat [2%nat] PI scene_straight
        = (Ok (is_orthogonal, coords_max_angle), s') ->
      (is_orthogonal !! 0%nat = Some true <-> sum_angles < PI) /\
      (is_orthogonal !! 0%nat = Some false <-> ~ sum_angles < PI)) /\
   ((forall j ref', [2%nat] !! j = Some ref' ->
       exists g' coords',
         scene_straight !! ref' = Some g' /\
         pair_route compose_union direct_path merge_single (inl 1%Z)
           (scene_vehicle (inl 1%Z))
           (scene_streets 5 [(0, 0); (3, 4)]) g'
           = Ok (GLineString coords') /\
         (3 <= length coords')%nat) ->
    exists is_orthogonal coords_max_angle s',
      check_if_cons_orthogonal compose_union direct_path merge_single
        0%nat 1%nat [2%nat] PI scene_straight
        = (Ok (is_orthogonal, coords_max_angle), s')) /\
   ((length [(0, 0); (3, 4)] < 3)%nat ->
    sum_angles = 0 /\
    raises (check_if_cons_orthogonal compose_union direct_path merge_single
              0%nat 1%nat [2%nat] PI scene_straight).1)).
Proof.
  split.
  - apply (check_if_cons_orthogonal_flag_iff_or_raises compose_union
             direct_path merge_single 0%nat 1%nat [2%nat] PI
             scene_bent (scene_vehicle (inl 1%Z))
             (scene_streets 7 [(0, 0); (3, 0); (3, 4)]) (inl 1%Z)
             0%nat 2%nat (scene_vehicle (inl 2%Z))
             [(0, 0); (3, 0); (3, 4)]); reflexivity.
  - apply (check_if_cons_orthogonal_flag_iff_or_raises compose_union
             direct_path merge_single 0%nat 1%nat [2%nat] PI
             scene_straight (scene_vehicle (inl 1%Z))
             (scene_streets 5 [(0, 0); (3, 4)]) (inl 1%Z)
             0%nat 2%nat (scene_vehicle (inl 2%Z))
             [(0, 0); (3, 4)]); reflexivity.
Defined.

Lemma check_if_cons_orthogonal_keeps_graphs_witness :
  (check_if_cons_orthogonal compose_union direct_path merge_single
     0%nat 1%nat [2%nat] PI scene_bent).2 !! 0%nat
  = Some (scene_streets 7 [(0, 0); (3, 0); (3, 4)]).
Proof.
  apply (check_if_cons_orthogonal_keeps_graphs compose_union direct_path
           merge_single 0%nat 1%nat [2%nat] PI
           scene_bent 0%nat (scene_streets 7 [(0, 0); (3, 0); (3, 4)])).
  reflexivity.
Defined.

(** ** Visibility graph builder *)

Lemma assoc_Some_elem {A} (u : Node) (l : list (Node * A)) :
  is_Some (assoc u l) <-> u ∈ l.*1.
Proof.
  induction l as [|[k a] l IH]; simpl.
  - split; [by intros [? ?] | intros H; by apply elem_of_nil in H].
  - destruct (decide (k = u)) as [->|Hne].
    + split; [intros _; left | by eexists].
    + rewrite IH. split; [by right |].
      intros H. apply elem_of_cons in H as [-> | H]; done.
Qed.

Lemma node_coords_assoc (g : MultiGraph) (u : Node) (c : R * R) :
  node_coords g u = Ok c -> is_Some (assoc u (node g)).
Proof.
  unfold node_coords. destruct (assoc u (node g)); [by eexists | done].
Qed.

Lemma add_node_if_absent_present (u : Node) (l : list (Node * NodeAttr)) :
  is_Some (assoc u l) -> add_node_if_absent u l = l.
Proof. intros [a Ha]. unfold add_node_if_absent. by rewrite Ha. Qed.

Lemma add_edge_node (u v : Node) (data : EdgeAttr) (g : MultiGraph) :
  is_Some (assoc u (node g)) -> is_Some (assoc v (node g)) ->
  node (add_edge u v data g) = node g.
Proof.
  intros Hu Hv. unfold add_edge. simpl.
  rewrite (add_node_if_absent_present u) by done.
  by rewrite add_node_if_absent_present.
Qed.

Lemma node_coords_node (g g' : MultiGraph) (u : Node) :
  node g' = node g -> node_coords g' u = node_coords g u.
Proof. intros E. unfold node_coords. by rewrite E. Qed.

Lemma has_edge_true (g : MultiGraph) (u v : Node) :
  has_edge g u v = true <-> is_Some (adj g !! (u, v)).
Proof. unfold has_edge. apply bool_decide_eq_true. Qed.

Lemma has_edge_false (g : MultiGraph) (u v : Node) :
  has_edge g u v = false <-> adj g !! (u, v) = None.
Proof.
  unfold has_edge. rewrite bool_decide_eq_false.
  rewrite <- eq_None_not_Some. done.
Qed.

Lemma has_edge_add_edge (g : MultiGraph) (u v a b : Node) (data : EdgeAttr) :
  has_edge g a b = true -> has_edge (add_edge u v data g) a b = true.
Proof.
  rewrite !has_edge_true. intros Hab. unfold add_edge. simpl.
  destruct (decide ((u, v) = (a, b))) as [->|Hne1].
  { rewrite lookup_insert_eq. by eexists. }
  rewrite lookup_insert_ne by done.
  destruct (decide ((v, u) = (a, b))) as [->|Hne2].
  { rewrite lookup_insert_eq. by eexists. }
  by rewrite lookup_insert_ne.
Qed.

Lemma elem_of_pairs_lookup (l : list Node) (a b : Node) :
  (a, b) ∈ pairs l <->
  exists i j, (i < j)%nat /\ l !! i = Some a /\ l !! j = Some b.
Proof.
  induction l as [|u l IH]; simpl.
  - split; [intros H; by apply elem_of_nil in H |].
    by intros (i & j & _ & ? & _).
  - rewrite elem_of_app, list_elem_of_fmap, IH. split.
    + intros [(v & [= -> ->] & Hv) | (i & j & Hij & Hi & Hj)].
      * apply list_elem_of_lookup in Hv as [j Hj].
        exists 0%nat, (S j). split; [lia | done].
      * exists (S i), (S j). split; [lia | done].
    + intros (i & j & Hij & Hi & Hj). destruct j as [|j]; [lia |].
      simpl in Hj. destruct i as [|i]; simpl in Hi.
      * left. injection Hi as ->. exists b. split; [done |].
        apply list_elem_of_lookup. by exists j.
      * right. exists i, j. split; [lia | done].
Qed.

Lemma elem_of_pairs (l : list Node) (a b : Node) :
  (a, b) ∈ pairs l -> a ∈ l /\ b ∈ l.
Proof.
  rewrite elem_of_pairs_lookup. intros (i & j & _ & Hi & Hj).
  split; apply list_elem_of_lookup; by eexists.
Qed.

Section BuilderFacts.
Context {Polygon : Type}.
Variable intersects : LineString -> Polygon -> bool.
Variable buildings : list Polygon.
Variable max_distance : R.

Local Abbreviation add_edges_inner' :=
  (add_edges_inner intersects buildings max_distance).
Local Abbreviation add_edges_outer' :=
  (add_edges_outer intersects buildings max_distance).
Local Abbreviation add_edges_if_los' :=
  (add_edges_if_los intersects buildings max_distance).
Local Abbreviation los_edge' := (los_edge intersects buildings max_distance).
Local Abbreviation visit' := (visit intersects buildings max_distance).
Local Abbreviation visited_adj' :=
  (visited_adj intersects buildings max_distance).

Lemma line_intersects_buildings_false (line : LineString)
    (bs : list Polygon) :
  line_intersects_buildings intersects line bs = false <->
  forall b, b ∈ bs -> intersects line b = false.
Proof.
  induction bs as [|b bs IH]; simpl.
  - split; [intros _ b H; by apply elem_of_nil in H | done].
  - destruct (intersects line b) eqn:E.
    + split; [done |]. intros H. rewrite <- E. apply H. left.
    + rewrite IH. split.
      * intros H b' Hb'. apply elem_of_cons in Hb' as [-> | Hb']; auto.
      * intros H b' Hb'. apply H. by right.
Qed.

Lemma los_edge_node (g g' : MultiGraph) (u v : Node) :
  node g' = node g -> los_edge' g' u v = los_edge' g u v.
Proof.
  intros E. unfold los_edge. by rewrite !(node_coords_node g g') by done.
Qed.

Lemma los_edge_present (g : MultiGraph) (u v : Node) (e : EdgeAttr) :
  los_edge' g u v = Some e ->
  is_Some (assoc u (node g)) /\ is_Some (assoc v (node g)).
Proof.
  unfold los_edge.
  destruct (node_coords g u) as [cu|] eqn:Hu; [| done].
  destruct (node_coords g v) as [cv|] eqn:Hv; [| done].
  intros _. split; by eapply node_coords_assoc.
Qed.

Lemma visit_node (g : MultiGraph) (p : Node * Node) :
  node (visit' g p) = node g.
Proof.
  unfold visit. destruct (has_edge g p.1 p.2); [done |].
  destruct (los_edge' g p.1 p.2) as [e|] eqn:E; [| done].
  apply los_edge_present in E as [Hu Hv]. by apply add_edge_node.
Qed.

Lemma visit_has_edge_mono (g : MultiGraph) (p : Node * Node) (a b : Node) :
  has_edge g a b = true -> has_edge (visit' g p) a b = true.
Proof.
  intros H. unfold visit. destruct (has_edge g p.1 p.2); [done |].
  destruct (los_edge' g p.1 p.2); [| done]. by apply has_edge_add_edge.
Qed.

Lemma fold_visit_node (ps : list (Node * Node)) (g : MultiGraph) :
  node (fold_left visit' ps g) = node g.
Proof.
  revert g. induction ps as [|p ps IH]; intros g; simpl; [done |].
  by rewrite IH, visit_node.
Qed.

Lemma fold_visit_has_edge_mono (ps : list (Node * Node)) (g : MultiGraph)
    (a b : Node) :
  has_edge g a b = true -> has_edge (fold_left visit' ps g) a b = true.
Proof.
  revert g. induction ps as [|p ps IH]; intros g H; simpl; [done |].
  by apply IH, visit_has_edge_mono.
Qed.

(** The inner loop is the fold of [visit] over the pairs it reaches. *)
Lemma add_edges_inner_run (node_u : Node) (coords_u : R * R)
    (vs : list Node) :
  forall g : MultiGraph,
    node_coords g node_u = Ok coords_u ->
    (forall v, v ∈ vs -> exists c, node_coords g v = Ok c) ->
    add_edges_inner' node_u coords_u vs g =
    (Ok tt, fold_left visit' (pair node_u <$> vs) g).
Proof.
  induction vs as [|v vs IH]; intros g Hu Hvs; [done |].
  assert (Hvs' : forall w, w ∈ vs -> exists c, node_coords g w = Ok c)
    by (intros w Hw; apply Hvs; by right).
  destruct (Hvs v) as [cv Hv]; [left |].
  simpl add_edges_inner. rewrite M_bind_unfold. unfold get at 1.
  cbv iota beta. simpl fold_left. unfold visit at 2, los_edge. simpl fst.
  simpl snd. rewrite Hu, Hv.
  destruct (has_edge g node_u v); [by apply IH |].
  rewrite M_bind_unfold, lift_run. cbv iota beta.
  destruct (Rgtb (euclid coords_u cv) max_distance); [by apply IH |].
  destruct (line_intersects_buildings intersects [coords_u; cv] buildings);
    [by apply IH |].
  rewrite M_bind_unfold. unfold modify at 1. cbv iota beta.
  assert (Hn : node (add_edge node_u v
                       (mkEdgeAttr (euclid coords_u cv) (Some [coords_u; cv]))
                       g) = node g)
    by (apply add_edge_node; by eapply node_coords_assoc).
  apply IH.
  - by rewrite (node_coords_node g).
  - intros w Hw. rewrite (node_coords_node g) by done. by apply Hvs'.
Qed.

Lemma has_coords_node (g g' : MultiGraph) :
  node g' = node g -> has_coords g -> has_coords g'.
Proof.
  intros E H u Hu. unfold nodes in Hu. rewrite E in Hu.
  rewrite (node_coords_node g) by done. by apply H.
Qed.

(** The outer loop is the fold of [visit] over the pairs of the nodes
    from position [index] on. *)
Lemma add_edges_outer_run (us : list Node) :
  forall (index : nat) (g : MultiGraph),
    has_coords g -> drop index (nodes g) = us ->
    add_edges_outer' index us g = (Ok tt, fold_left visit' (pairs us) g).
Proof.
  induction us as [|u us IH]; intros index g Hc Hd; [done |].
  assert (Hu : u ∈ nodes g).
  { apply list_elem_of_lookup. exists index.
    pose proof (lookup_drop (nodes g) index 0) as H.
    rewrite Hd, Nat.add_0_r in H. done. }
  assert (Hd' : drop (S index) (nodes g) = us).
  { replace (S index) with (index + 1)%nat by lia.
    rewrite <- drop_drop, Hd. done. }
  destruct (Hc u Hu) as [cu Hcu].
  simpl add_edges_outer. rewrite M_bind_unfold. unfold get at 1.
  cbv iota beta. rewrite M_bind_unfold, lift_run, Hcu. cbv iota beta.
  rewrite M_bind_unfold, Hd'.
  rewrite (add_edges_inner_run u cu us g Hcu).
  2: { intros v Hv. apply Hc. rewrite <- Hd' in Hv.
       by apply (subseteq_drop (S index)). }
  cbv iota beta. simpl pairs. rewrite fold_left_app.
  set (g1 := fold_left visit' (pair u <$> us) g).
  assert (Hn : node g1 = node g) by apply fold_visit_node.
  apply IH.
  - by apply (has_coords_node g).
  - unfold nodes. by rewrite Hn.
Qed.

Lemma add_edges_if_los_run (g : MultiGraph) :
  has_coords g ->
  add_edges_if_los' g = (Ok tt, fold_left visit' (pairs (nodes g)) g).
Proof.
  intros Hc. unfold add_edges_if_los. rewrite M_bind_unfold.
  unfold get at 1. cbv iota beta. by apply add_edges_outer_run.
Qed.

(** After the pairs have been visited, each of them is adjacent or has
    no line-of-sight edge to add. *)
Lemma fold_visit_saturated (ps : list (Node * Node)) :
  forall (g : MultiGraph) (p : Node * Node),
    p ∈ ps ->
    has_edge (fold_left visit' ps g) p.1 p.2 = true \/
    los_edge' g p.1 p.2 = None.
Proof.
  induction ps as [|q ps IH]; intros g p Hp.
  { by apply elem_of_nil in Hp. }
  simpl fold_left. apply elem_of_cons in Hp as [-> | Hp].
  - unfold visit at 2.
    destruct (has_edge g q.1 q.2) eqn:He.
    { left. by apply fold_visit_has_edge_mono. }
    destruct (los_edge' g q.1 q.2) as [e|] eqn:El; [| by right].
    left. apply fold_visit_has_edge_mono. apply has_edge_true.
    unfold add_edge. simpl. rewrite lookup_insert_eq. by eexists.
  - destruct (IH (visit' g q) p Hp) as [H | H]; [by left |].
    right. by rewrite (los_edge_node g) in H by apply visit_node.
Qed.

Lemma fold_visit_fixed (ps : list (Node * Node)) (g : MultiGraph) :
  (forall p, p ∈ ps ->
     has_edge g p.1 p.2 = true \/ los_edge' g p.1 p.2 = None) ->
  fold_left visit' ps g = g.
Proof.
  induction ps as [|q ps IH]; intros H; [done |].
  simpl fold_left.
  assert (E : visit' g q = g).
  { unfold visit. destruct (H q) as [-> | Hq]; [left | done |].
    rewrite Hq. by destruct (has_edge g q.1 q.2). }
  rewrite E. apply IH. intros p Hp. apply H. by right.
Qed.

(** C7: on a street graph whose nodes all carry coordinates the builder
    returns, and run again on the graph it left, with the same buildings
    and maximal distance, it returns and leaves that graph as it is:
    nodes, edges and edge attributes. *)
Theorem add_edges_if_los_idempotent (g : MultiGraph) :
  has_coords g ->
  exists g1,
    add_edges_if_los' g = (Ok tt, g1) /\
    add_edges_if_los' g1 = (Ok tt, g1).
Proof.
  intros Hc. exists (fold_left visit' (pairs (nodes g)) g).
  split; [by apply add_edges_if_los_run |].
  set (g1 := fold_left visit' (pairs (nodes g)) g).
  assert (Hn : node g1 = node g) by apply fold_visit_node.
  rewrite add_edges_if_los_run by (by apply (has_coords_node g)).
  f_equal. unfold nodes. rewrite Hn. fold (nodes g).
  apply fold_visit_fixed. intros p Hp.
  destruct (fold_visit_saturated (pairs (nodes g)) g p Hp) as [H | H];
    [by left |].
  right. by rewrite (los_edge_node g).
Qed.

(** What [visit] leaves between the two nodes of its pair. *)
Lemma visit_adj_self (g : MultiGraph) (u v : Node) :
  adj (visit' g (u, v)) !! (u, v) = visited_adj' g u v.
Proof.
  unfold visit, visited_adj. simpl fst. simpl snd.
  destruct (has_edge g u v) eqn:He.
  - apply has_edge_true in He as [kd Hkd]. by rewrite Hkd.
  - apply has_edge_false in He. rewrite He.
    destruct (los_edge' g u v) as [e|]; [| done].
    unfold add_edge. simpl. rewrite He. by rewrite lookup_insert_eq.
Qed.

Lemma visit_adj_other (g : MultiGraph) (u v a b : Node) :
  (a, b) <> (u, v) -> (a, b) <> (v, u) ->
  adj (visit' g (u, v)) !! (a, b) = adj g !! (a, b).
Proof.
  intros H1 H2. unfold visit. simpl fst. simpl snd.
  destruct (has_edge g u v); [done |].
  destruct (los_edge' g u v) as [e|]; [| done].
  unfold add_edge. simpl. by rewrite !lookup_insert_ne.
Qed.

Lemma visit_sym (g : MultiGraph) (p : Node * Node) :
  (forall a b, adj g !! (a, b) = adj g !! (b, a)) ->
  forall a b, adj (visit' g p) !! (a, b) = adj (visit' g p) !! (b, a).
Proof.
  intros Hs a b. destruct p as [u v]. unfold visit. simpl fst. simpl snd.
  destruct (has_edge g u v); [done |].
  destruct (los_edge' g u v) as [e|]; [| done].
  unfold add_edge. simpl.
  destruct (decide ((u, v) = (a, b))) as [[= -> ->]|H1].
  { rewrite lookup_insert_eq.
    destruct (decide ((a, b) = (b, a))) as [E|Hne].
    - rewrite <- E. by rewrite lookup_insert_eq.
    - rewrite lookup_insert_ne by done. by rewrite lookup_insert_eq. }
  rewrite (lookup_insert_ne _ (u, v) (a, b)) by done.
  destruct (decide ((v, u) = (a, b))) as [[= -> ->]|H2].
  { rewrite lookup_insert_eq. by rewrite lookup_insert_eq. }
  rewrite (lookup_insert_ne _ (v, u) (a, b)) by done.
  rewrite !lookup_insert_ne by congruence. done.
Qed.

(** The fold over pairs that do not repeat, in either order: a visited
    pair that was adjacent keeps its edges, one that was not gets the
    line-of-sight edge if there is one, and nothing else changes. *)
Lemma fold_visit_adj (ps : list (Node * Node)) :
  forall g : MultiGraph,
    NoDup ps -> (forall a b, (a, b) ∈ ps -> (b, a) ∉ ps) ->
    (forall a b, adj g !! (a, b) = adj g !! (b, a)) ->
    (forall a b, adj (fold_left visit' ps g) !! (a, b)
                 = adj (fold_left visit' ps g) !! (b, a)) /\
    (forall a b, (a, b) ∈ ps ->
       adj (fold_left visit' ps g) !! (a, b) = visited_adj' g a b) /\
    (forall a b, (a, b) ∉ ps -> (b, a) ∉ ps ->
       adj (fold_left visit' ps g) !! (a, b) = adj g !! (a, b)).
Proof.
  induction ps as [|[u v] ps IH]; intros g Hnd Hsw Hs.
  { simpl. split; [done |]. split; [| done].
    intros a b H. by apply elem_of_nil in H. }
  apply NoDup_cons in Hnd as [Hnin Hnd].
  assert (Hnin' : (v, u) ∉ ps).
  { intros H. apply (Hsw v u); [by right | left]. }
  assert (Hsw' : forall a b, (a, b) ∈ ps -> (b, a) ∉ ps).
  { intros a b Hab Hba. apply (Hsw a b); by right. }
  destruct (IH (visit' g (u, v)) Hnd Hsw' (visit_sym g (u, v) Hs))
    as (IHs & IHin & IHout).
  simpl fold_left. split; [done |]. split.
  - intros a b Hab. apply elem_of_cons in Hab as [[= -> ->] | Hab].
    + rewrite IHout by done. apply visit_adj_self.
    + rewrite IHin by done. unfold visited_adj.
      rewrite visit_adj_other; [| congruence | congruence].
      by rewrite (los_edge_node g) by apply visit_node.
  - intros a b Hab Hba. apply not_elem_of_cons in Hab as [Hne1 Hab].
    apply not_elem_of_cons in Hba as [Hne2 Hba].
    rewrite IHout by done. apply visit_adj_other; congruence.
Qed.

Lemma pairs_NoDup (l : list Node) : NoDup l -> NoDup (pairs l).
Proof.
  induction l as [|u l IH]; intros Hnd; simpl; [constructor |].
  apply NoDup_cons in Hnd as [Hu Hnd]. apply NoDup_app. split; [| split].
  - apply NoDup_fmap_2; [| done]. intros x y. congruence.
  - intros [a b] Hab Hab'.
    apply list_elem_of_fmap in Hab as (w & [= -> ->] & _).
    apply elem_of_pairs in Hab' as [Hu' _]. done.
  - by apply IH.
Qed.

Lemma pairs_no_swap (l : list Node) (a b : Node) :
  NoDup l -> (a, b) ∈ pairs l -> (b, a) ∉ pairs l.
Proof.
  intros Hnd Hab Hba.
  apply elem_of_pairs_lookup in Hab as (i & j & Hij & Hi & Hj).
  apply elem_of_pairs_lookup in Hba as (i' & j' & Hij' & Hi' & Hj').
  assert (i' = j) by (by eapply NoDup_lookup).
  assert (j' = i) by (by eapply NoDup_lookup).
  lia.
Qed.

(** C6: on a well-formed street graph the builder returns and leaves the
    nodes as they were. For nodes [u] before [v] in [graph.nodes()]:
    if they were adjacent their edges are as before; if they were not,
    they are adjacent afterwards exactly when their Euclidean distance is
    at most [max_distance] and the straight line between them intersects
    no building, and then the one edge between them carries that distance
    as length and that line as geometry. The default of [max_distance]
    is 50. *)
Theorem add_edges_if_los_adds_iff_near_and_clear (g : MultiGraph) :
  wf_graph g ->
  max_distance_default = 50 /\
  exists g1,
    add_edges_if_los' g = (Ok tt, g1) /\
    node g1 = node g /\
    forall i j u v coords_u coords_v,
      (i < j)%nat -> nodes g !! i = Some u -> nodes g !! j = Some v ->
      node_coords g u = Ok coords_u -> node_coords g v = Ok coords_v ->
      (has_edge g u v = true ->
         adj g1 !! (u, v) = adj g !! (u, v) /\
         adj g1 !! (v, u) = adj g !! (v, u)) /\
      (has_edge g u v = false ->
         (has_edge g1 u v = true <->
            euclid coords_u coords_v <= max_distance /\
            forall b, b ∈ buildings ->
              intersects [coords_u; coords_v] b = false) /\
         (has_edge g1 u v = true ->
            adj g1 !! (u, v) =
              Some [mkEdgeAttr (euclid coords_u coords_v)
                      (Some [coords_u; coords_v])] /\
            adj g1 !! (v, u) =
              Some [mkEdgeAttr (euclid coords_u coords_v)
                      (Some [coords_u; coords_v])])).
Proof.
  intros [Hnd Hc Hs]. split; [done |].
  exists (fold_left visit' (pairs (nodes g)) g).
  split; [by apply add_edges_if_los_run |].
  split; [apply fold_visit_node |].
  destruct (fold_visit_adj (pairs (nodes g)) g (pairs_NoDup _ Hnd)
              (fun a b => pairs_no_swap _ a b Hnd) Hs) as (Hs1 & Hin & _).
  set (g1 := fold_left visit' (pairs (nodes g)) g) in *.
  intros i j u v cu cv Hij Hi Hj Hu Hv.
  assert (Hp : (u, v) ∈ pairs (nodes g))
    by (apply elem_of_pairs_lookup; by exists i, j).
  specialize (Hin u v Hp). unfold visited_adj in Hin. split.
  - intros He. apply has_edge_true in He as [kd Hkd].
    rewrite Hkd in Hin. rewrite (Hs v u), <- (Hs1 u v). by rewrite Hin, Hkd.
  - intros He. apply has_edge_false in He. rewrite He in Hin.
    unfold los_edge in Hin. rewrite Hu, Hv in Hin.
    rewrite has_edge_true, Hin.
    destruct (Rgtb (euclid cu cv) max_distance) eqn:Ed.
    { apply Rgtb_true in Ed. simpl. split.
      - split; [by intros [? ?] | intros [? _]; lra].
      - by intros [? ?]. }
    apply Rgtb_false in Ed.
    destruct (line_intersects_buildings intersects [cu; cv] buildings) eqn:Eb.
    { simpl. split.
      - split; [by intros [? ?] |]. intros [_ Hb].
        apply (proj2 (line_intersects_buildings_false _ _)) in Hb.
        congruence.
      - by intros [? ?]. }
    pose proof (proj1 (line_intersects_buildings_false _ _) Eb) as Hclear.
    simpl. split.
    + split; [intros _; split; [lra | exact Hclear] | by eexists].
    + intros _. split; [done |]. rewrite <- (Hs1 u v), Hin. done.
Qed.
End BuilderFacts.

Lemma scene_corner_wf : wf_graph scene_corner.
Proof.
  split.
  - apply (bool_decide_unpack _). reflexivity.
  - intros u Hu. unfold nodes in Hu. simpl in Hu.
    repeat (apply elem_of_cons in Hu as [-> | Hu]; [by eexists |]).
    by apply elem_of_nil in Hu.
  - intros a b. unfold scene_corner. simpl.
    rewrite !lookup_insert, !lookup_empty.
    repeat case_decide; congruence.
Defined.

(** The builder at work: the first and the third intersection are exactly
    50 apart with nothing in between, and get an edge. *)
Example add_edges_if_los_scene_corner :
  exists g1,
    add_edges_if_los never_intersects no_buildings max_distance_default
      scene_corner = (Ok tt, g1) /\
    has_edge scene_corner (inl 1%Z) (inl 3%Z) = false /\
    adj g1 !! (inl 1%Z, inl 3%Z) =
      Some [mkEdgeAttr 50 (Some [(0, 0); (30, 40)])].
Proof.
  destruct scene_corner_wf as [Hnd Hc Hs].
  eexists. split; [by apply add_edges_if_los_run |]. split; [reflexivity |].
  destruct (fold_visit_adj never_intersects no_buildings max_distance_default
              (pairs (nodes scene_corner)) scene_corner (pairs_NoDup _ Hnd)
              (fun a b => pairs_no_swap _ a b Hnd) Hs) as (_ & Hin & _).
  rewrite (Hin (inl 1%Z) (inl 3%Z)).
  2: { apply elem_of_pairs_lookup. exists 0%nat, 2%nat.
       split; [lia | split; reflexivity]. }
  unfold visited_adj, los_edge, max_distance_default.
  change (adj scene_corner !! (inl 1%Z, inl 3%Z)) with (@None (list EdgeAttr)).
  change (node_coords scene_corner (inl 1%Z)) with (@Ok (R * R) (0, 0)).
  change (node_coords scene_corner (inl 3%Z)) with (@Ok (R * R) (30, 40)).
  cbv iota beta.
  assert (E : euclid (0, 0) (30, 40) = 50) by (apply euclid_sq; simpl; lra).
  rewrite E.
  replace (Rgtb 50 50) with false by (symmetry; apply Rgtb_false; lra).
  reflexivity.
Qed.

(** Run on a graph object, the builder changes it in place. *)
Example add_edges_if_los_at_writes :
  (add_edges_if_los_at never_intersects no_buildings max_distance_default
     0%nat [scene_corner]).2 <> [scene_corner].
Proof.
  destruct add_edges_if_los_scene_corner as (g1 & Hrun & Hbefore & Hafter).
  unfold add_edges_if_los_at, at_ref.
  change ([scene_corner] !! 0%nat) with (Some scene_corner).
  cbv iota beta. rewrite Hrun. simpl.
  intros [= E]. apply has_edge_false in Hbefore.
  rewrite E in Hafter. congruence.
Qed.

Lemma add_edges_if_los_idempotent_witness :
  exists g1,
    add_edges_if_los never_intersects no_buildings max_distance_default
      scene_corner = (Ok tt, g1) /\
    add_edges_if_los never_intersects no_buildings max_distance_default g1
      = (Ok tt, g1).
Proof.
  apply (add_edges_if_los_idempotent never_intersects no_buildings
           max_distance_default scene_corner).
  apply scene_corner_wf.
Defined.

Lemma add_edges_if_los_adds_iff_near_and_clear_witness :
  max_distance_default = 50 /\
  exists g1,
    add_edges_if_los never_intersects no_buildings max_distance_default
      scene_corner = (Ok tt, g1) /\
    node g1 = node scene_corner /\
    forall i j u v coords_u coords_v,
      (i < j)%nat ->
      nodes scene_corner !! i = Some u -> nodes scene_corner !! j = Some v ->
      node_coords scene_corner u = Ok coords_u ->
      node_coords scene_corner v = Ok coords_v ->
      (has_edge scene_corner u v = true ->
         adj g1 !! (u, v) = adj scene_corner !! (u, v) /\
         adj g1 !! (v, u) = adj scene_corner !! (v, u)) /\
      (has_edge scene_corner u v = false ->
         (has_edge g1 u v = true <->
            euclid coords_u coords_v <= max_distance_default /\
            forall b, b ∈ no_buildings ->
              never_intersects [coords_u; coords_v] b = false) /\
         (has_edge g1 u v = true ->
            adj g1 !! (u, v) =
              Some [mkEdgeAttr (euclid coords_u coords_v)
                      (Some [coords_u; coords_v])] /\
            adj g1 !! (v, u) =
              Some [mkEdgeAttr (euclid coords_u coords_v)
                      (Some [coords_u; coords_v])])).
Proof.
  apply (add_edges_if_los_adds_iff_near_and_clear never_intersects
           no_buildings max_distance_default scene_corner).
  apply scene_corner_wf.
Defined.

(** ** [Vehicles]: indexed writes *)

Lemma np_positions_ok (n : nat) (idx : list Z) :
  (forall i, i ∈ idx -> (- Z.of_nat n <= i < Z.of_nat n)%Z) ->
  exists ps,
    np_positions n idx = Ok ps /\
    forall p, p ∈ ps -> exists i, i ∈ idx /\ np_position n i = Some p.
Proof.
  induction idx as [|i idx IH]; intros Hv.
  - exists []. split; [done |]. intros p Hp. by apply elem_of_nil in Hp.
  - destruct IH as (ps & Hps & Hin).
    { intros j Hj. apply Hv. by right. }
    assert (Hi : exists p, np_position n i = Some p).
    { specialize (Hv i (list_elem_of_here _ _)). unfold np_position.
      destruct (decide (0 <= i < Z.of_nat n)%Z); [by eexists |].
      destruct (decide (- Z.of_nat n <= i < 0)%Z); [by eexists | lia]. }
    destruct Hi as [p Hp]. exists (p :: ps). split.
    + simpl. rewrite Hp, Hps. done.
    + intros q Hq. apply elem_of_cons in Hq as [-> | Hq].
      * exists i. split; [left | done].
      * destruct (Hin q Hq) as (j & Hj & Hjq). exists j.
        split; [by right | done].
Qed.

Lemma np_broadcast_ok (k : nat) (values : np_values) :
  broadcastable k values -> exists vs, np_broadcast k values = Ok vs.
Proof.
  destruct values as [v|vs]; simpl; [by eexists |].
  intros [H | H].
  - destruct vs as [|v [|w vs]]; [| by eexists |].
    + simpl in *. destruct (decide (0%nat = k)); [by eexists | done].
    + destruct (decide (length (v :: w :: vs) = k)); [by eexists | done].
  - destruct vs as [|v [|w vs]]; simpl in H; [lia | by eexists | lia].
Qed.

Lemma np_put_length (ps : list nat) :
  forall (arr vs : list R), length (np_put arr ps vs) = length arr.
Proof.
  induction ps as [|p ps IH]; intros arr vs; [done |].
  destruct vs as [|v vs]; [done |]. simpl. by rewrite IH, length_insert.
Qed.

Lemma np_put_other (ps : list nat) (q : nat) :
  forall (arr vs : list R), q ∉ ps -> np_put arr ps vs !! q = arr !! q.
Proof.
  induction ps as [|p ps IH]; intros arr vs Hq; [done |].
  destruct vs as [|v vs]; [done |]. simpl.
  apply not_elem_of_cons in Hq as [Hne Hq].
  rewrite IH by done. by apply list_lookup_insert_ne.
Qed.

Lemma add_key_registers (self : Vehicles) (key : string) (value : list Z) :
  (add_key key value self).1 = Ok tt /\
  idxs (add_key key value self).2 !! key = Some value /\
  pathlosses (add_key key value self).2 = pathlosses self.
Proof.
  unfold add_key, modify. simpl. by rewrite lookup_insert_eq.
Qed.

(** C10: for a registered key whose indices are within the bounds of
    [pathlosses], whether [set_pathlosses] returns or raises, it leaves
    [pathlosses] with its length and with every entry at a position no
    index of the key addresses, and all other fields as they were; and
    it returns when the values broadcast to the indices. *)
Theorem set_pathlosses_frame (self : Vehicles) (key : string)
    (idx : list Z) (values : np_values) :
  idxs self !! key = Some idx ->
  (forall i, i ∈ idx ->
     (- Z.of_nat (length (pathlosses self)) <= i
      < Z.of_nat (length (pathlosses self)))%Z) ->
  let self' := (set_pathlosses key values self).2 in
  length (pathlosses self') = length (pathlosses self) /\
  (forall p,
     (forall i, i ∈ idx ->
        np_position (length (pathlosses self)) i <> Some p) ->
     pathlosses self' !! p = pathlosses self !! p) /\
  distances self' = distances self /\
  nlos self' = nlos self /\
  points self' = points self /\
  graphs self' = graphs self /\
  idxs self' = idxs self /\
  count self' = count self /\
  coordinates self' = coordinates self /\
  (broadcastable (length idx) values ->
   (set_pathlosses key values self).1 = Ok tt).
Proof.
  intros Hkey Hvalid.
  destruct (np_positions_ok _ idx Hvalid) as (ps & Hps & Hin).
  assert (Hrun : set_pathlosses key values self =
                 match np_broadcast (length idx) values with
                 | Ok vs =>
                     (Ok tt,
                      {| count := count self; points := points self;
                         coordinates := coordinates self;
                         graphs := graphs self;
                         pathlosses := np_put (pathlosses self) ps vs;
                         distances := distances self; nlos := nlos self;
                         idxs := idxs self |})
                 | Raise e => (Raise e, self)
                 end).
  { unfold set_pathlosses. rewrite M_bind_unfold. unfold get at 1.
    cbv iota beta. rewrite M_bind_unfold, lift_run, Hkey. simpl of_option.
    cbv iota beta. rewrite M_bind_unfold, lift_run.
    unfold np_setitem.
    destruct (np_broadcast (length idx) values) as [vs|e]; [| reflexivity].
    change (Ok vs ≫= ?f) with (f vs). cbv beta. rewrite Hps. reflexivity. }
  cbv zeta. rewrite Hrun.
  destruct (np_broadcast (length idx) values) as [vs|e] eqn:Hb; simpl.
  - split; [apply np_put_length |]. split; [| done].
    intros p Hp. apply np_put_other. intros Hpin.
    destruct (Hin p Hpin) as (i & Hi & Hip). by apply (Hp i).
  - repeat split; try done. intros Hshape.
    destruct (np_broadcast_ok _ values Hshape) as [vs Hvs]. congruence.
Qed.

Lemma set_pathlosses_frame_witness :
  let self' := (set_pathlosses "nlos" (Array [7; 9]) scene_vehicles).2 in
  length (pathlosses self') = length (pathlosses scene_vehicles) /\
  (forall p,
     (forall i, i ∈ [1; -1]%Z ->
        np_position (length (pathlosses scene_vehicles)) i <> Some p) ->
     pathlosses self' !! p = pathlosses scene_vehicles !! p) /\
  distances self' = distances scene_vehicles /\
  nlos self' = nlos scene_vehicles /\
  points self' = points scene_vehicles /\
  graphs self' = graphs scene_vehicles /\
  idxs self' = idxs scene_vehicles /\
  count self' = count scene_vehicles /\
  coordinates self' = coordinates scene_vehicles /\
  (broadcastable (length [1; -1]%Z) (Array [7; 9]) ->
   (set_pathlosses "nlos" (Array [7; 9]) scene_vehicles).1 = Ok tt).
Proof.
  apply (set_pathlosses_frame scene_vehicles "nlos" [1; -1]%Z
           (Array [7; 9])).
  - reflexivity.
  - simpl. intros i Hi.
    apply elem_of_cons in Hi as [-> | Hi]; [lia |].
    apply elem_of_cons in Hi as [-> | Hi]; [lia |].
    by apply elem_of_nil in Hi.
Defined.

(** * Part III: further properties of the code *)

(** ** [wrap_to_pi] *)

Lemma np_mod_shift (x m : R) (k : Z) :
  0 < m -> np_mod (x + IZR k * m) m = np_mod x m.
Proof.
  intros Hm. unfold np_mod.
  assert (E : Int_part ((x + IZR k * m) / m) = (Int_part (x / m) + k)%Z).
  { symmetry. apply Int_part_spec.
    destruct (base_Int_part (x / m)) as [Hlo Hhi].
    replace ((x + IZR k * m) / m) with (x / m + IZR k) by (field; lra).
    rewrite plus_IZR. lra. }
  rewrite E, plus_IZR. lra.
Qed.

Lemma np_mod_small (x m : R) : 0 <= x < m -> np_mod x m = x.
Proof.
  intros [Hlo Hhi]. unfold np_mod.
  assert (Hm : 0 < m) by lra.
  assert (E : Int_part (x / m) = 0%Z).
  { symmetry. apply Int_part_spec. simpl.
    assert (Hinv : 0 < / m) by (apply Rinv_0_lt_compat; lra).
    assert (Hone : m * / m = 1) by (field; lra).
    unfold Rdiv. split; nra. }
  rewrite E. simpl. lra.
Qed.

Lemma wrap_to_pi_shift (a : R) (k : Z) :
  wrap_to_pi (a + IZR k * (2 * PI)) = wrap_to_pi a.
Proof.
  assert (HPI := PI_RGT_0). unfold wrap_to_pi.
  replace (a + IZR k * (2 * PI) + PI) with (a + PI + IZR k * (2 * PI)) by lra.
  rewrite np_mod_shift by lra. done.
Qed.

Lemma wrap_to_pi_fixed (a : R) : - PI <= a < PI -> wrap_to_pi a = a.
Proof.
  intros Ha. unfold wrap_to_pi. rewrite np_mod_small by lra. lra.
Qed.

Lemma wrap_to_pi_range (a : R) : - PI <= wrap_to_pi a < PI.
Proof.
  assert (HPI := PI_RGT_0). unfold wrap_to_pi.
  destruct (np_mod_range (a + PI) (2 * PI)); lra.
Qed.

(** X1: adding a whole number of turns to an angle does not change its
    wrapped value. *)
Theorem wrap_to_pi_periodic (a : R) (k : Z) :
  wrap_to_pi (a + IZR k * (2 * PI)) = wrap_to_pi a.
Proof. apply wrap_to_pi_shift. Qed.

(** X2: wrapping is idempotent, and an angle already in [[-PI, PI)] is
    returned as it is. *)
Theorem wrap_to_pi_idempotent (a : R) :
  wrap_to_pi (wrap_to_pi a) = wrap_to_pi a /\
  (- PI <= a < PI -> wrap_to_pi a = a).
Proof.
  split; [| apply wrap_to_pi_fixed].
  apply wrap_to_pi_fixed, wrap_to_pi_range.
Qed.

(** ** Turn angles and their contributions *)

Lemma turn_angles_lookup (coords : LineString) :
  forall (k : nat) (p q r : R * R),
    coords !! k = Some p -> coords !! S k = Some q ->
    coords !! S (S k) = Some r ->
    turn_angles coords !! k = Some (turn_angle p q r).
Proof.
  induction coords as [|a coords IH]; intros k p q r Hp Hq Hr; [done |].
  destruct coords as [|b [|c rest]]; try done.
  destruct k as [|k].
  - simpl in *. congruence.
  - change (turn_angles (a :: b :: c :: rest))
      with (turn_angle a b c :: turn_angles (b :: c :: rest)).
    simpl. apply IH; done.
Qed.

(** X3: on a line of at least two vertices [angles_along_line] returns
    one angle per interior vertex, the one at vertex [k + 1] computed
    from the directions into and out of it; on fewer vertices it raises
    [ValueError], on a multi-part geometry [NotImplementedError]. *)
Theorem angles_along_line_entries (line : Geometry) :
  match line with
  | GMultiLineString _ => angles_along_line line = Raise NotImplementedError
  | GLineString coords =>
      if decide (length coords < 2)%nat
      then angles_along_line line = Raise ValueError
      else exists angles,
        angles_along_line line = Ok angles /\
        length angles = (length coords - 2)%nat /\
        forall k p q r,
          coords !! k = Some p -> coords !! S k = Some q ->
          coords !! S (S k) = Some r ->
          angles !! k = Some (turn_angle p q r)
  end.
Proof.
  destruct line as [coords|parts]; [| done].
  destruct (decide (length coords < 2)%nat) as [Hlt|Hge].
  - by apply angles_along_line_short.
  - exists (turn_angles coords). split; [apply angles_along_line_spec; lia |].
    split; [apply turn_angles_length |]. apply turn_angles_lookup.
Qed.

(** X4: the branch on [angle_temp - angle_temp_prev < np.pi] does not
    matter once the angle is wrapped: both branches wrap to the wrapped
    value of the change of direction plus [PI]. *)
Theorem turn_angle_branch_irrelevant (p q r : R * R) :
  wrap_to_pi (turn_angle p q r) =
  wrap_to_pi (np_arctan2 (r.1 - q.1) (r.2 - q.2)
              - np_arctan2 (q.1 - p.1) (q.2 - p.2) + PI).
Proof.
  unfold turn_angle. cbv zeta.
  set (d := np_arctan2 (r.1 - q.1) (r.2 - q.2)
            - np_arctan2 (q.1 - p.1) (q.2 - p.2)).
  destruct (Rlt_dec d PI); [done |].
  replace (d - PI) with (d + PI + IZR (-1) * (2 * PI)) by (simpl; lra).
  apply wrap_to_pi_shift.
Qed.

Lemma contribution_range (a : R) : 0 <= PI - Rabs (wrap_to_pi a) <= PI.
Proof.
  destruct (wrap_to_pi_range a) as [Hlo Hhi].
  pose proof (Rabs_pos (wrap_to_pi a)).
  assert (Rabs (wrap_to_pi a) <= PI) by (apply Rabs_le; lra). lra.
Qed.

Lemma py_sum_from (l : list R) (acc : R) :
  fold_left Rplus l acc = acc + py_sum l.
Proof.
  unfold py_sum. revert acc. induction l as [|v l IH]; intros acc; simpl.
  - lra.
  - rewrite IH, (IH (0 + v)). lra.
Qed.

Lemma py_sum_cons (v : R) (l : list R) : py_sum (v :: l) = v + py_sum l.
Proof. unfold py_sum at 1. simpl. rewrite py_sum_from. lra. Qed.

Lemma wrap_contributions_sum_range (angles : list R) :
  0 <= py_sum (wrap_contributions angles) <= INR (length angles) * PI.
Proof.
  induction angles as [|a angles IH].
  - unfold py_sum. simpl. lra.
  - unfold wrap_contributions in *. rewrite fmap_cons, py_sum_cons.
    pose proof (contribution_range a). simpl length. rewrite S_INR. lra.
Qed.

(** X5: every turn contribution lies between 0 and [PI], so the
    turn-angle sum of a route lies between 0 and [PI] times the number of
    its interior vertices. *)
Theorem turn_sum_range (coords : LineString) :
  (forall c, c ∈ wrap_contributions (turn_angles coords) -> 0 <= c <= PI) /\
  0 <= turn_sum coords <= INR (length coords - 2) * PI.
Proof.
  split.
  - intros c Hc. unfold wrap_contributions in Hc.
    apply list_elem_of_fmap in Hc as (a & -> & _). apply contribution_range.
  - unfold turn_sum. rewrite <- turn_angles_length.
    apply wrap_contributions_sum_range.
Qed.

Lemma np_arctan2_scale (k y x : R) :
  0 < k -> np_arctan2 (k * y) (k * x) = np_arctan2 y x.
Proof.
  intros Hk. unfold np_arctan2.
  repeat match goal with
  | |- context [Rlt_dec ?a ?b] => destruct (Rlt_dec a b)
  | |- context [Rle_dec ?a ?b] => destruct (Rle_dec a b)
  end; try (exfalso; nra); try reflexivity;
  replace (k * y / (k * x)) with (y / x) by (field; lra); reflexivity.
Qed.

Lemma np_arctan2_opposite (k y x : R) :
  0 < k -> y <> 0 \/ x <> 0 ->
  np_arctan2 (- (k * y)) (- (k * x)) - np_arctan2 y x = PI \/
  np_arctan2 (- (k * y)) (- (k * x)) - np_arctan2 y x = - PI.
Proof.
  intros Hk Hnz. unfold np_arctan2.
  repeat match goal with
  | |- context [Rlt_dec ?a ?b] => destruct (Rlt_dec a b)
  | |- context [Rle_dec ?a ?b] => destruct (Rle_dec a b)
  end; try (exfalso; destruct Hnz; nra);
  try (replace (- (k * y) / - (k * x)) with (y / x) by (field; lra));
  first [left; lra | right; lra].
Qed.

Lemma wrap_to_pi_PI : wrap_to_pi PI = - PI.
Proof.
  assert (HPI := PI_RGT_0).
  replace PI with (- PI + IZR 1 * (2 * PI)) at 1 by lra.
  rewrite wrap_to_pi_shift. apply wrap_to_pi_fixed. lra.
Qed.

(** X6: a vertex the route passes straight through (the step out of it
    is a positive multiple of the step into it) contributes 0 to the
    turn-angle sum. *)
Theorem straight_vertex_contributes_zero (p q r : R * R) (k : R) :
  0 < k ->
  r.1 - q.1 = k * (q.1 - p.1) -> r.2 - q.2 = k * (q.2 - p.2) ->
  PI - Rabs (wrap_to_pi (turn_angle p q r)) = 0.
Proof.
  intros Hk H1 H2. assert (HPI := PI_RGT_0).
  unfold turn_angle. cbv zeta. rewrite H1, H2, np_arctan2_scale by done.
  set (a := np_arctan2 (q.1 - p.1) (q.2 - p.2)).
  destruct (Rlt_dec (a - a) PI) as [_|Hn]; [| lra].
  replace (a - a + PI) with PI by lra.
  rewrite wrap_to_pi_PI, Rabs_Ropp, Rabs_right; lra.
Qed.

Lemma straight_vertex_contributes_zero_witness :
  PI - Rabs (wrap_to_pi (turn_angle (0, 0) (1, 2) (3, 6))) = 0.
Proof.
  apply (straight_vertex_contributes_zero (0, 0) (1, 2) (3, 6) 2);
    simpl; lra.
Defined.

(** X7: a vertex at which the route doubles back (the step out of it is
    a negative multiple of a non-zero step into it) contributes [PI]. *)
Theorem reversal_vertex_contributes_pi (p q r : R * R) (k : R) :
  0 < k -> q.1 - p.1 <> 0 \/ q.2 - p.2 <> 0 ->
  r.1 - q.1 = - (k * (q.1 - p.1)) -> r.2 - q.2 = - (k * (q.2 - p.2)) ->
  PI - Rabs (wrap_to_pi (turn_angle p q r)) = PI.
Proof.
  intros Hk Hnz H1 H2. assert (HPI := PI_RGT_0).
  unfold turn_angle. cbv zeta. rewrite H1, H2.
  destruct (np_arctan2_opposite k (q.1 - p.1) (q.2 - p.2) Hk Hnz) as [E | E];
    rewrite E.
  - destruct (Rlt_dec PI PI) as [Hlt|_]; [lra |].
    replace (PI - PI) with 0 by lra.
    rewrite wrap_to_pi_fixed by lra. rewrite Rabs_R0. lra.
  - destruct (Rlt_dec (- PI) PI) as [_|Hn]; [| lra].
    replace (- PI + PI) with 0 by lra.
    rewrite wrap_to_pi_fixed by lra. rewrite Rabs_R0. lra.
Qed.

Lemma reversal_vertex_contributes_pi_witness :
  PI - Rabs (wrap_to_pi (turn_angle (0, 0) (1, 2) (-1, -2))) = PI.
Proof.
  apply (reversal_vertex_contributes_pi (0, 0) (1, 2) (-1, -2) 2);
    simpl; lra.
Defined.

(** ** The classification and the relay point of one route *)

Lemma argmax_from_spec (l : list R) :
  forall (pre : list R) (best_i : nat) (best : R),
    (best_i < length pre)%nat ->
    pre !! best_i = Some best ->
    (forall j w, pre !! j = Some w -> w <= best) ->
    (forall j w, (j < best_i)%nat -> pre !! j = Some w -> w < best) ->
    exists v,
      (pre ++ l) !! argmax_from best_i best (length pre) l = Some v /\
      (forall j w, (pre ++ l) !! j = Some w -> w <= v) /\
      (forall j w, (j < argmax_from best_i best (length pre) l)%nat ->
         (pre ++ l) !! j = Some w -> w < v).
Proof.
  induction l as [|x l IH]; intros pre best_i best Hlt Hbest Hle Hfirst.
  - simpl. rewrite app_nil_r. exists best. done.
  - simpl argmax_from.
    replace (pre ++ x :: l) with ((pre ++ [x]) ++ l)
      by (by rewrite <- app_assoc).
    replace (S (length pre)) with (length (pre ++ [x]))
      by (rewrite length_app; simpl; lia).
    destruct (Rgtb x best) eqn:E.
    + apply Rgtb_true in E. apply IH.
      * rewrite length_app. simpl. lia.
      * rewrite lookup_app_r by lia. by rewrite Nat.sub_diag.
      * intros j w Hj. apply lookup_app_Some in Hj as [Hj | [Hge Hj]].
        -- specialize (Hle j w Hj). lra.
        -- destruct (j - length pre)%nat; simpl in Hj; [| done].
           injection Hj as ->. lra.
      * intros j w Hjlt Hj. rewrite lookup_app_l in Hj by done.
        specialize (Hle j w Hj). lra.
    + apply Rgtb_false in E. apply IH.
      * rewrite length_app. simpl. lia.
      * by apply lookup_app_l_Some.
      * intros j w Hj. apply lookup_app_Some in Hj as [Hj | [Hge Hj]].
        -- by apply (Hle j).
        -- destruct (j - length pre)%nat; simpl in Hj; [| done].
           injection Hj as ->. lra.
      * intros j w Hjlt Hj. rewrite lookup_app_l in Hj by lia.
        by apply (Hfirst j).
Qed.

Lemma np_argmax_spec (l : list R) (i : nat) :
  np_argmax l = Ok i ->
  exists v,
    l !! i = Some v /\
    (forall j w, l !! j = Some w -> w <= v) /\
    (forall j w, (j < i)%nat -> l !! j = Some w -> w < v).
Proof.
  destruct l as [|x l]; [done |]. intros [= <-].
  apply (argmax_from_spec l [x] 0 x).
  - simpl. lia.
  - done.
  - intros [|j] w Hj; simpl in Hj; [| done]. injection Hj as ->. lra.
  - intros j w Hj. lia.
Qed.

Lemma cons_orthogonal_route_relay (coords : LineString) (max_angle : R) :
  (3 <= length coords)%nat ->
  exists i relay,
    np_argmax (wrap_contributions (turn_angles coords)) = Ok i /\
    coords !! (i + 1)%nat = Some relay /\
    cons_orthogonal_route (GLineString coords) max_angle =
    Ok (if Rlt_dec (turn_sum coords) max_angle then true else false, relay).
Proof.
  intros Hlen. unfold cons_orthogonal_route.
  rewrite angles_along_line_spec by lia.
  change (Ok ?a ≫= ?f) with (f a). cbv beta zeta.
  destruct (np_argmax_ok (wrap_contributions (turn_angles coords)))
    as (i & Hi & Hlt).
  { intros E. apply (f_equal length) in E.
    unfold wrap_contributions in E.
    rewrite length_fmap, turn_angles_length in E. simpl in E. lia. }
  rewrite Hi. change (Ok ?a ≫= ?f) with (f a). cbv beta.
  change (geom_coords (GLineString coords)) with (Ok coords).
  change (Ok ?a ≫= ?f) with (f a). cbv beta.
  unfold wrap_contributions in Hlt.
  rewrite length_fmap, turn_angles_length in Hlt.
  destruct (lookup_lt_is_Some_2 coords (i + 1)) as [relay Hrelay]; [lia |].
  rewrite Hrelay. by exists i, relay.
Qed.

(** X8: for a route of at least three vertices the classification is
    decided by the bounds of the sum: no route is orthogonal under a
    maximum of 0 or less, and every route is orthogonal under a maximum
    above [PI] times the number of its interior vertices. *)
Theorem cons_orthogonal_route_thresholds (coords : LineString)
    (max_angle : R) :
  (3 <= length coords)%nat ->
  exists is_orthogonal relay,
    cons_orthogonal_route (GLineString coords) max_angle
      = Ok (is_orthogonal, relay) /\
    (max_angle <= 0 -> is_orthogonal = false) /\
    (INR (length coords - 2) * PI < max_angle -> is_orthogonal = true).
Proof.
  intros Hlen.
  destruct (cons_orthogonal_route_relay coords max_angle Hlen)
    as (i & relay & _ & _ & Hrun).
  eexists _, relay. split; [exact Hrun |].
  pose proof (wrap_contributions_sum_range (turn_angles coords)) as Hsum.
  rewrite turn_angles_length in Hsum. fold (turn_sum coords) in Hsum.
  destruct (Rlt_dec (turn_sum coords) max_angle); split; intros; (done || lra).
Qed.

Lemma cons_orthogonal_route_thresholds_witness :
  exists is_orthogonal relay,
    cons_orthogonal_route (GLineString [(0, 0); (3, 0); (3, 4)]) 4
      = Ok (is_orthogonal, relay) /\
    (4 <= 0 -> is_orthogonal = false) /\
    (INR (length [(0, 0); (3, 0); (3, 4)] - 2) * PI < 4 ->
     is_orthogonal = true).
Proof.
  apply (cons_orthogonal_route_thresholds [(0, 0); (3, 0); (3, 4)] 4).
  simpl. lia.
Defined.

(** X9: for a route of at least three vertices the relay point is an
    interior vertex of the route, the first one whose turn contribution
    is the largest. *)
Theorem cons_orthogonal_route_relay_is_first_max (coords : LineString)
    (max_angle : R) :
  (3 <= length coords)%nat ->
  exists is_orthogonal relay i c,
    cons_orthogonal_route (GLineString coords) max_angle
      = Ok (is_orthogonal, relay) /\
    (1 <= i + 1 <= length coords - 2)%nat /\
    coords !! (i + 1)%nat = Some relay /\
    wrap_contributions (turn_angles coords) !! i = Some c /\
    (forall j c', wrap_contributions (turn_angles coords) !! j = Some c' ->
       c' <= c) /\
    (forall j c', (j < i)%nat ->
       wrap_contributions (turn_angles coords) !! j = Some c' -> c' < c).
Proof.
  intros Hlen.
  destruct (cons_orthogonal_route_relay coords max_angle Hlen)
    as (i & relay & Hi & Hrelay & Hrun).
  destruct (np_argmax_spec _ _ Hi) as (c & Hc & Hmax & Hfirst).
  eexists _, relay, i, c. split; [exact Hrun |].
  split; [| done].
  apply lookup_lt_Some in Hc. unfold wrap_contributions in Hc.
  rewrite length_fmap, turn_angles_length in Hc. lia.
Qed.

Lemma cons_orthogonal_route_relay_is_first_max_witness :
  exists is_orthogonal relay i c,
    cons_orthogonal_route (GLineString [(0, 0); (3, 0); (3, 4)]) PI
      = Ok (is_orthogonal, relay) /\
    (1 <= i + 1 <= length [(0, 0); (3, 0); (3, 4)] - 2)%nat /\
    [(0, 0); (3, 0); (3, 4)] !! (i + 1)%nat = Some relay /\
    wrap_contributions (turn_angles [(0, 0); (3, 0); (3, 4)]) !! i = Some c /\
    (forall j c',
       wrap_contributions (turn_angles [(0, 0); (3, 0); (3, 4)]) !! j
         = Some c' -> c' <= c) /\
    (forall j c', (j < i)%nat ->
       wrap_contributions (turn_angles [(0, 0); (3, 0); (3, 4)]) !! j
         = Some c' -> c' < c).
Proof.
  apply (cons_orthogonal_route_relay_is_first_max
           [(0, 0); (3, 0); (3, 4)] PI).
  simpl. lia.
Defined.

(** ** The visibility graph builder: what it keeps *)

Section BuilderKeeps.
Context {Polygon : Type}.
Variable intersects : LineString -> Polygon -> bool.
Variable buildings : list Polygon.
Variable max_distance : R.

Local Abbreviation add_edges_if_los' :=
  (add_edges_if_los intersects buildings max_distance).
Local Abbreviation los_edge' := (los_edge intersects buildings max_distance).
Local Abbreviation visit' := (visit intersects buildings max_distance).
Local Abbreviation visited_adj' :=
  (visited_adj intersects buildings max_distance).

Lemma fold_visit_graph_node_veh (ps : list (Node * Node)) (g : MultiGraph) :
  graph_node_veh (fold_left visit' ps g) = graph_node_veh g.
Proof.
  revert g. induction ps as [|p ps IH]; intros g; simpl; [done |].
  rewrite IH. unfold visit. destruct (has_edge g p.1 p.2); [done |].
  by destruct (los_edge' g p.1 p.2).
Qed.

(** The key dictionary of any two nodes after the run. *)
Lemma add_edges_if_los_adj (g : MultiGraph) (a b : Node) :
  wf_graph g ->
  adj (fold_left visit' (pairs (nodes g)) g) !! (a, b) =
  if decide ((a, b) ∈ pairs (nodes g)) then visited_adj' g a b
  else if decide ((b, a) ∈ pairs (nodes g)) then visited_adj' g b a
  else adj g !! (a, b).
Proof.
  intros [Hnd Hc Hs].
  destruct (fold_visit_adj intersects buildings max_distance
              (pairs (nodes g)) g (pairs_NoDup _ Hnd)
              (fun a b => pairs_no_swap _ a b Hnd) Hs) as (Hs1 & Hin & Hout).
  destruct (decide ((a, b) ∈ pairs (nodes g))) as [Hab|Hab]; [by apply Hin |].
  destruct (decide ((b, a) ∈ pairs (nodes g))) as [Hba|Hba].
  - rewrite Hs1. by apply Hin.
  - by apply Hout.
Qed.

(** X10: the builder keeps a well-formed street graph well formed, with
    the same nodes, node attributes and graph attributes. *)
Theorem add_edges_if_los_keeps_wf (g : MultiGraph) :
  wf_graph g ->
  exists g1,
    add_edges_if_los' g = (Ok tt, g1) /\
    wf_graph g1 /\
    node g1 = node g /\
    graph_node_veh g1 = graph_node_veh g.
Proof.
  intros Hwf. pose proof Hwf as [Hnd Hc Hs].
  exists (fold_left visit' (pairs (nodes g)) g).
  split; [by apply add_edges_if_los_run |].
  assert (Hn : node (fold_left visit' (pairs (nodes g)) g) = node g)
    by apply fold_visit_node.
  split; [| split; [done | apply fold_visit_graph_node_veh]].
  set (g1 := fold_left visit' (pairs (nodes g)) g) in *.
  split.
  - unfold nodes. rewrite Hn. exact Hnd.
  - by apply (has_coords_node g).
  - by apply (fold_visit_adj intersects buildings max_distance
                (pairs (nodes g)) g (pairs_NoDup _ Hnd)
                (fun a b => pairs_no_swap _ a b Hnd) Hs).
Qed.

(** X11: the builder never removes or changes an edge: the parallel
    edges between any two nodes that were adjacent are afterwards what
    they were. *)
Theorem add_edges_if_los_keeps_edges (g : MultiGraph) (a b : Node)
    (keydict : list EdgeAttr) :
  wf_graph g ->
  adj g !! (a, b) = Some keydict ->
  exists g1,
    add_edges_if_los' g = (Ok tt, g1) /\
    adj g1 !! (a, b) = Some keydict.
Proof.
  intros Hwf Hab. pose proof Hwf as [Hnd Hc Hs].
  exists (fold_left visit' (pairs (nodes g)) g).
  split; [by apply add_edges_if_los_run |].
  rewrite add_edges_if_los_adj by done. unfold visited_adj.
  rewrite <- (Hs a b), Hab. by repeat case_decide.
Qed.

(** X12: whatever the builder adds is a single edge between two
    different nodes that were not adjacent, no longer than
    [max_distance], whose length is the Euclidean distance of its end
    nodes and whose geometry is the two-point line between them. *)
Theorem add_edges_if_los_new_edges (g : MultiGraph) (a b : Node) :
  wf_graph g ->
  adj g !! (a, b) = None ->
  exists g1,
    add_edges_if_los' g = (Ok tt, g1) /\
    forall keydict,
      adj g1 !! (a, b) = Some keydict ->
      a <> b /\
      exists coords_a coords_b,
        node_coords g a = Ok coords_a /\ node_coords g b = Ok coords_b /\
        (forall bd, bd ∈ buildings ->
           intersects [coords_a; coords_b] bd = false \/
           intersects [coords_b; coords_a] bd = false) /\
        ((euclid coords_a coords_b <= max_distance /\
          keydict = [mkEdgeAttr (euclid coords_a coords_b)
                       (Some [coords_a; coords_b])]) \/
         (euclid coords_b coords_a <= max_distance /\
          keydict = [mkEdgeAttr (euclid coords_b coords_a)
                       (Some [coords_b; coords_a])])).
Proof.
  intros Hwf Hab. pose proof Hwf as [Hnd Hc Hs].
  exists (fold_left visit' (pairs (nodes g)) g).
  split; [by apply add_edges_if_los_run |]. intros keydict Hkd.
  rewrite add_edges_if_los_adj in Hkd by done.
  assert (Hba : adj g !! (b, a) = None) by (by rewrite <- (Hs a b)).
  assert (Hneq : forall u v, (u, v) ∈ pairs (nodes g) -> u <> v).
  { intros u v Huv ->.
    apply elem_of_pairs_lookup in Huv as (i & j & Hij & Hi & Hj).
    assert (i = j) by (by eapply NoDup_lookup). lia. }
  assert (Hcase : forall u v kd,
            adj g !! (u, v) = None -> visited_adj' g u v = Some kd ->
            exists cu cv,
              node_coords g u = Ok cu /\ node_coords g v = Ok cv /\
              (forall bd, bd ∈ buildings -> intersects [cu; cv] bd = false) /\
              euclid cu cv <= max_distance /\
              kd = [mkEdgeAttr (euclid cu cv) (Some [cu; cv])]).
  { intros u v kd Hnone Hv. unfold visited_adj, los_edge in Hv.
    rewrite Hnone in Hv.
    destruct (node_coords g u) as [cu|]; [| done].
    destruct (node_coords g v) as [cv|]; [| done].
    destruct (Rgtb (euclid cu cv) max_distance) eqn:Ed; [done |].
    destruct (line_intersects_buildings intersects [cu; cv] buildings)
      eqn:Eb; [done |].
    apply Rgtb_false in Ed. injection Hv as <-.
    exists cu, cv. repeat split; try done; [| lra].
    by apply (proj1 (line_intersects_buildings_false intersects _ _)). }
  destruct (decide ((a, b) ∈ pairs (nodes g))) as [Hin|Hnin].
  - split; [by apply Hneq |].
    destruct (Hcase a b keydict Hab Hkd) as (ca & cb & Ha & Hb & Hcl & Hd & ->).
    exists ca, cb. repeat split; try done; [| by left].
    intros bd Hbd. left. by apply Hcl.
  - destruct (decide ((b, a) ∈ pairs (nodes g))) as [Hin|Hnin'];
      [| congruence].
    split; [intros ->; by apply (Hneq b b) |].
    destruct (Hcase b a keydict Hba Hkd) as (cb & ca & Hb & Ha & Hcl & Hd & ->).
    exists ca, cb. repeat split; try done; [| by right].
    intros bd Hbd. right. by apply Hcl.
Qed.
End BuilderKeeps.

Lemma add_edges_if_los_keeps_wf_witness :
  exists g1,
    add_edges_if_los never_intersects no_buildings max_distance_default
      scene_corner = (Ok tt, g1) /\
    wf_graph g1 /\
    node g1 = node scene_corner /\
    graph_node_veh g1 = graph_node_veh scene_corner.
Proof.
  apply (add_edges_if_los_keeps_wf never_intersects no_buildings
           max_distance_default scene_corner).
  apply scene_corner_wf.
Defined.

Lemma add_edges_if_los_keeps_edges_witness :
  exists g1,
    add_edges_if_los never_intersects no_buildings max_distance_default
      scene_corner = (Ok tt, g1) /\
    adj g1 !! (inl 1%Z, inl 2%Z) =
      Some [mkEdgeAttr 30 (Some [(0, 0); (30, 0)])].
Proof.
  apply (add_edges_if_los_keeps_edges never_intersects no_buildings
           max_distance_default scene_corner).
  - apply scene_corner_wf.
  - reflexivity.
Defined.

Lemma add_edges_if_los_new_edges_witness :
  exists g1,
    add_edges_if_los never_intersects no_buildings max_distance_default
      scene_corner = (Ok tt, g1) /\
    forall keydict,
      adj g1 !! (inl 1%Z, inl 3%Z) = Some keydict ->
      @inl Z string 1%Z <> inl 3%Z /\
      exists coords_a coords_b,
        node_coords scene_corner (inl 1%Z) = Ok coords_a /\
        node_coords scene_corner (inl 3%Z) = Ok coords_b /\
        (forall bd, bd ∈ no_buildings ->
           never_intersects [coords_a; coords_b] bd = false \/
           never_intersects [coords_b; coords_a] bd = false) /\
        ((euclid coords_a coords_b <= max_distance_default /\
          keydict = [mkEdgeAttr (euclid coords_a coords_b)
                       (Some [coords_a; coords_b])]) \/
         (euclid coords_b coords_a <= max_distance_default /\
          keydict = [mkEdgeAttr (euclid coords_b coords_a)
                       (Some [coords_b; coords_a])])).
Proof.
  apply (add_edges_if_los_new_edges never_intersects no_buildings
           max_distance_default scene_corner (inl 1%Z) (inl 3%Z)).
  - apply scene_corner_wf.
  - reflexivity.
Defined.

(** ** The visibility classifier *)

Section Classifier.
Context {Polygon : Type}.
Variable intersects : LineString -> Polygon -> bool.

Lemma line_intersects_buildings_true (line : LineString)
    (bs : list Polygon) :
  line_intersects_buildings intersects line bs = true <->
  exists b, b ∈ bs /\ intersects line b = true.
Proof.
  induction bs as [|b bs IH]; simpl.
  - split; [done |]. intros (b & Hb & _). by apply elem_of_nil in Hb.
  - destruct (intersects line b) eqn:E.
    + split; [intros _; exists b; split; [left | done] | done].
    + rewrite IH. split.
      * intros (b' & Hb' & Hi). exists b'. split; [by right | done].
      * intros (b' & Hb' & Hi). apply elem_of_cons in Hb' as [-> | Hb'].
        -- congruence.
        -- by exists b'.
Qed.

(** X13: [veh_cons_are_nlos] returns one flag per vehicle, and the flag
    of a vehicle is [True] exactly when some building intersects the
    straight line from [point_own] to it. *)
Theorem veh_cons_are_nlos_iff (point_own : R * R) (point_vehs : list (R * R))
    (buildings : list Polygon) :
  length (veh_cons_are_nlos intersects point_own point_vehs buildings)
    = length point_vehs /\
  forall index,
    veh_cons_are_nlos intersects point_own point_vehs buildings !! index
      = Some true <->
    exists point b,
      point_vehs !! index = Some point /\ b ∈ buildings /\
      intersects [point_own; point] b = true.
Proof.
  unfold veh_cons_are_nlos. split; [apply length_fmap |].
  intros index. rewrite list_lookup_fmap.
  destruct (point_vehs !! index) as [point|]; simpl.
  - split.
    + intros [= H]. apply line_intersects_buildings_true in H as (b & Hb & Hi).
      by exists point, b.
    + intros (point' & b & [= <-] & Hb & Hi). f_equal.
      apply line_intersects_buildings_true. by exists b.
  - split; [done | by intros (? & ? & ? & _)].
Qed.

(** X14: the order of the building footprints does not affect the
    flags. *)
Theorem veh_cons_are_nlos_buildings_order (point_own : R * R)
    (point_vehs : list (R * R)) (buildings buildings' : list Polygon) :
  buildings ≡ₚ buildings' ->
  veh_cons_are_nlos intersects point_own point_vehs buildings =
  veh_cons_are_nlos intersects point_own point_vehs buildings'.
Proof.
  intros Hperm. unfold veh_cons_are_nlos. apply list_fmap_ext.
  intros _ point _. cbv zeta.
  destruct (line_intersects_buildings intersects [point_own; point]
              buildings') eqn:E.
  - apply line_intersects_buildings_true in E as (b & Hb & Hi).
    apply line_intersects_buildings_true. exists b. split; [| done].
    by rewrite Hperm.
  - apply line_intersects_buildings_false. intros b Hb.
    apply (proj1 (line_intersects_buildings_false intersects _ _) E).
    by rewrite <- Hperm.
Qed.
End Classifier.

Lemma veh_cons_are_nlos_buildings_order_witness :
  veh_cons_are_nlos (fun _ (b : bool) => b) (0, 0) [(10, 0); (5, 3)]
    [true; false] =
  veh_cons_are_nlos (fun _ (b : bool) => b) (0, 0) [(10, 0); (5, 3)]
    [false; true].
Proof.
  apply (veh_cons_are_nlos_buildings_order (fun _ (b : bool) => b) (0, 0)
           [(10, 0); (5, 3)] [true; false] [false; true]).
  apply Permutation_swap.
Defined.

(** X15: widening the margin never turns an OLOS pair into a LOS pair. *)
Theorem veh_cons_are_olos_margin_monotone (point_own : R * R)
    (point_vehs : list (R * R)) (margin margin' : R) (index : nat) :
  margin <= margin' ->
  veh_cons_are_olos point_own point_vehs margin !! index = Some true ->
  veh_cons_are_olos point_own point_vehs margin' !! index = Some true.
Proof.
  intros Hm. unfold veh_cons_are_olos. rewrite !list_lookup_imap.
  destruct (point_vehs !! index) as [point|]; simpl; [| done].
  intros [= H]. f_equal.
  apply line_intersects_points_true in H as (q & Hq & Hroi & Hd).
  apply line_intersects_points_true. exists q. repeat split; try done.
  - apply Hroi.
  - apply Hroi.
  - lra.
Qed.

Lemma veh_cons_are_olos_margin_monotone_witness :
  veh_cons_are_olos (0, 0) [(10, 0); (5, 3 / 2)] 3 !! 0%nat = Some true.
Proof.
  apply (veh_cons_are_olos_margin_monotone (0, 0) [(10, 0); (5, 3 / 2)]
           margin_main_test 3 0%nat).
  - unfold margin_main_test. lra.
  - apply veh_cons_are_olos_main_test_margin.
Defined.

Lemma seg_length_degenerate (p : R * R) : seg_length (mkSegment p p) = 0.
Proof. apply euclid_sq; simpl; lra. Qed.

(** X16: a vehicle at the position of the own vehicle is never OLOS,
    whatever the other vehicles and the margin: nothing projects
    strictly inside a segment of length 0. *)
Theorem veh_cons_are_olos_degenerate (point_own : R * R)
    (point_vehs : list (R * R)) (margin : R) (index : nat) :
  point_vehs !! index = Some point_own ->
  veh_cons_are_olos point_own point_vehs margin !! index = Some false.
Proof.
  intros Hp. unfold veh_cons_are_olos. rewrite list_lookup_imap, Hp. simpl.
  f_equal. apply not_true_is_false. intros H.
  apply line_intersects_points_true in H as (q & _ & Hroi & _).
  simpl in Hroi. rewrite seg_length_degenerate in Hroi. lra.
Qed.

Lemma veh_cons_are_olos_degenerate_witness :
  veh_cons_are_olos (0, 0) [(0, 0); (5, 3)] 2 !! 0%nat = Some false.
Proof.
  apply (veh_cons_are_olos_degenerate (0, 0) [(0, 0); (5, 3)] 2 0%nat).
  reflexivity.
Defined.

(** ** The route between two nodes *)

Lemma min_by_length_spec (l : list EdgeAttr) :
  forall best : EdgeAttr,
    min_by_length best l ∈ best :: l /\
    forall d, d ∈ best :: l ->
      edge_length (min_by_length best l) <= edge_length d.
Proof.
  induction l as [|x l IH]; intros best; simpl.
  - split; [left |]. intros d Hd. apply list_elem_of_singleton in Hd as ->. lra.
  - destruct (Rlt_dec (edge_length x) (edge_length best)) as [Hlt|Hge].
    + destruct (IH x) as [Hin Hmin]. split.
      * by right.
      * intros d Hd. apply elem_of_cons in Hd as [-> | Hd].
        -- specialize (Hmin x (list_elem_of_here _ _)). lra.
        -- by apply Hmin.
    + destruct (IH best) as [Hin Hmin]. split.
      * apply elem_of_cons in Hin as [-> | Hin]; [left | right; by right].
      * intros d Hd. apply elem_of_cons in Hd as [-> | Hd].
        -- apply Hmin. left.
        -- apply elem_of_cons in Hd as [-> | Hd].
           ++ specialize (Hmin best (list_elem_of_here _ _)). lra.
           ++ apply Hmin. by right.
Qed.

Lemma route_lines_spec (graph : MultiGraph) (edge_nodes : list (Node * Node)) :
  forall lines,
    route_lines graph edge_nodes = Ok lines ->
    length lines = length edge_nodes /\
    forall k u v line,
      edge_nodes !! k = Some (u, v) -> lines !! k = Some line ->
      exists keydict data,
        adj graph !! (u, v) = Some keydict /\ data ∈ keydict /\
        edge_geometry data = Some line /\
        forall d, d ∈ keydict -> edge_length data <= edge_length d.
Proof.
  induction edge_nodes as [|[a b] ens IH]; intros lines Hrun.
  - injection Hrun as <-. split; [done |]. by intros k u v line Hk.
  - simpl in Hrun. unfold edge_values in Hrun.
    destruct (adj graph !! (a, b)) as [kd|] eqn:Hkd; [| done].
    simpl in Hrun. destruct kd as [|d ds]; [done |]. simpl in Hrun.
    destruct (edge_geometry (min_by_length d ds)) as [geometry|] eqn:Hgeo;
      [| done].
    simpl in Hrun.
    destruct (route_lines graph ens) as [lines'|] eqn:Hrest; [| done].
    simpl in Hrun. injection Hrun as <-.
    destruct (IH lines' eq_refl) as [Hlen Hspec].
    split; [simpl; by rewrite Hlen |].
    intros k u v line Hk Hline. destruct k as [|k]; simpl in Hk, Hline.
    + injection Hk as <- <-. injection Hline as <-.
      destruct (min_by_length_spec ds d) as [Hin Hmin].
      by exists (d :: ds), (min_by_length d ds).
    + by apply (Hspec k).
Qed.

Lemma edge_nodes_of_lookup (route : list Node) (k : nat) (a b : Node) :
  edge_nodes_of route !! k = Some (a, b) <->
  route !! k = Some a /\ route !! S k = Some b.
Proof.
  unfold edge_nodes_of. rewrite lookup_zip_Some, lookup_take_Some.
  rewrite lookup_drop. change (1 + k)%nat with (S k). split.
  - by intros [[Ha _] Hb].
  - intros [Ha Hb]. split; [| done]. split; [done |].
    apply lookup_lt_Some in Hb. lia.
Qed.

Section RouteFacts.
Variable nx_shortest_path : MultiGraph -> Node -> Node -> result (list Node).
Variable linemerge : list LineString -> Geometry.

Local Abbreviation line_route_between_nodes' :=
  (line_route_between_nodes nx_shortest_path linemerge).

(** X17: when [line_route_between_nodes] returns, the line is the merge
    of one geometry per hop of the shortest path, and the geometry of a
    hop is that of a shortest of the parallel edges between its two
    nodes. *)
Theorem line_route_between_nodes_lines (node_from node_to : Node)
    (graph : MultiGraph) :
  match line_route_between_nodes' node_from node_to graph with
  | Raise _ => True
  | Ok line =>
      exists route lines,
        nx_shortest_path graph node_from node_to = Ok route /\
        line = linemerge lines /\
        length lines = (length route - 1)%nat /\
        forall k a b geometry,
          route !! k = Some a -> route !! S k = Some b ->
          lines !! k = Some geometry ->
          exists keydict data,
            adj graph !! (a, b) = Some keydict /\ data ∈ keydict /\
            edge_geometry data = Some geometry /\
            forall d, d ∈ keydict -> edge_length data <= edge_length d
  end.
Proof.
  unfold line_route_between_nodes.
  destruct (nx_shortest_path graph node_from node_to) as [route|e]; [| done].
  simpl.
  destruct (route_lines graph (edge_nodes_of route)) as [lines|e] eqn:Hl;
    [| done].
  simpl. exists route, lines. split; [done |]. split; [done |].
  destruct (route_lines_spec graph _ lines Hl) as [Hlen Hspec]. split.
  - rewrite Hlen. unfold edge_nodes_of.
    rewrite length_zip_with, length_take, length_drop. lia.
  - intros k a b geometry Ha Hb Hg. apply (Hspec k); [| done].
    by apply edge_nodes_of_lookup.
Qed.

Lemma route_lines_missing_edge (graph : MultiGraph)
    (edge_nodes : list (Node * Node)) (u v : Node) :
  (u, v) ∈ edge_nodes -> adj graph !! (u, v) = None ->
  raises (route_lines graph edge_nodes).
Proof.
  induction edge_nodes as [|[a b] ens IH]; intros Hin Hnone.
  { by apply elem_of_nil in Hin. }
  simpl. unfold edge_values.
  destruct (adj graph !! (a, b)) as [kd|] eqn:Hkd;
    [| by exists KeyError].
  simpl. destruct kd as [|d ds]; [by exists ValueError |]. simpl.
  destruct (edge_geometry (min_by_length d ds)); [| by exists KeyError].
  simpl. apply elem_of_cons in Hin as [[= -> ->] | Hin]; [congruence |].
  destruct (IH Hin Hnone) as [e ->]. by exists e.
Qed.

(** X18: [line_route_between_nodes] raises what the path search raises,
    and it raises when the path it is given steps between two nodes
    that have no edge. *)
Theorem line_route_between_nodes_raises (node_from node_to : Node)
    (graph : MultiGraph) :
  (forall e, nx_shortest_path graph node_from node_to = Raise e ->
     line_route_between_nodes' node_from node_to graph = Raise e) /\
  (forall route k a b,
     nx_shortest_path graph node_from node_to = Ok route ->
     route !! k = Some a -> route !! S k = Some b ->
     adj graph !! (a, b) = None ->
     raises (line_route_between_nodes' node_from node_to graph)).
Proof.
  unfold line_route_between_nodes. split.
  - intros e ->. done.
  - intros route k a b -> Ha Hb Hnone. simpl.
    destruct (route_lines_missing_edge graph (edge_nodes_of route) a b)
      as [e ->]; [| done | by exists e].
    apply list_elem_of_lookup. exists k. by apply edge_nodes_of_lookup.
Qed.
End RouteFacts.

(** ** The analyzer: what a returned result looks like *)

Section AnalyzerResult.
Variable nx_compose : MultiGraph -> MultiGraph -> MultiGraph.
Variable nx_shortest_path : MultiGraph -> Node -> Node -> result (list Node).
Variable linemerge : list LineString -> Geometry.

Local Abbreviation cons_orthogonal_loop' :=
  (cons_orthogonal_loop nx_compose nx_shortest_path linemerge).
Local Abbreviation check_if_cons_orthogonal' :=
  (check_if_cons_orthogonal nx_compose nx_shortest_path linemerge).
Local Abbreviation pair_row' :=
  (pair_row nx_compose nx_shortest_path linemerge).

Lemma cons_orthogonal_loop_sizes (node_own : Node) (sl : loc) (max_angle : R)
    (graphs : list loc) :
  forall (index : nat) (is_orthogonal : list bool)
    (coords_max_angle : list (R * R)) (s : store) io cma s',
    (index + length graphs <= length is_orthogonal)%nat ->
    (index + length graphs <= length coords_max_angle)%nat ->
    cons_orthogonal_loop' node_own sl max_angle index graphs
      is_orthogonal coords_max_angle s = (Ok (io, cma), s') ->
    length io = length is_orthogonal /\
    length cma = length coords_max_angle /\
    length s' = (length s + length graphs)%nat.
Proof.
  induction graphs as [|graph graphs IH];
    intros index io0 cma0 s io cma s' Hio Hcma Hrun.
  - injection Hrun as <- <- <-. simpl. repeat split; lia.
  - simpl in Hio, Hcma.
    destruct (s !! graph) as [g|] eqn:Hg.
    + destruct (s !! sl) as [local|] eqn:Hl.
      * pose proof (cons_orthogonal_loop_step nx_compose nx_shortest_path
                      linemerge node_own sl max_angle index graph graphs
                      io0 cma0 s g local Hg Hl ltac:(lia) ltac:(lia))
          as Hstep.
        destruct (pair_row' node_own local max_angle g) as [row|e].
        -- rewrite Hstep in Hrun.
           apply IH in Hrun as (H1 & H2 & H3);
             [| rewrite length_insert; lia | rewrite length_insert; lia].
           rewrite length_insert in H1. rewrite length_insert in H2.
           rewrite length_app in H3. simpl in *. repeat split; lia.
        -- destruct Hstep as [ext Hstep]. rewrite Hstep in Hrun. done.
      * exfalso. simpl in Hrun.
        rewrite M_bind_unfold, load_run, Hg in Hrun. simpl of_option in Hrun.
        cbv iota beta in Hrun. rewrite M_bind_unfold, lift_run in Hrun.
        destruct (graph_node_veh g) as [node_v|]; simpl of_option in Hrun;
          [| done].
        change (Ok node_v ≫= ?f) with (f node_v) in Hrun.
        cbv iota beta in Hrun.
        rewrite M_bind_unfold, compose_run, Hg, Hl in Hrun. done.
    + exfalso. simpl in Hrun.
      by rewrite M_bind_unfold, load_run, Hg in Hrun.
Qed.

(** X19: a result that is returned has one flag and one relay row per
    graph of [graphs_veh_other], and the call has then created one
    working graph for the own vehicle and one per other vehicle. *)
Theorem check_if_cons_orthogonal_result_sizes
    (streets_wave graph_veh_own : loc) (graphs_veh_other : list loc)
    (max_angle : R) (s : store) :
  match check_if_cons_orthogonal nx_compose nx_shortest_path linemerge
          streets_wave graph_veh_own graphs_veh_other max_angle s with
  | (Raise _, _) => True
  | (Ok (is_orthogonal, coords_max_angle), s') =>
      length is_orthogonal = length graphs_veh_other /\
      length coords_max_angle = length graphs_veh_other /\
      length s' = (length s + 1 + length graphs_veh_other)%nat
  end.
Proof.
  unfold check_if_cons_orthogonal.
  rewrite M_bind_unfold, load_run.
  destruct (s !! graph_veh_own) as [g_own|] eqn:Hown; simpl of_option;
    cbv iota beta; [| done].
  rewrite M_bind_unfold, lift_run.
  destruct (graph_node_veh g_own) as [node_own|]; simpl of_option;
    cbv iota beta; [| done].
  rewrite M_bind_unfold, compose_run, Hown.
  destruct (s !! streets_wave) as [g_streets|]; cbv iota beta; [| done].
  destruct (cons_orthogonal_loop' node_own (length s) max_angle 0
              graphs_veh_other (replicate (length graphs_veh_other) false)
              (replicate (length graphs_veh_other) (0, 0))
              (s ++ [nx_compose g_own g_streets]))
    as [[[io cma]|e] s'] eqn:Hrun; [| done].
  apply cons_orthogonal_loop_sizes in Hrun as (H1 & H2 & H3);
    [| by rewrite length_replicate | by rewrite length_replicate].
  rewrite length_replicate in H1. rewrite length_replicate in H2.
  rewrite length_app in H3. simpl in H3.
  repeat split; lia.
Qed.
End AnalyzerResult.

(** ** Street geometry: [add_geometry] and [check_geometry] *)

Lemma di_node_coords_nodes (streets streets' : MultiDiGraph) (u : Node) :
  di_node streets' = di_node streets ->
  di_node_coords streets' u = di_node_coords streets u.
Proof. intros E. unfold di_node_coords. by rewrite E. Qed.

Lemma di_node_coords_raises (streets : MultiDiGraph) (u : Node) (e : exn) :
  di_node_coords streets u = Raise e -> e = KeyError.
Proof.
  unfold di_node_coords.
  destruct (assoc u (di_node streets)) as [attr|]; simpl; [| congruence].
  destruct (attr_x attr); simpl; [| congruence].
  destruct (attr_y attr); simpl; [done | congruence].
Qed.

Lemma with_geometry_raises (streets : MultiDiGraph)
    (street : Node * Node * EdgeAttr) (e : exn) :
  with_geometry streets street = Raise e -> e = KeyError.
Proof.
  unfold with_geometry. destruct (edge_geometry street.2); [done |].
  destruct (di_node_coords streets street.1.1) eqn:E1; simpl.
  - destruct (di_node_coords streets street.1.2) eqn:E2; simpl; [done |].
    intros [= <-]. by eapply di_node_coords_raises.
  - intros [= <-]. by eapply di_node_coords_raises.
Qed.

(** The loop from a state whose first [length pre] edges have been
    passed: it goes through the remaining edges until one cannot be
    given a geometry. *)
Lemma add_geometry_loop_run (nodes : list (Node * NodeAttr))
    (todo : list (Node * Node * EdgeAttr)) :
  forall pre : list (Node * Node * EdgeAttr),
    (forall street, street ∈ todo ->
       exists street',
         with_geometry (mkMultiDiGraph nodes []) street = Ok street') ->
    exists filled,
      add_geometry_loop (length pre) todo (mkMultiDiGraph nodes (pre ++ todo))
        = (Ok tt, mkMultiDiGraph nodes (pre ++ filled)) /\
      Forall2 (fun street street' =>
                 with_geometry (mkMultiDiGraph nodes []) street = Ok street')
              todo filled.
Proof.
  induction todo as [|[[u v] data] todo IH]; intros pre Hall.
  - exists []. split; [done | constructor].
  - destruct (Hall (u, v, data) (list_elem_of_here _ _)) as [street' Hs].
    destruct (IH (pre ++ [street'])) as (filled & Hrun & Hfilled).
    { intros street Hin. apply Hall. by right. }
    exists (street' :: filled). split; [| by constructor].
    rewrite length_app in Hrun. simpl in Hrun.
    replace (length pre + 1)%nat with (S (length pre)) in Hrun by lia.
    rewrite <- !app_assoc in Hrun. simpl in Hrun.
    simpl add_geometry_loop. unfold with_geometry in Hs. simpl in Hs.
    destruct (edge_geometry data) as [geo|] eqn:Hgeo.
    + injection Hs as <-. exact Hrun.
    + rewrite M_bind_unfold. unfold get at 1. cbv iota beta.
      rewrite M_bind_unfold, lift_run.
      rewrite (di_node_coords_nodes (mkMultiDiGraph nodes [])) by done.
      destruct (di_node_coords (mkMultiDiGraph nodes []) u) as [c1|];
        [| done].
      simpl in Hs. cbv iota beta. rewrite M_bind_unfold, lift_run.
      rewrite (di_node_coords_nodes (mkMultiDiGraph nodes [])) by done.
      destruct (di_node_coords (mkMultiDiGraph nodes []) v) as [c2|];
        [| done].
      simpl in Hs. injection Hs as <-. cbv iota beta.
      rewrite M_bind_unfold. unfold modify at 1. cbv iota beta.
      simpl di_node. simpl di_edges.
      rewrite insert_app_r_alt by lia. rewrite Nat.sub_diag. simpl.
      exact Hrun.
Qed.

Lemma add_geometry_loop_raises (nodes : list (Node * NodeAttr))
    (todo : list (Node * Node * EdgeAttr)) :
  forall (pre : list (Node * Node * EdgeAttr)) street e,
    street ∈ todo ->
    with_geometry (mkMultiDiGraph nodes []) street = Raise e ->
    (add_geometry_loop (length pre) todo
       (mkMultiDiGraph nodes (pre ++ todo))).1 = Raise KeyError.
Proof.
  induction todo as [|[[u v] data] todo IH]; intros pre street e Hin Hs.
  { by apply elem_of_nil in Hin. }
  simpl add_geometry_loop.
  destruct (with_geometry (mkMultiDiGraph nodes []) (u, v, data))
    as [street'|e'] eqn:Hhead.
  - assert (Hin' : street ∈ todo).
    { apply elem_of_cons in Hin as [-> | Hin]; [congruence | done]. }
    pose proof (IH (pre ++ [street']) street e Hin' Hs) as Hrun.
    rewrite length_app in Hrun. simpl in Hrun.
    replace (length pre + 1)%nat with (S (length pre)) in Hrun by lia.
    rewrite <- !app_assoc in Hrun. simpl in Hrun.
    unfold with_geometry in Hhead. simpl in Hhead.
    destruct (edge_geometry data) as [geo|] eqn:Hgeo.
    + injection Hhead as <-. exact Hrun.
    + rewrite M_bind_unfold. unfold get at 1. cbv iota beta.
      rewrite M_bind_unfold, lift_run.
      rewrite (di_node_coords_nodes (mkMultiDiGraph nodes [])) by done.
      destruct (di_node_coords (mkMultiDiGraph nodes []) u) as [c1|];
        [| done].
      simpl in Hhead. cbv iota beta. rewrite M_bind_unfold, lift_run.
      rewrite (di_node_coords_nodes (mkMultiDiGraph nodes [])) by done.
      destruct (di_node_coords (mkMultiDiGraph nodes []) v) as [c2|];
        [| done].
      simpl in Hhead. injection Hhead as <-. cbv iota beta.
      rewrite M_bind_unfold. unfold modify at 1. cbv iota beta.
      simpl di_node. simpl di_edges.
      rewrite insert_app_r_alt by lia. rewrite Nat.sub_diag. simpl.
      exact Hrun.
  - unfold with_geometry in Hhead. simpl in Hhead.
    destruct (edge_geometry data) as [geo|] eqn:Hgeo; [done |].
    rewrite M_bind_unfold. unfold get at 1. cbv iota beta.
    rewrite M_bind_unfold, lift_run.
    rewrite (di_node_coords_nodes (mkMultiDiGraph nodes [])) by done.
    destruct (di_node_coords (mkMultiDiGraph nodes []) u) as [c1|e1] eqn:E1.
    + simpl in Hhead. cbv iota beta. rewrite M_bind_unfold, lift_run.
      rewrite (di_node_coords_nodes (mkMultiDiGraph nodes [])) by done.
      destruct (di_node_coords (mkMultiDiGraph nodes []) v) as [c2|e2] eqn:E2;
        [done |].
      simpl. f_equal. by eapply di_node_coords_raises.
    + simpl. f_equal. by eapply di_node_coords_raises.
Qed.

Lemma with_geometry_nodes (streets streets' : MultiDiGraph)
    (street : Node * Node * EdgeAttr) :
  di_node streets' = di_node streets ->
  with_geometry streets' street = with_geometry streets street.
Proof.
  intros E. unfold with_geometry.
  by rewrite !(di_node_coords_nodes streets streets') by done.
Qed.

Lemma add_geometry_run (streets : MultiDiGraph) :
  (forall street, street ∈ di_edges streets ->
     exists street', with_geometry streets street = Ok street') ->
  exists filled,
    add_geometry streets = (Ok tt, mkMultiDiGraph (di_node streets) filled) /\
    Forall2 (fun street street' => with_geometry streets street = Ok street')
            (di_edges streets) filled.
Proof.
  intros Hall. destruct streets as [nodes edges]. simpl in *.
  destruct (add_geometry_loop_run nodes edges []) as (filled & Hrun & Hf).
  { intros street Hin. destruct (Hall street Hin) as [street' Hs].
    exists street'.
    by rewrite (with_geometry_nodes (mkMultiDiGraph nodes edges)). }
  exists filled. split; [exact Hrun |].
  eapply Forall2_impl; [exact Hf |]. intros street street' Hs.
  by rewrite (with_geometry_nodes (mkMultiDiGraph nodes [])).
Qed.

Lemma add_geometry_fail (streets : MultiDiGraph)
    (street : Node * Node * EdgeAttr) (e : exn) :
  street ∈ di_edges streets -> with_geometry streets street = Raise e ->
  (add_geometry streets).1 = Raise KeyError.
Proof.
  intros Hin Hs. destruct streets as [nodes edges]. simpl in *.
  apply (add_geometry_loop_raises nodes edges [] street e Hin).
  by rewrite (with_geometry_nodes (mkMultiDiGraph nodes edges)).
Qed.

Lemma with_geometry_all_or_one (streets : MultiDiGraph)
    (edges : list (Node * Node * EdgeAttr)) :
  (forall street, street ∈ edges ->
     exists street', with_geometry streets street = Ok street') \/
  (exists street e, street ∈ edges /\ with_geometry streets street = Raise e).
Proof.
  induction edges as [|street edges IH].
  - left. intros street Hin. by apply elem_of_nil in Hin.
  - destruct (with_geometry streets street) as [street'|e] eqn:Hs.
    + destruct IH as [IH | (s & e & Hin & He)].
      * left. intros s Hin. apply elem_of_cons in Hin as [-> | Hin]; eauto.
      * right. exists s, e. split; [by right | done].
    + right. exists street, e. split; [left | done].
Qed.

Lemma with_geometry_Ok (streets : MultiDiGraph)
    (street street' : Node * Node * EdgeAttr) :
  with_geometry streets street = Ok street' ->
  street'.1 = street.1 /\
  edge_length street'.2 = edge_length street.2 /\
  match edge_geometry street.2 with
  | Some geometry => street' = street
  | None =>
      exists coords_1 coords_2,
        di_node_coords streets street.1.1 = Ok coords_1 /\
        di_node_coords streets street.1.2 = Ok coords_2 /\
        edge_geometry street'.2 = Some [coords_1; coords_2]
  end.
Proof.
  unfold with_geometry. destruct (edge_geometry street.2) as [geo|].
  - intros [= <-]. done.
  - destruct (di_node_coords streets street.1.1) as [c1|]; [| done].
    destruct (di_node_coords streets street.1.2) as [c2|]; [| done].
    simpl. intros [= <-]. simpl. repeat split. by exists c1, c2.
Qed.

Lemma check_geometry_loop_true (edges : list (Node * Node * EdgeAttr)) :
  check_geometry_loop edges = true <->
  forall street, street ∈ edges -> is_Some (edge_geometry street.2).
Proof.
  induction edges as [|[[u v] data] edges IH]; simpl.
  - split; [| done]. intros _ street Hin. by apply elem_of_nil in Hin.
  - destruct (edge_geometry data) as [geo|] eqn:Hgeo.
    + rewrite IH. split.
      * intros H street Hin. apply elem_of_cons in Hin as [-> | Hin];
          [by eexists | by apply H].
      * intros H street Hin. apply H. by right.
    + split; [done |]. intros H.
      destruct (H (u, v, data) (list_elem_of_here _ _)) as [geo Hg].
      simpl in Hg. congruence.
Qed.

Lemma can_add_geometry_all (streets : MultiDiGraph) :
  can_add_geometry streets ->
  forall street, street ∈ di_edges streets ->
    exists street', with_geometry streets street = Ok street'.
Proof.
  intros Hcan [[u v] data] Hin. unfold with_geometry. simpl.
  destruct (edge_geometry data) as [geo|] eqn:Hgeo; [by eexists |].
  destruct (Hcan u v data Hin Hgeo) as [[c1 ->] [c2 ->]]. by eexists.
Qed.

(** X20: when the end nodes of the edges without geometry have
    coordinates, [add_geometry] returns, leaves the nodes as they are and
    a graph on which [check_geometry] answers [True]; and
    [check_geometry] answers [True] exactly when every edge has a
    geometry. *)
Theorem add_geometry_then_check_geometry (streets : MultiDiGraph) :
  can_add_geometry streets ->
  (check_geometry streets = true <->
   forall street, street ∈ di_edges streets ->
     is_Some (edge_geometry street.2)) /\
  exists streets',
    add_geometry streets = (Ok tt, streets') /\
    di_node streets' = di_node streets /\
    check_geometry streets' = true.
Proof.
  intros Hcan. split; [apply check_geometry_loop_true |].
  destruct (add_geometry_run streets (can_add_geometry_all _ Hcan))
    as (filled & Hrun & Hf).
  eexists. split; [exact Hrun |]. split; [done |].
  apply check_geometry_loop_true. simpl. intros street' Hin.
  apply list_elem_of_lookup in Hin as [k Hk].
  destruct (Forall2_lookup_r _ _ _ _ _ Hf Hk) as (street & _ & Hs).
  apply with_geometry_Ok in Hs as (_ & _ & Hs).
  destruct (edge_geometry street.2) as [geo|] eqn:Hgeo.
  - subst street'. by eexists.
  - destruct Hs as (c1 & c2 & _ & _ & ->). by eexists.
Qed.

(** X21: [add_geometry] keeps the edges in place with their end nodes
    and lengths; an edge that had a geometry keeps it, one that had none
    gets the straight line from its first to its second end node. *)
Theorem add_geometry_edges (streets : MultiDiGraph) :
  can_add_geometry streets ->
  exists streets',
    add_geometry streets = (Ok tt, streets') /\
    length (di_edges streets') = length (di_edges streets) /\
    forall k street,
      di_edges streets !! k = Some street ->
      exists street',
        di_edges streets' !! k = Some street' /\
        street'.1 = street.1 /\
        edge_length street'.2 = edge_length street.2 /\
        match edge_geometry street.2 with
        | Some geometry => edge_geometry street'.2 = Some geometry
        | None =>
            exists coords_1 coords_2,
              di_node_coords streets street.1.1 = Ok coords_1 /\
              di_node_coords streets street.1.2 = Ok coords_2 /\
              edge_geometry street'.2 = Some [coords_1; coords_2]
        end.
Proof.
  intros Hcan.
  destruct (add_geometry_run streets (can_add_geometry_all _ Hcan))
    as (filled & Hrun & Hf).
  eexists. split; [exact Hrun |]. simpl.
  split; [symmetry; by eapply Forall2_length |].
  intros k street Hk.
  destruct (Forall2_lookup_l _ _ _ _ _ Hf Hk) as (street' & Hk' & Hs).
  exists street'. split; [done |].
  apply with_geometry_Ok in Hs as (H1 & H2 & H3).
  split; [done |]. split; [done |].
  destruct (edge_geometry street.2) as [geo|] eqn:Hgeo; [| done].
  subst street'. done.
Qed.

(** X22: [add_geometry] raises only [KeyError], and it raises exactly
    when some edge without geometry has an end node without
    coordinates. *)
Theorem add_geometry_key_error (streets : MultiDiGraph) :
  ((add_geometry streets).1 = Ok tt \/
   (add_geometry streets).1 = Raise KeyError) /\
  ((add_geometry streets).1 = Raise KeyError <->
   exists u v data,
     (u, v, data) ∈ di_edges streets /\ edge_geometry data = None /\
     (raises (di_node_coords streets u) \/
      raises (di_node_coords streets v))).
Proof.
  destruct (with_geometry_all_or_one streets (di_edges streets))
    as [Hall | (street & e & Hin & Hs)].
  - destruct (add_geometry_run streets Hall) as (filled & Hrun & _).
    rewrite Hrun. simpl. split; [by left |]. split; [done |].
    intros (u & v & data & Hin & Hgeo & Hr).
    destruct (Hall (u, v, data) Hin) as [street' Hs].
    unfold with_geometry in Hs. simpl in Hs. rewrite Hgeo in Hs.
    destruct Hr as [[e He] | [e He]].
    + rewrite He in Hs. done.
    + rewrite He in Hs. by destruct (di_node_coords streets u).
  - rewrite (add_geometry_fail streets street e Hin Hs).
    split; [by right |]. split; [| done]. intros _.
    destruct street as [[u v] data]. exists u, v, data.
    split; [done |]. unfold with_geometry in Hs. simpl in Hs.
    destruct (edge_geometry data) as [geo|]; [done |]. split; [done |].
    destruct (di_node_coords streets u) as [c1|e1]; [| left; by eexists].
    destruct (di_node_coords streets v) as [c2|e2]; [done |].
    right. by eexists.
Qed.

(** X23: [add_geometry] is idempotent: run on the graph it has left, it
    returns and changes nothing. *)
Theorem add_geometry_idempotent (streets streets' : MultiDiGraph) :
  add_geometry streets = (Ok tt, streets') ->
  add_geometry streets' = (Ok tt, streets').
Proof.
  intros Hrun.
  destruct (with_geometry_all_or_one streets (di_edges streets))
    as [Hall | (street & e & Hin & Hs)].
  2: { pose proof (add_geometry_fail streets street e Hin Hs) as Hf.
       rewrite Hrun in Hf. done. }
  destruct (add_geometry_run streets Hall) as (filled & Hrun' & Hf).
  rewrite Hrun in Hrun'. injection Hrun' as ->.
  assert (Hgeo : forall street', street' ∈ filled ->
                   is_Some (edge_geometry street'.2)).
  { intros street' Hin. apply list_elem_of_lookup in Hin as [k Hk].
    destruct (Forall2_lookup_r _ _ _ _ _ Hf Hk) as (street & _ & Hs).
    apply with_geometry_Ok in Hs as (_ & _ & Hs).
    destruct (edge_geometry street.2) as [geo|] eqn:Hg.
    - subst street'. by eexists.
    - destruct Hs as (c1 & c2 & _ & _ & ->). by eexists. }
  set (streets' := mkMultiDiGraph (di_node streets) filled).
  assert (Hsame : forall street', street' ∈ filled ->
                    with_geometry streets' street' = Ok street').
  { intros street' Hin. destruct (Hgeo street' Hin) as [geo Hg].
    unfold with_geometry. by rewrite Hg. }
  destruct (add_geometry_run streets') as (filled' & Hrun2 & Hf2).
  { intros street' Hin. exists street'. by apply Hsame. }
  rewrite Hrun2. do 2 f_equal. simpl in Hf2.
  apply list_eq. intros k.
  destruct (filled !! k) as [street'|] eqn:Hk.
  - destruct (Forall2_lookup_l _ _ _ _ _ Hf2 Hk) as (s2 & Hk2 & Hs2).
    rewrite Hsame in Hs2 by (apply list_elem_of_lookup; by eexists).
    congruence.
  - apply lookup_ge_None in Hk. apply lookup_ge_None.
    by rewrite <- (Forall2_length _ _ _ Hf2).
Qed.

Lemma scene_loaded_can_add_geometry : can_add_geometry scene_loaded.
Proof.
  intros u v data Hin Hgeo. simpl in Hin.
  apply elem_of_cons in Hin as [[= -> -> ->] | Hin]; [done |].
  apply elem_of_cons in Hin as [[= -> -> ->] | Hin];
    [split; by eexists |].
  by apply elem_of_nil in Hin.
Defined.

Lemma add_geometry_then_check_geometry_witness :
  (check_geometry scene_loaded = true <->
   forall street, street ∈ di_edges scene_loaded ->
     is_Some (edge_geometry street.2)) /\
  exists streets',
    add_geometry scene_loaded = (Ok tt, streets') /\
    di_node streets' = di_node scene_loaded /\
    check_geometry streets' = true.
Proof.
  apply (add_geometry_then_check_geometry scene_loaded).
  apply scene_loaded_can_add_geometry.
Defined.

Lemma add_geometry_edges_witness :
  exists streets',
    add_geometry scene_loaded = (Ok tt, streets') /\
    length (di_edges streets') = length (di_edges scene_loaded) /\
    forall k street,
      di_edges scene_loaded !! k = Some street ->
      exists street',
        di_edges streets' !! k = Some street' /\
        street'.1 = street.1 /\
        edge_length street'.2 = edge_length street.2 /\
        match edge_geometry street.2 with
        | Some geometry => edge_geometry street'.2 = Some geometry
        | None =>
            exists coords_1 coords_2,
              di_node_coords scene_loaded street.1.1 = Ok coords_1 /\
              di_node_coords scene_loaded street.1.2 = Ok coords_2 /\
              edge_geometry street'.2 = Some [coords_1; coords_2]
        end.
Proof.
  apply (add_geometry_edges scene_loaded).
  apply scene_loaded_can_add_geometry.
Defined.

Lemma add_geometry_idempotent_witness :
  add_geometry
    (mkMultiDiGraph (di_node scene_loaded)
       [(inl 1%Z, inl 2%Z, mkEdgeAttr 7 (Some [(0, 0); (3, 0); (3, 4)]));
        (inl 2%Z, inl 1%Z, mkEdgeAttr 5 (Some [(3, 4); (0, 0)]))]) =
  (Ok tt,
   mkMultiDiGraph (di_node scene_loaded)
     [(inl 1%Z, inl 2%Z, mkEdgeAttr 7 (Some [(0, 0); (3, 0); (3, 4)]));
      (inl 2%Z, inl 1%Z, mkEdgeAttr 5 (Some [(3, 4); (0, 0)]))]).
Proof.
  apply (add_geometry_idempotent scene_loaded).
  reflexivity.
Defined.

(** ** [Vehicles]: reading back and failing *)

Lemma np_positions_lt (n : nat) (idx : list Z) :
  forall ps, np_positions n idx = Ok ps ->
    length ps = length idx /\ forall p, p ∈ ps -> (p < n)%nat.
Proof.
  induction idx as [|i idx IH]; simpl; intros ps Hps.
  - injection Hps as <-. split; [done |]. intros p Hp.
    by apply elem_of_nil in Hp.
  - destruct (np_position n i) as [p|] eqn:Hp; [| done]. simpl in Hps.
    destruct (np_positions n idx) as [ps'|] eqn:Hps'; [| done].
    simpl in Hps. injection Hps as <-.
    destruct (IH ps' eq_refl) as [Hlen Hlt]. split; [simpl; lia |].
    intros q Hq. apply elem_of_cons in Hq as [-> | Hq]; [| by apply Hlt].
    unfold np_position in Hp.
    destruct (decide (0 <= i < Z.of_nat n)%Z); [injection Hp as <-; lia |].
    destruct (decide (- Z.of_nat n <= i < 0)%Z); [| done].
    injection Hp as <-. lia.
Qed.

Lemma np_positions_raises (n : nat) (idx : list Z) (e : exn) :
  np_positions n idx = Raise e ->
  e = IndexError /\ exists i, i ∈ idx /\ np_position n i = None.
Proof.
  induction idx as [|i idx IH]; simpl; [done |].
  destruct (np_position n i) as [p|] eqn:Hp; simpl.
  - destruct (np_positions n idx) as [ps|e'] eqn:Hps; simpl; [done |].
    intros [= <-]. destruct (IH eq_refl) as [-> (j & Hj & Hnone)].
    split; [done |]. exists j. split; [by right | done].
  - intros [= <-]. split; [done |]. exists i. split; [left | done].
Qed.

Lemma np_broadcast_length (k : nat) (values : np_values) (vs : list R) :
  np_broadcast k values = Ok vs -> length vs = k.
Proof.
  destruct values as [v|[|v [|w l]]]; simpl.
  - intros [= <-]. apply length_replicate.
  - destruct (decide (0%nat = k)); [| done]. by intros [= <-].
  - intros [= <-]. apply length_replicate.
  - destruct (decide (S (S (length l)) = k)); [| done]. by intros [= <-].
Qed.

Lemma np_broadcast_raises (k : nat) (values : np_values) (e : exn) :
  np_broadcast k values = Raise e ->
  e = ValueError /\ ~ broadcastable k values.
Proof.
  intros Hb. split.
  - destruct values as [v|[|v [|w l]]]; simpl in Hb; try done.
    + destruct (decide (0%nat = k)); [done | congruence].
    + destruct (decide (S (S (length l)) = k)); [done | congruence].
  - intros Hshape. destruct (np_broadcast_ok k values Hshape) as [vs Hvs].
    congruence.
Qed.

Lemma np_take_put (ps : list nat) :
  forall (arr vs : list R),
    NoDup ps -> length vs = length ps ->
    (forall p, p ∈ ps -> (p < length arr)%nat) ->
    np_take (np_put arr ps vs) ps = Ok vs.
Proof.
  induction ps as [|p ps IH]; intros arr vs Hnd Hlen Hlt.
  - by destruct vs.
  - destruct vs as [|v vs]; [done |]. simpl in Hlen.
    apply NoDup_cons in Hnd as [Hp Hnd]. simpl.
    rewrite np_put_other by done.
    rewrite list_lookup_insert_eq by (apply Hlt; left).
    simpl. rewrite IH; [done | done | lia |].
    intros q Hq. rewrite length_insert. apply Hlt. by right.
Qed.

Lemma set_pathlosses_run (key : string) (values : np_values)
    (self : Vehicles) :
  set_pathlosses key values self =
  match idxs self !! key with
  | None => (Raise KeyError, self)
  | Some idx =>
      match np_setitem (pathlosses self) idx values with
      | Ok pathlosses' =>
          (Ok tt,
           {| count := count self; points := points self;
              coordinates := coordinates self; graphs := graphs self;
              pathlosses := pathlosses'; distances := distances self;
              nlos := nlos self; idxs := idxs self |})
      | Raise e => (Raise e, self)
      end
  end.
Proof.
  unfold set_pathlosses. rewrite M_bind_unfold. unfold get at 1.
  cbv iota beta. rewrite M_bind_unfold, lift_run.
  destruct (idxs self !! key) as [idx|]; [| done]. simpl of_option.
  cbv iota beta. rewrite M_bind_unfold, lift_run.
  destruct (np_setitem (pathlosses self) idx values); reflexivity.
Qed.

(** X24: when the indices of a key address pairwise different
    positions, [get_pathlosses] after a [set_pathlosses] that returned
    gives the values written, broadcast to the number of indices. *)
Theorem get_pathlosses_after_set_pathlosses (self : Vehicles)
    (key : string) (idx : list Z) (ps : list nat) (values : np_values) :
  idxs self !! key = Some idx ->
  np_positions (length (pathlosses self)) idx = Ok ps ->
  NoDup ps ->
  (set_pathlosses key values self).1 = Ok tt ->
  get_pathlosses (Some key) (set_pathlosses key values self).2 =
  np_broadcast (length idx) values.
Proof.
  intros Hkey Hps Hnd. rewrite set_pathlosses_run, Hkey.
  unfold np_setitem.
  destruct (np_broadcast (length idx) values) as [vs|e] eqn:Hb; [| done].
  change (Ok vs ≫= ?f) with (f vs). cbv beta. rewrite Hps.
  simpl. intros _. rewrite Hkey. simpl. unfold np_getitem.
  rewrite np_put_length, Hps. simpl.
  destruct (np_positions_lt _ _ _ Hps) as [Hlen Hlt].
  apply np_take_put; [done | | done].
  rewrite Hlen. by apply np_broadcast_length in Hb.
Qed.

Lemma get_pathlosses_after_set_pathlosses_witness :
  get_pathlosses (Some "nlos")
    (set_pathlosses "nlos" (Scalar 7) scene_vehicles).2 =
  np_broadcast (length [1; -1]%Z) (Scalar 7).
Proof.
  apply (get_pathlosses_after_set_pathlosses scene_vehicles "nlos"
           [1; -1]%Z [1; 2]%nat (Scalar 7)).
  - reflexivity.
  - reflexivity.
  - apply NoDup_cons. split.
    + intros H. apply list_elem_of_singleton in H. discriminate H.
    + apply NoDup_singleton.
  - reflexivity.
Defined.

(** X25: a [set_pathlosses] that raises leaves the object as it was,
    and raises [KeyError] for a key not registered, [IndexError] for an
    index outside [pathlosses], [ValueError] for values that do not
    broadcast to the indices. *)
Theorem set_pathlosses_raises (self : Vehicles) (key : string)
    (values : np_values) (e : exn) :
  (set_pathlosses key values self).1 = Raise e ->
  (set_pathlosses key values self).2 = self /\
  ((e = KeyError /\ idxs self !! key = None) \/
   (e = IndexError /\
    exists idx i,
      idxs self !! key = Some idx /\ i ∈ idx /\
      np_position (length (pathlosses self)) i = None) \/
   (e = ValueError /\
    exists idx,
      idxs self !! key = Some idx /\
      ~ broadcastable (length idx) values)).
Proof.
  rewrite set_pathlosses_run.
  destruct (idxs self !! key) as [idx|] eqn:Hkey.
  - unfold np_setitem.
    destruct (np_broadcast (length idx) values) as [vs|e2] eqn:Hb; simpl.
    + destruct (np_positions (length (pathlosses self)) idx)
        as [ps|e1] eqn:Hps; simpl; [done |].
      intros [= <-]. split; [done |]. right. left.
      apply np_positions_raises in Hps as [-> (i & Hi & Hnone)].
      split; [done |]. by exists idx, i.
    + intros [= <-]. split; [done |]. right. right.
      apply np_broadcast_raises in Hb as [-> Hb]. split; [done |].
      by exists idx.
  - simpl. intros [= <-]. split; [done |]. left. done.
Qed.

Lemma set_pathlosses_raises_witness :
  (set_pathlosses "olos" (Scalar 7) scene_vehicles).2 = scene_vehicles /\
  ((KeyError = KeyError /\ idxs scene_vehicles !! "olos" = None) \/
   (KeyError = IndexError /\
    exists idx i,
      idxs scene_vehicles !! "olos" = Some idx /\ i ∈ idx /\
      np_position (length (pathlosses scene_vehicles)) i = None) \/
   (KeyError = ValueError /\
    exists idx,
      idxs scene_vehicles !! "olos" = Some idx /\
      ~ broadcastable (length idx) (Scalar 7))).
Proof.
  apply (set_pathlosses_raises scene_vehicles "olos" (Scalar 7) KeyError).
  reflexivity.
Defined.

(** ** Bounding boxes *)

Lemma fold_left_Rmin_spec (l : list R) :
  forall v,
    fold_left Rmin l v <= v /\
    (forall x, x ∈ l -> fold_left Rmin l v <= x) /\
    (fold_left Rmin l v = v \/ fold_left Rmin l v ∈ l).
Proof.
  induction l as [|a l IH]; intros v; simpl.
  - split; [lra |]. split; [| by left].
    intros x Hx. by apply elem_of_nil in Hx.
  - destruct (IH (Rmin v a)) as (H1 & H2 & H3).
    pose proof (Rmin_l v a). pose proof (Rmin_r v a).
    split; [lra |]. split.
    + intros x Hx. apply elem_of_cons in Hx as [-> | Hx]; [lra | auto].
    + destruct H3 as [H3 | H3]; [| right; by right].
      rewrite H3. unfold Rmin. destruct (Rle_dec v a); [by left |].
      right. left.
Qed.

Lemma fold_left_Rmax_spec (l : list R) :
  forall v,
    v <= fold_left Rmax l v /\
    (forall x, x ∈ l -> x <= fold_left Rmax l v) /\
    (fold_left Rmax l v = v \/ fold_left Rmax l v ∈ l).
Proof.
  induction l as [|a l IH]; intros v; simpl.
  - split; [lra |]. split; [| by left].
    intros x Hx. by apply elem_of_nil in Hx.
  - destruct (IH (Rmax v a)) as (H1 & H2 & H3).
    pose proof (Rmax_l v a). pose proof (Rmax_r v a).
    split; [lra |]. split.
    + intros x Hx. apply elem_of_cons in Hx as [-> | Hx]; [lra | auto].
    + destruct H3 as [H3 | H3]; [| right; by right].
      rewrite H3. unfold Rmax. destruct (Rle_dec v a); [right; left |].
      by left.
Qed.

Lemma np_amin_spec (l : list R) (m : R) :
  np_amin l = Ok m -> m ∈ l /\ forall x, x ∈ l -> m <= x.
Proof.
  destruct l as [|v l]; simpl; [done |]. intros [= <-].
  destruct (fold_left_Rmin_spec l v) as (H1 & H2 & H3). split.
  - destruct H3 as [-> | H3]; [left | by right].
  - intros x Hx. apply elem_of_cons in Hx as [-> | Hx]; auto.
Qed.

Lemma np_amax_spec (l : list R) (m : R) :
  np_amax l = Ok m -> m ∈ l /\ forall x, x ∈ l -> x <= m.
Proof.
  destruct l as [|v l]; simpl; [done |]. intros [= <-].
  destruct (fold_left_Rmax_spec l v) as (H1 & H2 & H3). split.
  - destruct H3 as [-> | H3]; [left | by right].
  - intros x Hx. apply elem_of_cons in Hx as [-> | Hx]; auto.
Qed.

Lemma bounds_of_step (here rest : list R) (lo0 hi0 lo1 hi1 lo hi : R) :
  lo1 <= lo0 -> hi0 <= hi1 ->
  (forall x, x ∈ here -> lo1 <= x) -> (forall x, x ∈ here -> x <= hi1) ->
  (lo1 = lo0 \/ lo1 ∈ here) -> (hi1 = hi0 \/ hi1 ∈ here) ->
  bounds_of rest lo1 hi1 lo hi ->
  bounds_of (here ++ rest) lo0 hi0 lo hi.
Proof.
  intros A1 A2 A3 A4 A5 A6 [B1 B2 B3 B4 B5 B6]. split.
  - lra.
  - lra.
  - intros x Hx. apply elem_of_app in Hx as [Hx | Hx]; [| auto].
    specialize (A3 x Hx). lra.
  - intros x Hx. apply elem_of_app in Hx as [Hx | Hx]; [| auto].
    specialize (A4 x Hx). lra.
  - destruct B5 as [-> | B5].
    + destruct A5 as [-> | A5]; [by left |].
      right. apply elem_of_app. by left.
    + right. apply elem_of_app. by right.
  - destruct B6 as [-> | B6].
    + destruct A6 as [-> | A6]; [by left |].
      right. apply elem_of_app. by left.
    + right. apply elem_of_app. by right.
Qed.

Lemma min_max_coords_loop_spec (traces : list (list TraceRow)) :
  forall x_min x_max y_min y_max,
  exists x_lo x_hi y_lo y_hi,
    min_max_coords_loop traces x_min x_max y_min y_max =
    Ok (x_lo, x_hi, y_lo, y_hi) /\
    bounds_of (trace_x <$> concat traces) x_min x_max x_lo x_hi /\
    bounds_of (trace_y <$> concat traces) y_min y_max y_lo y_hi.
Proof.
  induction traces as [|trace traces IH]; intros x_min x_max y_min y_max.
  - exists x_min, x_max, y_min, y_max. split; [done |].
    split; (split; [lra | lra | | | by left | by left]);
      intros x Hx; by apply elem_of_nil in Hx.
  - simpl. destruct (decide (length trace = 0%nat)) as [Hempty | Hsome].
    + destruct trace; [| done]. simpl. apply IH.
    + destruct (np_amin (trace_x <$> trace)) as [x1|] eqn:Hx1;
        [| by destruct trace].
      destruct (np_amax (trace_x <$> trace)) as [x2|] eqn:Hx2;
        [| by destruct trace].
      destruct (np_amin (trace_y <$> trace)) as [y1|] eqn:Hy1;
        [| by destruct trace].
      destruct (np_amax (trace_y <$> trace)) as [y2|] eqn:Hy2;
        [| by destruct trace].
      simpl.
      apply np_amin_spec in Hx1 as [Hx1 Lx1].
      apply np_amax_spec in Hx2 as [Hx2 Lx2].
      apply np_amin_spec in Hy1 as [Hy1 Ly1].
      apply np_amax_spec in Hy2 as [Hy2 Ly2].
      match goal with
      | |- context [min_max_coords_loop traces ?a ?b ?c ?d] =>
          destruct (IH a b c d) as (x_lo & x_hi & y_lo & y_hi & Hrun & Bx & By)
      end.
      exists x_lo, x_hi, y_lo, y_hi. split; [exact Hrun |].
      rewrite !fmap_app. split.
      * eapply bounds_of_step; [| | | | | | exact Bx].
        -- unfold Rltb. destruct (Rlt_dec x1 x_min); lra.
        -- unfold Rgtb. destruct (Rgt_dec x2 x_max); lra.
        -- intros x Hx. specialize (Lx1 x Hx). unfold Rltb.
           destruct (Rlt_dec x1 x_min); lra.
        -- intros x Hx. specialize (Lx2 x Hx). unfold Rgtb.
           destruct (Rgt_dec x2 x_max); lra.
        -- unfold Rltb. destruct (Rlt_dec x1 x_min); [by right | by left].
        -- unfold Rgtb. destruct (Rgt_dec x2 x_max); [by right | by left].
      * eapply bounds_of_step; [| | | | | | exact By].
        -- unfold Rltb. destruct (Rlt_dec y1 y_min); lra.
        -- unfold Rgtb. destruct (Rgt_dec y2 y_max); lra.
        -- intros x Hx. specialize (Ly1 x Hx). unfold Rltb.
           destruct (Rlt_dec y1 y_min); lra.
        -- intros x Hx. specialize (Ly2 x Hx). unfold Rgtb.
           destruct (Rgt_dec y2 y_max); lra.
        -- unfold Rltb. destruct (Rlt_dec y1 y_min); [by right | by left].
        -- unfold Rgtb. destruct (Rgt_dec y2 y_max); [by right | by left].
Qed.

(** X26: the bounds [min_max_coords] returns enclose every vehicle of
    every time step, and each of the four is the coordinate of some
    vehicle. *)
Theorem min_max_coords_bounding_box (traces : list (list TraceRow))
    (x_min x_max y_min y_max : R) :
  min_max_coords traces = Ok (x_min, x_max, y_min, y_max) ->
  (forall trace row, trace ∈ traces -> row ∈ trace ->
     x_min <= trace_x row <= x_max /\ y_min <= trace_y row <= y_max) /\
  (exists row, row ∈ concat traces /\ trace_x row = x_min) /\
  (exists row, row ∈ concat traces /\ trace_x row = x_max) /\
  (exists row, row ∈ concat traces /\ trace_y row = y_min) /\
  (exists row, row ∈ concat traces /\ trace_y row = y_max).
Proof.
  unfold min_max_coords.
  destruct traces as [|[|first trace_0] traces]; [done | done |].
  set (all := (first :: trace_0) :: traces).
  intros Hres.
  change (min_max_coords_loop all (trace_x first) (trace_x first)
            (trace_y first) (trace_y first) =
          Ok (x_min, x_max, y_min, y_max)) in Hres.
  destruct (min_max_coords_loop_spec all (trace_x first) (trace_x first)
              (trace_y first) (trace_y first))
    as (x_lo & x_hi & y_lo & y_hi & Hrun & Bx & By).
  rewrite Hrun in Hres. injection Hres as <- <- <- <-.
  destruct Bx as [_ _ X3 X4 X5 X6], By as [_ _ Y3 Y4 Y5 Y6].
  assert (Hfirst : first ∈ concat all) by (simpl; left).
  assert (Hmet : forall (f : TraceRow -> R) (b : R),
            b = f first \/ b ∈ f <$> concat all ->
            exists row, row ∈ concat all /\ f row = b).
  { intros f b [-> | Hb]; [by exists first |].
    apply list_elem_of_fmap in Hb as (row & -> & Hrow). by exists row. }
  split; [| by repeat split; apply Hmet].
  intros trace row Ht Hr.
  assert (Hrow : row ∈ concat all).
  { apply list_elem_of_In, in_concat. exists trace.
    split; by apply list_elem_of_In. }
  pose proof (X3 (trace_x row) (list_elem_of_fmap_2 _ _ _ Hrow)).
  pose proof (X4 (trace_x row) (list_elem_of_fmap_2 _ _ _ Hrow)).
  pose proof (Y3 (trace_y row) (list_elem_of_fmap_2 _ _ _ Hrow)).
  pose proof (Y4 (trace_y row) (list_elem_of_fmap_2 _ _ _ Hrow)).
  lra.
Qed.

Lemma scene_traces_bounds : min_max_coords scene_traces = Ok (1, 4, 2, 5).
Proof.
  unfold min_max_coords, scene_traces. simpl.
  unfold Rmin, Rmax, Rltb, Rgtb.
  repeat (destruct (Rle_dec _ _); try lra);
    repeat (destruct (Rlt_dec _ _); try lra);
    repeat (destruct (Rgt_dec _ _); try lra); reflexivity.
Defined.

Lemma min_max_coords_bounding_box_witness :
  (forall trace row, trace ∈ scene_traces -> row ∈ trace ->
     1 <= trace_x row <= 4 /\ 2 <= trace_y row <= 5) /\
  (exists row, row ∈ concat scene_traces /\ trace_x row = 1) /\
  (exists row, row ∈ concat scene_traces /\ trace_x row = 4) /\
  (exists row, row ∈ concat scene_traces /\ trace_y row = 2) /\
  (exists row, row ∈ concat scene_traces /\ trace_y row = 5).
Proof.
  apply (min_max_coords_bounding_box scene_traces 1 4 2 5).
  apply scene_traces_bounds.
Defined.

(** X27: [min_max_coords] raises exactly when there is no time step or
    the first time step has no vehicle, whatever the later time steps
    hold, and what it raises is [IndexError]. *)
Theorem min_max_coords_first_time_step (traces : list (list TraceRow)) :
  match min_max_coords traces with
  | Ok _ => exists first trace_0 later, traces = (first :: trace_0) :: later
  | Raise e =>
      e = IndexError /\ (traces = [] \/ exists later, traces = [] :: later)
  end.
Proof.
  unfold min_max_coords.
  destruct traces as [|[|first trace_0] traces].
  - split; [done | by left].
  - split; [done |]. right. by eexists.
  - change (match min_max_coords_loop ((first :: trace_0) :: traces)
                    (trace_x first) (trace_x first)
                    (trace_y first) (trace_y first) with
            | Ok _ =>
                exists first' trace_0' later,
                  (first :: trace_0) :: traces =
                  (first' :: trace_0') :: later
            | Raise e =>
                e = IndexError /\
                ((first :: trace_0) :: traces = [] \/
                 exists later, (first :: trace_0) :: traces = [] :: later)
            end).
    destruct (min_max_coords_loop_spec ((first :: trace_0) :: traces)
                (trace_x first) (trace_x first)
                (trace_y first) (trace_y first))
      as (x_lo & x_hi & y_lo & y_hi & Hrun & _).
    rewrite Hrun. by exists first, trace_0, traces.
Qed.

(** ** [find_center_veh] *)

Lemma argmin_from_spec (l : list R) :
  forall (pre : list R) (best_i : nat) (best : R),
    (best_i < length pre)%nat ->
    pre !! best_i = Some best ->
    (forall j w, pre !! j = Some w -> best <= w) ->
    (forall j w, (j < best_i)%nat -> pre !! j = Some w -> best < w) ->
    exists v,
      (pre ++ l) !! argmin_from best_i best (length pre) l = Some v /\
      (forall j w, (pre ++ l) !! j = Some w -> v <= w) /\
      (forall j w, (j < argmin_from best_i best (length pre) l)%nat ->
         (pre ++ l) !! j = Some w -> v < w).
Proof.
  induction l as [|x l IH]; intros pre best_i best Hlt Hbest Hle Hfirst.
  - simpl. rewrite app_nil_r. exists best. done.
  - simpl argmin_from.
    replace (pre ++ x :: l) with ((pre ++ [x]) ++ l)
      by (by rewrite <- app_assoc).
    replace (S (length pre)) with (length (pre ++ [x]))
      by (rewrite length_app; simpl; lia).
    destruct (Rltb x best) eqn:E.
    + apply Rltb_true in E. apply IH.
      * rewrite length_app. simpl. lia.
      * rewrite lookup_app_r by lia. by rewrite Nat.sub_diag.
      * intros j w Hj. apply lookup_app_Some in Hj as [Hj | [Hge Hj]].
        -- specialize (Hle j w Hj). lra.
        -- destruct (j - length pre)%nat; simpl in Hj; [| done].
           injection Hj as ->. lra.
      * intros j w Hjlt Hj. rewrite lookup_app_l in Hj by done.
        specialize (Hle j w Hj). lra.
    + apply Rltb_false in E. apply IH.
      * rewrite length_app. simpl. lia.
      * by apply lookup_app_l_Some.
      * intros j w Hj. apply lookup_app_Some in Hj as [Hj | [Hge Hj]].
        -- by apply (Hle j).
        -- destruct (j - length pre)%nat; simpl in Hj; [| done].
           injection Hj as ->. lra.
      * intros j w Hjlt Hj. rewrite lookup_app_l in Hj by lia.
        by apply (Hfirst j).
Qed.

Lemma np_argmin_spec (l : list R) (i : nat) :
  np_argmin l = Ok i ->
  exists v,
    l !! i = Some v /\
    (forall j w, l !! j = Some w -> v <= w) /\
    (forall j w, (j < i)%nat -> l !! j = Some w -> v < w).
Proof.
  destruct l as [|x l]; [done |]. intros [= <-].
  apply (argmin_from_spec l [x] 0 x).
  - simpl. lia.
  - done.
  - intros [|j] w Hj; simpl in Hj; [| done]. injection Hj as ->. lra.
  - intros j w Hj. lia.
Qed.

(** X28: [find_center_veh] either returns or raises [ValueError]. It
    returns exactly when there is a vehicle and the two coordinate
    arrays are equally long, and then the index of the first vehicle
    nearest to the centre of the bounding box of all vehicles; it
    raises exactly when there is no vehicle or the two arrays differ in
    length. *)
Theorem find_center_veh_nearest (coords_x coords_y : list R) :
  match find_center_veh coords_x coords_y with
  | Ok index =>
      coords_x <> [] /\ length coords_x = length coords_y /\
      exists min_x max_x min_y max_y x y,
        (min_x ∈ coords_x /\ forall c, c ∈ coords_x -> min_x <= c) /\
        (max_x ∈ coords_x /\ forall c, c ∈ coords_x -> c <= max_x) /\
        (min_y ∈ coords_y /\ forall c, c ∈ coords_y -> min_y <= c) /\
        (max_y ∈ coords_y /\ forall c, c ∈ coords_y -> c <= max_y) /\
        coords_x !! index = Some x /\ coords_y !! index = Some y /\
        forall j x' y',
          coords_x !! j = Some x' -> coords_y !! j = Some y' ->
          let center := ((min_x + max_x) / 2, (min_y + max_y) / 2) in
          euclid center (x, y) <= euclid center (x', y') /\
          ((j < index)%nat ->
           euclid center (x, y) < euclid center (x', y'))
  | Raise e =>
      e = ValueError /\
      (coords_x = [] \/ length coords_x <> length coords_y)
  end.
Proof.
  unfold find_center_veh.
  destruct (np_amin coords_x) as [min_x|e] eqn:Hmin_x; simpl.
  2: { destruct coords_x; [| done]. injection Hmin_x as <-.
       split; [done | by left]. }
  destruct (np_amax coords_x) as [max_x|e] eqn:Hmax_x; simpl.
  2: { by destruct coords_x. }
  destruct (np_amin coords_y) as [min_y|e] eqn:Hmin_y; simpl.
  2: { destruct coords_y; [| done]. injection Hmin_y as <-.
       split; [done |]. right. by destruct coords_x. }
  destruct (np_amax coords_y) as [max_y|e] eqn:Hmax_y; simpl.
  2: { by destruct coords_y. }
  unfold np_vstack_T.
  destruct (decide (length coords_x = length coords_y)) as [Hlen | Hlen];
    simpl; [| split; [done | by right]].
  set (center := ((min_x + max_x) / 2, (min_y + max_y) / 2)).
  destruct (np_argmin (euclid center <$> zip coords_x coords_y))
    as [index|e] eqn:Harg.
  2: { destruct coords_x; [done |]. by destruct coords_y. }
  apply np_argmin_spec in Harg as (v & Hv & Hle & Hfirst).
  rewrite list_lookup_fmap in Hv.
  destruct (zip coords_x coords_y !! index) as [[x y]|] eqn:Hxy; [| done].
  simpl in Hv. injection Hv as <-.
  apply lookup_zip_with_Some in Hxy as (x0 & y0 & [= <- <-] & Hx & Hy).
  split; [by destruct coords_x |]. split; [done |].
  exists min_x, max_x, min_y, max_y, x, y.
  split; [by apply np_amin_spec |]. split; [by apply np_amax_spec |].
  split; [by apply np_amin_spec |]. split; [by apply np_amax_spec |].
  split; [done |]. split; [done |].
  intros j x' y' Hx' Hy'.
  assert (Hj : (euclid center <$> zip coords_x coords_y) !! j =
               Some (euclid center (x', y'))).
  { rewrite list_lookup_fmap.
    assert (Hz : zip coords_x coords_y !! j = Some (x', y')).
    { apply lookup_zip_with_Some. by exists x', y'. }
    by rewrite Hz. }
  split; [by apply (Hle j) |]. intros Hlt. by apply (Hfirst j).
Qed.

Lemma find_center_veh_index (coords_x coords_y : list R) :
  match find_center_veh coords_x coords_y with
  | Ok index =>
      (index < length coords_x)%nat /\ length coords_x = length coords_y
  | Raise e => coords_x = [] \/ length coords_x <> length coords_y
  end.
Proof.
  unfold find_center_veh.
  destruct coords_x as [|x coords_x]; [by left |].
  destruct coords_y as [|y coords_y]; [by right |].
  change (np_amin (x :: coords_x)) with (Ok (fold_left Rmin coords_x x)).
  change (np_amax (x :: coords_x)) with (Ok (fold_left Rmax coords_x x)).
  change (np_amin (y :: coords_y)) with (Ok (fold_left Rmin coords_y y)).
  change (np_amax (y :: coords_y)) with (Ok (fold_left Rmax coords_y y)).
  unfold np_vstack_T.
  destruct (decide (length (x :: coords_x) = length (y :: coords_y)))
    as [Hlen | Hlen].
  2: { repeat (change (Ok ?a ≫= ?f) with (f a); cbv beta zeta).
       by right. }
  repeat (change (Ok ?a ≫= ?f) with (f a); cbv beta zeta).
  match goal with
  | |- match np_argmin ?l with _ => _ end =>
      destruct (np_argmin l) as [index|e] eqn:Harg; [| done];
      apply np_argmin_spec in Harg as (v & Hv & _);
      apply lookup_lt_Some in Hv;
      rewrite length_fmap, length_zip_with in Hv
  end.
  split; [lia | done].
Qed.

(** X29: on the coordinates [extract_point_array] takes from a point
    array, [find_center_veh] raises only for an array without points,
    and otherwise returns the index of one of the points. *)
Theorem find_center_veh_of_points (points : list Point) :
  match find_center_veh (extract_point_array points).1
                        (extract_point_array points).2 with
  | Ok index => is_Some (points !! index)
  | Raise e => points = []
  end.
Proof.
  pose proof (find_center_veh_index (extract_point_array points).1
                (extract_point_array points).2) as H.
  destruct (find_center_veh _ _) as [index|e].
  - destruct H as [H _]. simpl in H. rewrite length_fmap in H.
    by apply lookup_lt_is_Some.
  - destruct H as [H | H].
    + simpl in H. by destruct points.
    + simpl in H. by rewrite !length_fmap in H.
Qed.

(** ** [choose_random_streets] *)

Lemma py_sum_scale (l : list R) (c : R) :
  py_sum ((fun v => v / c) <$> l) = py_sum l / c.
Proof.
  induction l as [|v l IH].
  - unfold py_sum. simpl. lra.
  - rewrite fmap_cons, !py_sum_cons, IH. lra.
Qed.

Lemma py_sum_nonneg (l : list R) :
  (forall v, v ∈ l -> 0 <= v) ->
  0 <= py_sum l /\ forall v, v ∈ l -> v <= py_sum l.
Proof.
  induction l as [|a l IH]; intros Hpos.
  - split; [unfold py_sum; simpl; lra |].
    intros v Hv. by apply elem_of_nil in Hv.
  - destruct IH as [IH1 IH2].
    { intros v Hv. apply Hpos. by right. }
    pose proof (Hpos a (list_elem_of_here _ _)) as Ha.
    rewrite py_sum_cons. split; [lra |].
    intros v Hv. apply elem_of_cons in Hv as [-> | Hv]; [lra |].
    specialize (IH2 v Hv). lra.
Qed.

(** X30: for street lengths that are not negative and not all zero,
    the weights [choose_random_streets] hands to the random choice are
    a probability distribution over the streets: one weight per street,
    each the street's share of the total length, each in [[0, 1]], with
    sum one. *)
Theorem choose_random_streets_probs_distribution (lengths : list R) :
  (forall l, l ∈ lengths -> 0 <= l) ->
  0 < py_sum lengths ->
  length (choose_random_streets_probs lengths) = length lengths /\
  (forall k l, lengths !! k = Some l ->
     choose_random_streets_probs lengths !! k = Some (l / py_sum lengths)) /\
  (forall p, p ∈ choose_random_streets_probs lengths -> 0 <= p <= 1) /\
  py_sum (choose_random_streets_probs lengths) = 1.
Proof.
  intros Hpos Htotal. unfold choose_random_streets_probs. cbv zeta.
  split; [apply length_fmap |]. split; [| split].
  - intros k l Hk. by rewrite list_lookup_fmap, Hk.
  - intros p Hp. apply list_elem_of_fmap in Hp as (l & -> & Hl).
    destruct (py_sum_nonneg lengths Hpos) as [_ Hle].
    specialize (Hle l Hl). specialize (Hpos l Hl).
    pose proof (Rinv_0_lt_compat _ Htotal) as Hinv.
    unfold Rdiv. split; [nra |].
    replace 1 with (py_sum lengths * / py_sum lengths) by (field; lra).
    nra.
  - rewrite py_sum_scale. field. lra.
Qed.

Lemma choose_random_streets_probs_distribution_witness :
  length (choose_random_streets_probs [1; 3]) = length [1; 3] /\
  (forall k l, [1; 3] !! k = Some l ->
     choose_random_streets_probs [1; 3] !! k = Some (l / py_sum [1; 3])) /\
  (forall p, p ∈ choose_random_streets_probs [1; 3] -> 0 <= p <= 1) /\
  py_sum (choose_random_streets_probs [1; 3]) = 1.
Proof.
  apply (choose_random_streets_probs_distribution [1; 3]).
  - intros l Hl.
    apply elem_of_cons in Hl as [-> | Hl]; [lra |].
    apply elem_of_cons in Hl as [-> | Hl]; [lra |].
    by apply elem_of_nil in Hl.
  - unfold py_sum. simpl. lra.
Defined.
